(** * Agentic RAG: the vector store and the retrieval control loop

    A shallow embedding of [app/services/vector_store.py] and
    [app/services/rag_pipeline.py], with the properties of the
    specification stated over it, and of the chunker of
    [app/services/document_loader.py] and the ingestion task of
    [app/services/background_tasks.py].

    Conventions of the embedding.
    - Python [int] is [Z]; list positions produced by [range] are [nat].
    - Python [str] is [string]; a character is read as the code point
      U+0000..U+00FF that its byte denotes, and the [str] methods are
      modelled on that range.
    - Embedding vectors are lists of rationals: [float32] arithmetic is
      idealised as exact arithmetic.
    - The sentence encoder and the chat model are external; they are section
      variables ([encode], [llm]).
    - An exception is a value: functions that can raise return a [result]
      or an [option], and a [try]/[except] is a match on it.
    - Locks, the thread pool and wall-clock latency are not modelled. *)

From Stdlib Require Import ZArith QArith List String Ascii Bool Lia.
From Stdlib Require Import Sorting.Mergesort Orders Permutation Sorted.
From stdpp Require Import gmap strings list pretty.
Import ListNotations.

Open Scope string_scope.
Open Scope list_scope.
Open Scope Z_scope.

(** ** Python strings *)

Module PyStr.

(** [str.isspace] on one character. *)
Definition isspace (c : ascii) : bool :=
  let n := N_of_ascii c in
  (((9 <=? n) && (n <=? 13)) || ((28 <=? n) && (n <=? 32))
   || (n =? 133) || (n =? 160))%N.

Fixpoint lstrip (s : string) : string :=
  match s with
  | EmptyString => EmptyString
  | String c s' => if isspace c then lstrip s' else s
  end.

Fixpoint rstrip (s : string) : string :=
  match s with
  | EmptyString => EmptyString
  | String c s' =>
      match rstrip s' with
      | EmptyString => if isspace c then EmptyString else String c EmptyString
      | r => String c r
      end
  end.

(** [s.strip()] *)
Definition strip (s : string) : string := rstrip (lstrip s).

Definition lower_char (c : ascii) : ascii :=
  let n := N_of_ascii c in
  if (((65 <=? n) && (n <=? 90))
      || ((192 <=? n) && (n <=? 222) && negb (n =? 215)))%N
  then ascii_of_N (n + 32) else c.

(** [s.lower()] *)
Fixpoint lower (s : string) : string :=
  match s with
  | EmptyString => EmptyString
  | String c s' => String (lower_char c) (lower s')
  end.

Definition is_ascii_digit (c : ascii) : bool :=
  let n := N_of_ascii c in ((48 <=? n) && (n <=? 57))%N.

(** Characters with the Unicode property [Digit]: the decimal digits and
    the superscripts U+00B2, U+00B3, U+00B9. *)
Definition isdigit_char (c : ascii) : bool :=
  let n := N_of_ascii c in
  (is_ascii_digit c || (n =? 178) || (n =? 179) || (n =? 185))%N.

Fixpoint all_chars (p : ascii -> bool) (s : string) : bool :=
  match s with
  | EmptyString => true
  | String c s' => p c && all_chars p s'
  end.

(** [s.isdigit()]: at least one character, all of them digits. *)
Definition isdigit (s : string) : bool :=
  match s with
  | EmptyString => false
  | _ => all_chars isdigit_char s
  end.

Fixpoint int_digits (acc : Z) (s : string) : option Z :=
  match s with
  | EmptyString => Some acc
  | String c s' =>
      if is_ascii_digit c
      then int_digits (10 * acc + Z.of_N (N_of_ascii c - 48)) s'
      else None
  end.

(** [int(s)] for a string that passed [isdigit]; [None] stands for
    [ValueError]. A superscript digit passes [isdigit] and is refused here.
    The interpreter's limit on the length of a digit string is not
    modelled. *)
Definition int (s : string) : option Z :=
  match s with
  | EmptyString => None
  | _ => int_digits 0 s
  end.

(** [s.split(",")] *)
Fixpoint split_comma (s : string) : list string :=
  match s with
  | EmptyString => [EmptyString]
  | String c s' =>
      match split_comma s' with
      | [] => [String c EmptyString]
      | h :: t =>
          if Ascii.eqb c ","%char then EmptyString :: h :: t
          else String c h :: t
      end
  end.

(** [s[:n]] *)
Fixpoint take (n : nat) (s : string) : string :=
  match n, s with
  | S n', String c s' => String c (take n' s')
  | _, _ => EmptyString
  end.

(** [sep.join(parts)] *)
Definition join (sep : string) (parts : list string) : string :=
  String.concat sep parts.

(** [a or b] on strings: the empty string is falsy. *)
Definition or_else (a b : string) : string :=
  match a with EmptyString => b | _ => a end.

Definition nl : string := String (ascii_of_nat 10) EmptyString.

(** [str(i)] in an f-string *)
Definition of_Z (i : Z) : string := pretty i.

End PyStr.

(** ** The exact nearest-neighbour index

    [faiss.IndexFlatL2] stores the vectors in insertion order and answers a
    query by brute force: the [k] stored vectors nearest to the query by
    squared Euclidean distance, nearest first, each with its position. *)

Module Faiss.

Definition vec : Type := list Q.

Definition sqdist (a b : vec) : Q :=
  fold_right Qplus 0%Q
    (map (fun xy => Qmult (fst xy - snd xy) (fst xy - snd xy)) (combine a b)).

(** A search result: a distance and a position. *)
Module DistOrder <: TotalLeBool.
Definition t : Type := (Q * Z)%type.
Definition leb (x y : t) : bool := Qle_bool (fst x) (fst y).
Theorem leb_total : forall x y, leb x y = true \/ leb y x = true.
Proof.
  intros x y. unfold leb. rewrite !Qle_bool_iff.
  destruct (Qlt_le_dec (fst y) (fst x)) as [H | H]; [right | left]; auto.
  apply Qlt_le_weak; exact H.
Qed.
End DistOrder.

Module DistSort := Sort DistOrder.

Definition IndexFlatL2 : Type := list vec.

Definition ntotal (index : IndexFlatL2) : Z := Z.of_nat (length index).

(** [index.add(embs)] *)
Definition add (index : IndexFlatL2) (embs : list vec) : IndexFlatL2 :=
  index ++ embs.

(** Every stored vector with its distance to the query. *)
Definition scored (index : IndexFlatL2) (q : vec) : list (Q * Z) :=
  imap (fun i v => (sqdist q v, Z.of_nat i)) index.

(** [index.search(q, k)], as the list [zip(dists[0], idxs[0])]. The
    library takes [1 <= k]; the only call site passes [k <= ntotal], so
    no result is padded with position [-1]. *)
Definition search (index : IndexFlatL2) (q : vec) (k : Z) : list (Q * Z) :=
  firstn (Z.to_nat k) (DistSort.sort (scored index q)).

End Faiss.

(** ** [app/services/vector_store.py] *)

Module VectorStore.

(** The value stored per vector:
    [{"doc_id", "doc_name", "chunk_index", "text", "deleted"}]. *)
Record Meta : Type := mkMeta {
  doc_id : string;
  doc_name : string;
  chunk_index : Z;
  text : string;
  deleted : bool
}.

(** A search result: [{**m, "score": float(dist)}]. *)
Record Hit : Type := mkHit {
  hit_meta : Meta;
  score : Q
}.

(** The attributes of a [VectorStore] instance. *)
Record t : Type := mkStore {
  _index : Faiss.IndexFlatL2;
  _meta : list (option Meta);
  _doc_map : gmap string (list nat);
  _del_count : Z
}.

(** The two files of the store directory. *)
Inductive artifact (A : Type) : Type :=
| Missing
| Corrupt
| Valid (content : A).
Arguments Missing {A}.
Arguments Corrupt {A}.
Arguments Valid {A} content.

Record Disk : Type := mkDisk {
  INDEX_FILE : artifact Faiss.IndexFlatL2;
  META_FILE : artifact (list (option Meta) * gmap string (list nat) * Z)
}.

(** The state set up by [__init__] before it calls [_load]. *)
Definition fresh : t :=
  {| _index := []; _meta := []; _doc_map := ∅; _del_count := 0 |}.

Definition exists_ {A} (f : artifact A) : bool :=
  match f with Missing => false | _ => true end.

(** [_load]: both reads sit in one [try]; the index is assigned as soon as
    it is read, the triple is assigned when unpickling succeeded. *)
Definition _load (disk : Disk) (self : t) : t :=
  if exists_ (INDEX_FILE disk) && exists_ (META_FILE disk) then
    match INDEX_FILE disk with
    | Valid index =>
        let self := {| _index := index; _meta := _meta self;
                       _doc_map := _doc_map self;
                       _del_count := _del_count self |} in
        match META_FILE disk with
        | Valid (meta, doc_map, del_count) =>
            {| _index := _index self; _meta := meta;
               _doc_map := doc_map; _del_count := del_count |}
        | _ => self
        end
    | _ => self
    end
  else self.

(** [VectorStore(store_dir, model_name)] *)
Definition __init__ (disk : Disk) : t := _load disk fresh.

(** [_save]: what the two files hold after it. Every mutating method ends
    with it. *)
Definition _save (self : t) : Disk :=
  {| INDEX_FILE := Valid (_index self);
     META_FILE := Valid (_meta self, _doc_map self, _del_count self) |}.

Definition has_documents (self : t) : bool :=
  negb (bool_decide (_doc_map self = ∅)).

Definition total_vectors (self : t) : Z := Faiss.ntotal (_index self).

Definition active_vectors (self : t) : Z :=
  Faiss.ntotal (_index self) - _del_count self.

(** [m and not m.get("deleted")]: a slot holds a record and the record is
    not marked deleted. *)
Definition alive (entry : option Meta) : bool :=
  match entry with
  | Some m => negb (deleted m)
  | None => false
  end.

Definition mark_deleted (m : Meta) : Meta :=
  {| doc_id := doc_id m; doc_name := doc_name m;
     chunk_index := chunk_index m; text := text m; deleted := true |}.

(** One turn of the loop of [delete_doc]:
    [if pos < len(self._meta) and self._meta[pos]: ...]. *)
Definition delete_pos (acc : list (option Meta) * Z) (pos : nat)
  : list (option Meta) * Z :=
  let (meta, del_count) := acc in
  match meta !! pos with
  | Some (Some m) => (<[pos := Some (mark_deleted m)]> meta, del_count + 1)
  | _ => (meta, del_count)
  end.

Definition delete_doc (self : t) (doc_id : string) : t :=
  let positions := default [] (_doc_map self !! doc_id) in
  let doc_map := delete doc_id (_doc_map self) in
  let (meta, del_count) :=
    foldl delete_pos (_meta self, _del_count self) positions in
  {| _index := _index self; _meta := meta;
     _doc_map := doc_map; _del_count := del_count |}.

(** The search loop over [zip(dists[0], idxs[0])]. *)
Fixpoint search_loop (meta : list (option Meta)) (k : Z)
    (pairs : list (Q * Z)) (results : list Hit) : list Hit :=
  match pairs with
  | [] => results
  | (dist, idx) :: rest =>
      if (idx <? 0) || (Z.of_nat (length meta) <=? idx)
      then search_loop meta k rest results
      else
        match meta !! Z.to_nat idx with
        | Some (Some m) =>
            if deleted m then search_loop meta k rest results
            else
              let results := results ++ [mkHit m dist] in
              if Z.of_nat (length results) >=? k then results
              else search_loop meta k rest results
        | _ => search_loop meta k rest results
        end
  end.

Section WithEncoder.

(** [self._model.encode([s], normalize_embeddings=True)[0]] *)
Variable encode : string -> Faiss.vec.

(** The loop that writes the records of the new chunks. *)
Fixpoint fill_meta (doc_id doc_name : string) (i : Z)
    (items : list (string * nat)) (meta : list (option Meta))
  : list (option Meta) :=
  match items with
  | [] => meta
  | (chunk, pos) :: rest =>
      fill_meta doc_id doc_name (i + 1) rest
        (<[pos := Some {| doc_id := doc_id; doc_name := doc_name;
                          chunk_index := i; text := chunk;
                          deleted := false |}]> meta)
  end.

(** [add_chunks]: the new state and the returned count. *)
Definition add_chunks (self : t) (doc_id doc_name : string)
    (chunks : list string) : t * Z :=
  match chunks with
  | [] => (self, 0)
  | _ =>
      let embs := map encode chunks in
      let start := length (_index self) in
      let index := Faiss.add (_index self) embs in
      let positions := seq start (length chunks) in
      let doc_map := <[doc_id := positions]> (_doc_map self) in
      let meta :=
        _meta self
        ++ replicate (start + length chunks - length (_meta self))%nat None in
      let meta := fill_meta doc_id doc_name 0 (combine chunks positions) meta in
      ({| _index := index; _meta := meta;
          _doc_map := doc_map; _del_count := _del_count self |},
       Z.of_nat (length chunks))
  end.

(** [self._doc_map.setdefault(m["doc_id"], []).append(pos)] *)
Definition setdefault_append (doc_map : gmap string (list nat))
    (pm : nat * Meta) : gmap string (list nat) :=
  <[doc_id (snd pm) := default [] (doc_map !! doc_id (snd pm)) ++ [fst pm]]>
    doc_map.

Definition enumerate {A} (l : list A) : list (nat * A) :=
  imap (fun i x => (i, x)) l.

(** [alive = [m for m in self._meta if m and not m.get("deleted")]] *)
Definition alive_records (meta : list (option Meta)) : list Meta :=
  omap (fun entry =>
          match entry with
          | Some m => if deleted m then None else Some m
          | None => None
          end) meta.

(** [rebuild_index]: the new state and the returned size. *)
Definition rebuild_index (self : t) : t * Z :=
  match alive_records (_meta self) with
  | [] => (fresh, 0)
  | alive =>
      let texts := map text alive in
      let embs := map encode texts in
      let index := Faiss.add [] embs in
      let doc_map := foldl setdefault_append ∅ (enumerate alive) in
      ({| _index := index; _meta := map Some alive;
          _doc_map := doc_map; _del_count := 0 |},
       Faiss.ntotal index)
  end.

(** [search]. The library call takes [1 <= k] and raises for another [k]
    on an index that holds vectors; the model has no such error: it
    follows the code for [0 < k] and on an index without vectors. *)
Definition search (self : t) (query : string) (k : Z) : list Hit :=
  if Faiss.ntotal (_index self) =? 0 then []
  else
    let q := encode query in
    let fetch_k := Z.min (k * 4) (Faiss.ntotal (_index self)) in
    search_loop (_meta self) k (Faiss.search (_index self) q fetch_k) [].

End WithEncoder.

End VectorStore.

(** ** [app/services/rag_pipeline.py] *)

Module RagPipeline.

Import VectorStore.

(** The fields of [Settings] that the pipeline reads. *)
Record Settings : Type := mkSettings {
  groq_temperature : Q;
  top_k_chunks : Z;
  max_rewrite_attempts : Z
}.

Definition default_settings : Settings :=
  {| groq_temperature := 1 # 10; top_k_chunks := 5;
     max_rewrite_attempts := 2 |}.

Record RAGState : Type := mkState {
  query : string;
  rewritten_query : string;
  retrieved_chunks : list Hit;
  relevant_chunks : list Hit;
  answer : string;
  sources : list string;
  rewrite_count : Z;
  needs_rewrite : bool
}.

Inductive Message : Type :=
| SystemMessage (content : string)
| HumanMessage (content : string).

(** What [llm.invoke] does: it returns a response or raises. *)
Inductive Completion : Type :=
| Content (content : string)
| Raises (error : string).

Inductive result (A : Type) : Type :=
| Ok (value : A)
| Raise (error : string).
Arguments Ok {A} value.
Arguments Raise {A} error.

Inductive Node : Type :=
| retrieve
| grade_chunks
| rewrite_query
| generate
| END.

(** A run of the graph: the state, how often the chat model has been
    invoked, and the nodes executed so far. *)
Record Exec : Type := mkExec {
  state : RAGState;
  llm_calls : nat;
  trace : list Node
}.

(** What [run_rag] returns (without [latency_ms]). *)
Record Answer : Type := mkAnswer {
  out_answer : string;
  out_sources : list string;
  out_rewritten_query : string;
  out_chunk_count : Z
}.

(** [a or b] on lists: the empty list is falsy. *)
Definition or_list {A} (a b : list A) : list A :=
  match a with [] => b | _ => a end.

(** [l[i]]; [None] stands for [IndexError]. *)
Definition getitem {A} (l : list A) (i : Z) : option A :=
  if 0 <=? i then l !! Z.to_nat i
  else if - Z.of_nat (length l) <=? i then l !! Z.to_nat (Z.of_nat (length l) + i)
  else None.

(** [[int(x.strip()) for x in raw.split(",") if x.strip().isdigit()]] *)
Definition parse_indices (raw : string) : option (list Z) :=
  mapM (fun x => PyStr.int (PyStr.strip x))
    (List.filter (fun x => PyStr.isdigit (PyStr.strip x))
       (PyStr.split_comma raw)).

(** [[chunks[i] for i in idxs if i < len(chunks)]] *)
Definition select_chunks (chunks : list Hit) (idxs : list Z)
  : option (list Hit) :=
  mapM (getitem chunks)
    (List.filter (fun i => i <? Z.of_nat (length chunks)) idxs).

(** The body of the [try] of [node_grade]; [None] is an exception. *)
Definition grade_try (resp : Completion) (chunks : list Hit)
  : option (list Hit) :=
  match resp with
  | Raises _ => None
  | Content content =>
      let raw := PyStr.lower (PyStr.strip content) in
      if String.eqb raw "none" then Some []
      else
        match parse_indices raw with
        | Some idxs => select_chunks chunks idxs
        | None => None
        end
  end.

Definition grade_prompt (query : string) (chunks : list Hit) : string :=
  let chunks_text :=
    PyStr.join (PyStr.nl +:+ "---" +:+ PyStr.nl)
      (imap (fun i c =>
               "[" +:+ PyStr.of_Z (Z.of_nat i) +:+ "] "
               +:+ PyStr.take 350 (text (hit_meta c))) chunks) in
  "You are a relevance grader. Given this question and document chunks, "
  +:+ "output ONLY a comma-separated list of relevant chunk indices (0-based), or 'none'."
  +:+ PyStr.nl +:+ PyStr.nl
  +:+ "Question: " +:+ query +:+ PyStr.nl +:+ PyStr.nl
  +:+ "Chunks:" +:+ PyStr.nl +:+ chunks_text +:+ PyStr.nl +:+ PyStr.nl
  +:+ "Relevant indices:".

Definition rewrite_prompt (original : string) : string :=
  "Rewrite this question to better match document terminology and improve retrieval. "
  +:+ "Output ONLY the rewritten question." +:+ PyStr.nl +:+ PyStr.nl
  +:+ "Original: " +:+ original +:+ PyStr.nl +:+ "Rewritten:".

Definition source_tag (c : Hit) : string :=
  "[Source: " +:+ doc_name (hit_meta c) +:+ ", chunk #"
  +:+ PyStr.of_Z (chunk_index (hit_meta c) + 1) +:+ "]" +:+ PyStr.nl
  +:+ text (hit_meta c).

Definition generate_system : string :=
  "You are a helpful document Q&A assistant. "
  +:+ "Answer the question using ONLY the provided document context. "
  +:+ "Be concise and accurate. Cite the document name when referencing information. "
  +:+ "If the answer isn't in the context, say so clearly.".

Definition generate_human (query : string) (chunks : list Hit) : string :=
  let context :=
    PyStr.join (PyStr.nl +:+ PyStr.nl +:+ "---" +:+ PyStr.nl +:+ PyStr.nl)
      (map source_tag chunks) in
  "Context:" +:+ PyStr.nl +:+ context +:+ PyStr.nl +:+ PyStr.nl
  +:+ "Question: " +:+ query +:+ PyStr.nl +:+ PyStr.nl +:+ "Answer:".

Definition source_label (c : Hit) : string :=
  doc_name (hit_meta c) +:+ " (chunk #"
  +:+ PyStr.of_Z (chunk_index (hit_meta c) + 1) +:+ ")".

Definition not_found_answer : string :=
  "I couldn't find relevant information in your documents to answer this question. "
  +:+ "Try rephrasing, or upload documents that contain this information.".

(** The chunks [node_generate] answers from. *)
Definition generate_chunks (s : RAGState) : list Hit :=
  or_list (relevant_chunks s) (or_list (retrieved_chunks s) []).

Section WithPorts.

Variable encode : string -> Faiss.vec.

(** The chat model. [llm n temperature messages] is what the
    invocation number [n] of a run, made on a client of that
    temperature, does with these messages. *)
Variable llm : nat -> Q -> list Message -> Completion.

Variable vector_store : VectorStore.t.
Variable settings : Settings.

Definition node_retrieve (s : RAGState) (top_k : Z) : RAGState :=
  let query := PyStr.or_else (rewritten_query s) (query s) in
  let chunks := VectorStore.search encode vector_store query top_k in
  {| query := RagPipeline.query s; rewritten_query := rewritten_query s;
     retrieved_chunks := chunks; relevant_chunks := relevant_chunks s;
     answer := answer s; sources := sources s;
     rewrite_count := rewrite_count s; needs_rewrite := needs_rewrite s |}.

(** [node_grade] at invocation count [n]: the new state and count. *)
Definition node_grade (s : RAGState) (n : nat) : RAGState * nat :=
  let query := PyStr.or_else (rewritten_query s) (query s) in
  let chunks := retrieved_chunks s in
  let max_rewrites := max_rewrite_attempts settings in
  let out relevant needs :=
    {| query := RagPipeline.query s; rewritten_query := rewritten_query s;
       retrieved_chunks := retrieved_chunks s; relevant_chunks := relevant;
       answer := answer s; sources := sources s;
       rewrite_count := rewrite_count s; needs_rewrite := needs |} in
  match chunks with
  | [] => (out [] (rewrite_count s <? max_rewrites), n)
  | _ =>
      let resp := llm n 0%Q [HumanMessage (grade_prompt query chunks)] in
      let relevant := default chunks (grade_try resp chunks) in
      let needs :=
        (Z.of_nat (length relevant) =? 0)
        && (rewrite_count s <? max_rewrites) in
      (out relevant needs, S n)
  end.

Definition node_rewrite (s : RAGState) (n : nat) : RAGState * nat :=
  let original := query s in
  let rewritten :=
    match llm n (3 # 10)%Q [HumanMessage (rewrite_prompt original)] with
    | Content content => PyStr.strip content
    | Raises _ => original
    end in
  ({| query := query s; rewritten_query := rewritten;
      retrieved_chunks := retrieved_chunks s;
      relevant_chunks := relevant_chunks s;
      answer := answer s; sources := sources s;
      rewrite_count := rewrite_count s + 1; needs_rewrite := false |},
   S n).

(** [sources] is built from a set, whose order is not specified; the
    model keeps first occurrences. *)
Definition node_generate (s : RAGState) (n : nat)
  : result RAGState * nat :=
  let query := PyStr.or_else (rewritten_query s) (query s) in
  let chunks := generate_chunks s in
  let out answer sources :=
    {| query := RagPipeline.query s; rewritten_query := rewritten_query s;
       retrieved_chunks := retrieved_chunks s;
       relevant_chunks := relevant_chunks s;
       answer := answer; sources := sources;
       rewrite_count := rewrite_count s;
       needs_rewrite := needs_rewrite s |} in
  match chunks with
  | [] => (Ok (out not_found_answer []), n)
  | _ =>
      match llm n (groq_temperature settings)
              [SystemMessage generate_system;
               HumanMessage (generate_human query chunks)] with
      | Content content =>
          (Ok (out (PyStr.strip content)
                 (remove_dups (map source_label chunks))), S n)
      | Raises e => (Raise ("LLM generation failed: " +:+ e), S n)
      end
  end.

Definition _route (s : RAGState) : Node :=
  if needs_rewrite s then rewrite_query else generate.

(** The edges of the graph. *)
Definition next_node (n : Node) (s : RAGState) : Node :=
  match n with
  | retrieve => grade_chunks
  | grade_chunks => _route s
  | rewrite_query => retrieve
  | generate => END
  | END => END
  end.

(** One node of the graph; [Some e] when the node raises. *)
Definition run_node (n : Node) (x : Exec) : Exec * option string :=
  let tr := trace x ++ [n] in
  match n with
  | retrieve =>
      ({| state := node_retrieve (state x) (top_k_chunks settings);
          llm_calls := llm_calls x; trace := tr |}, None)
  | grade_chunks =>
      let (s, c) := node_grade (state x) (llm_calls x) in
      ({| state := s; llm_calls := c; trace := tr |}, None)
  | rewrite_query =>
      let (s, c) := node_rewrite (state x) (llm_calls x) in
      ({| state := s; llm_calls := c; trace := tr |}, None)
  | generate =>
      match node_generate (state x) (llm_calls x) with
      | (Ok s, c) => ({| state := s; llm_calls := c; trace := tr |}, None)
      | (Raise e, c) =>
          ({| state := state x; llm_calls := c; trace := tr |}, Some e)
      end
  | END => (x, None)
  end.

(** [k] nodes of the graph from node [n]; [None] when a node raises or
    the graph ends earlier. *)
Fixpoint steps (k : nat) (n : Node) (x : Exec) : option (Node * Exec) :=
  match k with
  | O => Some (n, x)
  | S k' =>
      match n with
      | END => None
      | _ =>
          match run_node n x with
          | (x', None) => steps k' (next_node n (state x')) x'
          | (_, Some _) => None
          end
      end
  end.

(** The graph run to its end with a bound on the nodes it executes;
    [None] when the bound is reached first. The bound is a parameter: the
    source passes no limit of its own to the graph library. *)
Fixpoint invoke_from (fuel : nat) (n : Node) (x : Exec)
  : option (Exec * option string) :=
  match n with
  | END => Some (x, None)
  | _ =>
      match fuel with
      | O => None
      | S fuel' =>
          match run_node n x with
          | (x', None) => invoke_from fuel' (next_node n (state x')) x'
          | (x', Some e) => Some (x', Some e)
          end
      end
  end.

Definition initial (query : string) : RAGState :=
  {| query := query; rewritten_query := ""; retrieved_chunks := [];
     relevant_chunks := []; answer := ""; sources := [];
     rewrite_count := 0; needs_rewrite := false |}.

Definition start (query : string) : Exec :=
  {| state := initial query; llm_calls := 0; trace := [] |}.

(** [graph.invoke(initial)] *)
Definition graph_invoke (fuel : nat) (query : string)
  : option (Exec * option string) :=
  invoke_from fuel retrieve (start query).

(** [run_rag]: the run and what the caller receives. *)
Definition run_rag (fuel : nat) (query : string)
  : option (Exec * result Answer) :=
  match graph_invoke fuel query with
  | None => None
  | Some (x, Some e) => Some (x, Raise e)
  | Some (x, None) =>
      let r := state x in
      Some (x, Ok {| out_answer := answer r;
                     out_sources := sources r;
                     out_rewritten_query := rewritten_query r;
                     out_chunk_count :=
                       Z.of_nat (length (or_list (relevant_chunks r)
                                           (retrieved_chunks r))) |})
  end.

End WithPorts.

End RagPipeline.

(** ** [app/services/document_loader.py] *)

Module DocumentLoader.

(** [s + c] for one character. *)
Definition snoc (s : string) (c : ascii) : string :=
  s +:+ String c EmptyString.

(** [s.split()]: the maximal runs of characters that are not whitespace;
    [word] is the run being read. *)
Fixpoint split_from (word : string) (s : string) : list string :=
  match s with
  | EmptyString => match word with EmptyString => [] | _ => [word] end
  | String c s' =>
      if PyStr.isspace c
      then match word with
           | EmptyString => split_from EmptyString s'
           | _ => word :: split_from EmptyString s'
           end
      else split_from (snoc word c) s'
  end.

Definition split (s : string) : list string := split_from EmptyString s.

Definition is_terminator (c : ascii) : bool :=
  Ascii.eqb c "."%char || Ascii.eqb c "!"%char || Ascii.eqb c "?"%char.

(** Where the scan of [re.split] stands: inside a piece, the last character
    being a terminator or not, or inside a separator. *)
Inductive scan : Type :=
| Piece (after_terminator : bool)
| Separator.

(** [re.split(r"(?<=[.!?])\s+", text)]: a separator is a maximal run of
    whitespace that follows one of [.!?]. *)
Fixpoint re_split_from (piece : string) (at_ : scan) (s : string)
  : list string :=
  match s with
  | EmptyString => [piece]
  | String c s' =>
      match at_ with
      | Piece true =>
          if PyStr.isspace c then piece :: re_split_from EmptyString Separator s'
          else re_split_from (snoc piece c) (Piece (is_terminator c)) s'
      | Piece false =>
          re_split_from (snoc piece c) (Piece (is_terminator c)) s'
      | Separator =>
          if PyStr.isspace c then re_split_from piece Separator s'
          else re_split_from (snoc piece c) (Piece (is_terminator c)) s'
      end
  end.

Definition re_split (text : string) : list string :=
  re_split_from EmptyString (Piece false) text.

Definition nonempty (s : string) : bool :=
  match s with EmptyString => false | _ => true end.

(** [[s.strip() for s in sentences if s.strip()]] *)
Definition sentences (text : string) : list string :=
  map PyStr.strip (List.filter (fun s => nonempty (PyStr.strip s)) (re_split text)).

(** [l[-n:]]: the last [n] items for a positive [n]; [l[0:]], all of [l],
    for [n = 0]; [l[k:]] for [n = -k < 0]. *)
Definition last_items {A} (n : Z) (l : list A) : list A :=
  if 0 <? n then drop (length l - Z.to_nat n) l
  else drop (Z.to_nat (- n)) l.

Definition is_nil {A} (l : list A) : bool :=
  match l with [] => true | _ => false end.

(** The state of the loop: [chunks], [current], [current_len]. *)
Definition chunker : Type := list string * list string * Z.

(** One turn of the loop over the sentences. *)
Definition chunk_step (chunk_size overlap : Z) (st : chunker)
    (sentence : string) : chunker :=
  let '(chunks, current, current_len) := st in
  let words := split sentence in
  if (current_len + Z.of_nat (length words) >? chunk_size)
     && negb (is_nil current)
  then
    let current' := last_items overlap current ++ words in
    (chunks ++ [PyStr.join " " current], current', Z.of_nat (length current'))
  else (chunks, current ++ words, current_len + Z.of_nat (length words)).

(** The chunks before the final filter. *)
Definition raw_chunks (text : string) (chunk_size overlap : Z) : list string :=
  let '(chunks, current, _) :=
    foldl (chunk_step chunk_size overlap) ([], [], 0) (sentences text) in
  if is_nil current then chunks else chunks ++ [PyStr.join " " current].

(** [chunk_text(text, chunk_size, overlap)] *)
Definition chunk_text (text : string) (chunk_size overlap : Z) : list string :=
  if negb (nonempty text) || negb (nonempty (PyStr.strip text)) then []
  else
    List.filter (fun c => Z.of_nat (length (split c)) >=? 5)
      (raw_chunks text chunk_size overlap).

End DocumentLoader.


(** ** [app/services/background_tasks.py] *)

Module BackgroundTasks.

Import VectorStore DocumentLoader.

(** What [update_doc_status] writes for the document. *)
Record DocStatus : Type := mkDocStatus {
  status : string;
  chunk_count : Z
}.

Section WithEncoder.

Variable encode : string -> Faiss.vec.

(** [process_document]: the store and the status written. [loaded] is
    what [load_document] did with the file: it returned the text or
    raised. The encoder, the status update and the log line are taken not
    to raise. *)
Definition process_document (loaded : RagPipeline.result string)
    (doc_id filename : string) (vector_store : VectorStore.t)
    (chunk_size chunk_overlap : Z) : VectorStore.t * DocStatus :=
  let failed := (vector_store, {| status := "error"; chunk_count := 0 |}) in
  match loaded with
  | RagPipeline.Raise _ => failed
  | RagPipeline.Ok text =>
      if negb (nonempty text)
         || (Z.of_nat (String.length (PyStr.strip text)) <? 10)
      then failed
      else
        let chunks := chunk_text text chunk_size chunk_overlap in
        if is_nil chunks then failed
        else
          let (store, n) :=
            add_chunks encode vector_store doc_id filename chunks in
          (store, {| status := "indexed"; chunk_count := n |})
  end.

End WithEncoder.

End BackgroundTasks.

(** ** Notions the specification speaks of *)

Module Spec.

Import VectorStore.

(** Document [d] owns position [p] in the document-to-positions mapping. *)
Definition owns (self : t) (d : string) (p : nat) : Prop :=
  exists ps, _doc_map self !! d = Some ps /\ p ∈ ps.

(** Position [p] holds a record that is not marked deleted. *)
Definition live (self : t) (p : nat) : Prop :=
  exists m, _meta self !! p = Some (Some m) /\ deleted m = false.

(** The union of the documents' position sets is the set of non-deleted
    positions, and a position belongs to at most one document. *)
Definition ownership_invariant (self : t) : Prop :=
  (forall p, (exists d, owns self d p) <-> live self p)
  /\ (forall p d1 d2, owns self d1 p -> owns self d2 p -> d1 = d2).

(** The mutating operations of the index. *)
Inductive op : Type :=
| Insert (doc_id doc_name : string) (chunks : list string)
| Delete (doc_id : string)
| Compact.

Definition apply (encode : string -> Faiss.vec) (self : t) (o : op) : t :=
  match o with
  | Insert d n chunks => fst (add_chunks encode self d n chunks)
  | Delete d => delete_doc self d
  | Compact => fst (rebuild_index encode self)
  end.

(** The state reached from the empty index by a sequence of operations. *)
Definition run (encode : string -> Faiss.vec) (ops : list op) : t :=
  foldl (apply encode) fresh ops.

(** The positions the mapping gives to a document. *)
Definition positions_of (self : t) (d : string) : list nat :=
  default [] (_doc_map self !! d).

(** The mapping and the records agree. *)
Definition consistent (self : t) : Prop :=
  length (_meta self) = length (_index self)
  /\ (forall d p, p ∈ positions_of self d ->
        exists m, _meta self !! p = Some (Some m)
                  /\ deleted m = false /\ doc_id m = d)
  /\ (forall p m, _meta self !! p = Some (Some m) -> deleted m = false ->
        p ∈ positions_of self (doc_id m)).

(** The states reached when no document is inserted under an id that
    still owns positions: callers delete a document before they add it
    again. *)
Inductive disciplined (encode : string -> Faiss.vec) : t -> Prop :=
| disciplined_fresh : disciplined encode fresh
| disciplined_insert self d n chunks :
    disciplined encode self ->
    _doc_map self !! d = None ->
    disciplined encode (fst (add_chunks encode self d n chunks))
| disciplined_delete self d :
    disciplined encode self ->
    disciplined encode (delete_doc self d)
| disciplined_compact self :
    disciplined encode self ->
    disciplined encode (fst (rebuild_index encode self)).

(** The index after a document was inserted twice under one id. *)
Definition twice (encode : string -> Faiss.vec) : t :=
  run encode [Insert "d" "report" ["a"]; Insert "d" "report" ["b"]].

(** The positions of stored vectors whose record is not deleted. *)
Definition live_positions (self : t) : list nat :=
  List.filter (fun p => alive (mjoin (_meta self !! p)))
    (seq 0 (length (_index self))).

(** What the filter of [search] keeps of one neighbour: nothing for a
    position without a record or with a deleted one. *)
Definition hit_of (meta : list (option Meta)) (pair : Q * Z) : option Hit :=
  let (dist, idx) := pair in
  if (idx <? 0) || (Z.of_nat (length meta) <=? idx) then None
  else
    match meta !! Z.to_nat idx with
    | Some (Some m) => if deleted m then None else Some (mkHit m dist)
    | _ => None
    end.

Definition surviving (meta : list (option Meta)) (pairs : list (Q * Z))
  : list Hit :=
  omap (hit_of meta) pairs.

(** Ascending distance. *)
Definition nearer (a b : Q * Z) : Prop := (fst a <= fst b)%Q.

Import RagPipeline.

Definition Node_eqb (a b : Node) : bool :=
  match a, b with
  | retrieve, retrieve | grade_chunks, grade_chunks
  | rewrite_query, rewrite_query | generate, generate | END, END => true
  | _, _ => false
  end.

(** How often a node occurs in a trace. *)
Definition count_node (n : Node) (tr : list Node) : nat :=
  length (List.filter (Node_eqb n) tr).

(** Retrieval passes and rewrite cycles of a run. *)
Definition passes (x : Exec) : nat := count_node retrieve (trace x).
Definition rewrites (x : Exec) : nat := count_node rewrite_query (trace x).

(** The chat model answers every grading prompt with "none". *)
Definition always_none (llm : nat -> Q -> list Message -> Completion) : Prop :=
  forall n temperature query chunks,
  exists content,
    llm n temperature [HumanMessage (grade_prompt query chunks)] = Content content
    /\ PyStr.lower (PyStr.strip content) = "none".

(** The tokens of a grading response that pass the digit test. *)
Definition digit_tokens (raw : string) : list string :=
  List.filter PyStr.isdigit (map PyStr.strip (PyStr.split_comma raw)).

(** A well-formed answer: every comma-separated token is the decimal
    index of one of the [len] candidates. *)
Definition well_formed_indices (raw : string) (len : nat) : bool :=
  forallb (fun token =>
             match PyStr.int (PyStr.strip token) with
             | Some i => i <? Z.of_nat len
             | None => false
             end) (PyStr.split_comma raw).

(** A malformed response: neither "none" nor a well-formed index list. *)
Definition malformed (content : string) (len : nat) : bool :=
  let raw := PyStr.lower (PyStr.strip content) in
  negb (String.eqb raw "none") && negb (well_formed_indices raw len).

(** Inputs for the examples. *)
Definition unit_encoder (s : string) : Faiss.vec := [1%Q; 0%Q].

Definition one_document : VectorStore.t :=
  run unit_encoder [Insert "d" "report" ["alpha"]].

Definition says (content : string) (n : nat) (temperature : Q)
    (messages : list Message) : Completion :=
  Content content.

Definition unreachable (n : nat) (temperature : Q)
    (messages : list Message) : Completion :=
  Raises "connection refused".

Definition with_retrieved (s : RAGState) (chunks : list Hit) : RAGState :=
  {| query := query s; rewritten_query := rewritten_query s;
     retrieved_chunks := chunks; relevant_chunks := relevant_chunks s;
     answer := answer s; sources := sources s;
     rewrite_count := rewrite_count s; needs_rewrite := needs_rewrite s |}.

Definition alpha_hit : Hit :=
  mkHit (mkMeta "d" "report" 0 "alpha" false) 0%Q.

End Spec.

(** ** Further notions *)

Module Notions.
Import VectorStore.

(** A slot holds a record that is marked deleted. *)
Definition is_deleted (entry : option Meta) : bool :=
  match entry with
  | Some m => deleted m
  | None => false
  end.

(** The number of records marked deleted, and of those that are not. *)
Definition deleted_records (self : t) : nat :=
  length (List.filter is_deleted (_meta self)).

Definition live_records (self : t) : nat :=
  length (List.filter alive (_meta self)).

(** What every state reached from the empty index satisfies. *)
Definition sound (self : t) : Prop :=
  length (_meta self) = length (_index self)
  /\ Forall (fun entry => entry <> None) (_meta self)
  /\ (forall d p, p ∈ Spec.positions_of self d ->
        exists m, _meta self !! p = Some (Some m)
                  /\ deleted m = false /\ doc_id m = d)
  /\ (forall d, NoDup (Spec.positions_of self d))
  /\ _del_count self = Z.of_nat (deleted_records self).

(** Row [p] of the index is the embedding of the text of record [p]. *)
Definition aligned (encode : string -> Faiss.vec) (self : t) : Prop :=
  forall p m, _meta self !! p = Some (Some m) ->
              (_index self : list Faiss.vec) !! p = Some (encode (text m)).

(** Ascending score. *)
Definition better (a b : Hit) : Prop := (score a <= score b)%Q.

(** The nodes of a run with [r] rewrites. *)
Definition loop_trace (r : nat) : list RagPipeline.Node :=
  concat (replicate r [RagPipeline.retrieve; RagPipeline.grade_chunks;
                       RagPipeline.rewrite_query])
  ++ [RagPipeline.retrieve; RagPipeline.grade_chunks; RagPipeline.generate].

(** What [run_rag] hands to its caller at the end of run [x]. *)
Definition answer_of (x : RagPipeline.Exec) : RagPipeline.Answer :=
  let r := RagPipeline.state x in
  {| RagPipeline.out_answer := RagPipeline.answer r;
     RagPipeline.out_sources := RagPipeline.sources r;
     RagPipeline.out_rewritten_query := RagPipeline.rewritten_query r;
     RagPipeline.out_chunk_count :=
       Z.of_nat (length (RagPipeline.or_list (RagPipeline.relevant_chunks r)
                           (RagPipeline.retrieved_chunks r))) |}.
Import DocumentLoader.

(** A word: at least one character, none of them whitespace. *)
Definition is_word (w : string) : Prop :=
  w <> EmptyString
  /\ PyStr.all_chars (fun c => negb (PyStr.isspace c)) w = true.

(** The words of the sentences of a text, in order. *)
Definition all_words (text : string) : list string :=
  concat (map split (sentences text)).

(** [ws] is a run of consecutive items of [l]. *)
Definition run_of {A} (ws l : list A) : Prop :=
  exists before after, l = before ++ ws ++ after.

(** The loop of [chunk_text] on lists of words: the windows flushed and
    the current window. *)
Definition window_step {A} (chunk_size overlap : Z)
    (st : list (list A) * list A) (words : list A)
  : list (list A) * list A :=
  let '(out, current) := st in
  if (Z.of_nat (length current) + Z.of_nat (length words) >? chunk_size)
     && negb (is_nil current)
  then (out ++ [current], last_items overlap current ++ words)
  else (out, current ++ words).

Definition close_window {A} (st : list (list A) * list A) : list (list A) :=
  if is_nil (snd st) then fst st else fst st ++ [snd st].

Definition windows {A} (chunk_size overlap : Z) (sents : list (list A))
  : list (list A) :=
  close_window (foldl (window_step chunk_size overlap) ([], []) sents).

Definition long_enough {A} (ws : list A) : bool :=
  Z.of_nat (length ws) >=? 5.

End Notions.

(** * Properties of the vector store *)

Section FaissFacts.

Import Faiss.

Lemma leb_nearer (a b : Q * Z) : is_true (DistOrder.leb a b) <-> Spec.nearer a b.
Proof. unfold DistOrder.leb, Spec.nearer, is_true. apply Qle_bool_iff. Qed.

Lemma sort_permutation (l : list (Q * Z)) : Permutation (DistSort.sort l) l.
Proof. symmetry. apply DistSort.Permuted_sort. Qed.

Lemma sort_ascending (l : list (Q * Z)) :
  StronglySorted Spec.nearer (DistSort.sort l).
Proof.
  assert (Hs : StronglySorted (fun a b => is_true (DistOrder.leb a b))
                 (DistSort.sort l)).
  { apply DistSort.StronglySorted_sort.
    intros a b c Hab Hbc. apply leb_nearer.
    apply leb_nearer in Hab. apply leb_nearer in Hbc.
    unfold Spec.nearer in *. eapply Qle_trans; eassumption. }
  induction Hs as [| a l' Hs IH Hall]; constructor; [exact IH |].
  eapply Forall_impl; [exact Hall |].
  intros b Hb. apply leb_nearer. exact Hb.
Qed.

(** The neighbours returned are the head of the ascending arrangement of
    all stored vectors. *)
Lemma search_nearest (index : IndexFlatL2) (q : vec) (k : Z) :
  exists farther,
    Permutation (search index q k ++ farther) (scored index q)
    /\ StronglySorted Spec.nearer (search index q k ++ farther).
Proof.
  exists (skipn (Z.to_nat k) (DistSort.sort (scored index q))).
  unfold search. rewrite firstn_skipn. split.
  - apply sort_permutation.
  - apply sort_ascending.
Qed.

Lemma search_length (index : IndexFlatL2) (q : vec) (k : Z) :
  0 <= k <= ntotal index ->
  length (search index q k) = Z.to_nat k.
Proof.
  intros Hk. unfold search, ntotal in *.
  rewrite length_take.
  rewrite <- (Permutation_length (DistSort.Permuted_sort _)).
  unfold scored. rewrite length_imap. lia.
Qed.

Lemma search_positions (index : IndexFlatL2) (q : vec) (k : Z) (pair : Q * Z) :
  pair ∈ search index q k ->
  exists (p : nat) (v : vec),
    index !! p = Some v /\ pair = (sqdist q v, Z.of_nat p).
Proof.
  intros Hin. unfold search in Hin.
  apply elem_of_take in Hin as (i & Hi & _).
  apply list_elem_of_lookup_2 in Hi.
  rewrite (sort_permutation (scored index q)) in Hi.
  unfold scored in Hi. apply elem_of_lookup_imap in Hi as (p & v & -> & Hp).
  eauto.
Qed.

End FaissFacts.

Section SearchFacts.

Import VectorStore.

Variable encode : string -> Faiss.vec.

(** The loop of [search] keeps the surviving neighbours in order and
    stops at [k] results. *)
Lemma search_loop_take (meta : list (option Meta)) (k : Z)
    (pairs : list (Q * Z)) (results : list Hit) :
  Z.of_nat (length results) < k ->
  search_loop meta k pairs results
  = firstn (Z.to_nat k) (results ++ Spec.surviving meta pairs).
Proof.
  revert results. induction pairs as [| [dist idx] rest IH]; intros results Hlen.
  - cbn. rewrite app_nil_r. rewrite firstn_all2; [reflexivity | lia].
  - cbn [search_loop Spec.surviving omap list_omap Spec.hit_of].
    destruct ((idx <? 0) || (Z.of_nat (length meta) <=? idx)) eqn:Hrange.
    { apply IH. exact Hlen. }
    destruct (meta !! Z.to_nat idx) as [[m |] |] eqn:Hm; try (apply IH; exact Hlen).
    destruct (deleted m).
    { apply IH. exact Hlen. }
    change (omap (Spec.hit_of meta) rest) with (Spec.surviving meta rest).
    rewrite Z.geb_leb.
    destruct (k <=? Z.of_nat (length (results ++ [mkHit m dist]))) eqn:Hfull.
    + apply Z.leb_le in Hfull. rewrite length_app in Hfull. cbn in Hfull.
      replace (results ++ mkHit m dist :: Spec.surviving meta rest)
        with ((results ++ [mkHit m dist]) ++ Spec.surviving meta rest)
        by (rewrite <- app_assoc; reflexivity).
      rewrite firstn_app.
      rewrite firstn_all2 by (rewrite length_app; cbn; lia).
      replace (Z.to_nat k - length (results ++ [mkHit m dist]))%nat with 0%nat
        by (rewrite length_app; cbn; lia).
      cbn. rewrite app_nil_r. reflexivity.
    + apply Z.leb_gt in Hfull. rewrite IH.
      * rewrite <- app_assoc. reflexivity.
      * lia.
Qed.

(** A neighbour at a position that is not live does not survive. *)
Lemma surviving_nil (self : t) (pairs : list (Q * Z)) :
  Spec.live_positions self = [] ->
  (forall pair, pair ∈ pairs ->
     exists p : nat, (p < length (_index self))%nat /\ snd pair = Z.of_nat p) ->
  Spec.surviving (_meta self) pairs = [].
Proof.
  intros Hnone Hpos. unfold Spec.surviving.
  induction pairs as [| [dist idx] rest IH]; [reflexivity |].
  cbn [omap list_omap].
  assert (Hhead : Spec.hit_of (_meta self) (dist, idx) = None).
  { destruct (Hpos (dist, idx)) as (p & Hp & Hidx); [left |].
    cbn in Hidx. subst idx. unfold Spec.hit_of.
    destruct ((Z.of_nat p <? 0) || (Z.of_nat (length (_meta self)) <=? Z.of_nat p));
      [reflexivity |].
    rewrite Nat2Z.id.
    assert (Hdead : alive (mjoin (_meta self !! p)) = false).
    { destruct (alive (mjoin (_meta self !! p))) eqn:Ha; [| reflexivity].
      assert (Hin : In p (Spec.live_positions self)).
      { unfold Spec.live_positions. apply filter_In. split; [| exact Ha].
        apply in_seq. lia. }
      rewrite Hnone in Hin. destruct Hin. }
    destruct (_meta self !! p) as [[m |] |]; cbn in Hdead; try reflexivity.
    destruct (deleted m); [reflexivity | discriminate]. }
  rewrite Hhead. apply IH.
  intros pair Hin. apply Hpos. right. exact Hin.
Qed.

Lemma search_unfold (self : t) (query : string) (k : Z) :
  0 < k ->
  search encode self query k
  = firstn (Z.to_nat k)
      (Spec.surviving (_meta self)
         (Faiss.search (_index self) (encode query)
            (Z.min (k * 4) (total_vectors self)))).
Proof.
  intros Hk. unfold search, total_vectors.
  destruct (Faiss.ntotal (_index self) =? 0) eqn:Hzero.
  - apply Z.eqb_eq in Hzero. rewrite Hzero.
    rewrite Z.min_r by lia. unfold Faiss.search. cbn.
    rewrite firstn_nil. reflexivity.
  - rewrite search_loop_take by (cbn; lia). reflexivity.
Qed.

(** C8. For a positive [k], [search] takes the [min(k * 4, total_vectors)]
    vectors nearest to the embedded query by squared Euclidean distance
    among all stored vectors, deleted ones included, in ascending
    distance; it drops those whose record is missing or deleted, keeps the
    order, and returns the first [k] of the rest, so at most [k] results
    and fewer when fewer survive. When no stored vector has a live record
    the result is empty. *)
Theorem search_nearest_filtered_truncated (self : t) (query : string) (k : Z) :
  0 < k ->
  let fetch_k := Z.min (k * 4) (total_vectors self) in
  let nearest := Faiss.search (_index self) (encode query) fetch_k in
  (exists farther,
      Permutation (nearest ++ farther)
        (Faiss.scored (_index self) (encode query))
      /\ StronglySorted Spec.nearer (nearest ++ farther))
  /\ length nearest = Z.to_nat fetch_k
  /\ search encode self query k
     = firstn (Z.to_nat k) (Spec.surviving (_meta self) nearest)
  /\ Z.of_nat (length (search encode self query k)) <= k
  /\ (Spec.live_positions self = [] -> search encode self query k = []).
Proof.
  intros Hk fetch_k nearest.
  assert (Heq : search encode self query k
                = firstn (Z.to_nat k) (Spec.surviving (_meta self) nearest))
    by (apply search_unfold; exact Hk).
  split; [apply search_nearest |].
  split.
  { apply search_length. unfold fetch_k, total_vectors, Faiss.ntotal. lia. }
  split; [exact Heq |].
  split.
  { rewrite Heq, length_take. lia. }
  intros Hnone. rewrite Heq.
  rewrite (surviving_nil self nearest Hnone); [apply firstn_nil |].
  intros pair Hin.
  apply search_positions in Hin as (p & v & Hp & ->).
  exists p. split; [| reflexivity].
  apply lookup_lt_Some in Hp. exact Hp.
Qed.

End SearchFacts.

Section StoreFacts.

Import VectorStore.

Variable encode : string -> Faiss.vec.

Lemma add_chunks_empty (self : t) (d n : string) :
  add_chunks encode self d n [] = (self, 0).
Proof. reflexivity. Qed.

(** The assignment [self._doc_map[doc_id] = positions]. *)
Lemma add_chunks_doc_map (self : t) (d n : string) (chunks : list string) :
  chunks <> [] ->
  _doc_map (fst (add_chunks encode self d n chunks))
  = <[d := seq (length (_index self)) (length chunks)]> (_doc_map self).
Proof. intros Hne. destruct chunks; [congruence | reflexivity]. Qed.

Lemma add_chunks_index (self : t) (d n : string) (chunks : list string) :
  _index (fst (add_chunks encode self d n chunks))
  = _index self ++ map encode chunks.
Proof.
  destruct chunks; cbn; [rewrite app_nil_r |]; reflexivity.
Qed.

(** Whatever the document owned before, it owns the new positions only. *)
Lemma add_chunks_owned (self : t) (d n : string) (chunks : list string) :
  chunks <> [] ->
  _doc_map (fst (add_chunks encode self d n chunks)) !! d
  = Some (seq (length (_index self)) (length chunks)).
Proof.
  intros Hne. rewrite add_chunks_doc_map by exact Hne.
  apply lookup_insert_eq.
Qed.

Local Abbreviation twice := (Spec.twice encode).

Lemma twice_meta :
  _meta twice
  = [Some (mkMeta "d" "report" 0 "a" false);
     Some (mkMeta "d" "report" 0 "b" false)].
Proof. reflexivity. Qed.

Lemma twice_index : _index twice = [encode "a"; encode "b"].
Proof. reflexivity. Qed.

Lemma twice_doc_map : _doc_map twice = <["d" := [1%nat]]> (<["d" := [0%nat]]> ∅).
Proof. reflexivity. Qed.

(** C1, evaluated. A document that owns position 0 is inserted again with
    one chunk: the mapping then gives it position 1 alone, not its
    previous position followed by the new one. *)
Theorem add_chunks_drops_prior_positions :
  let before := Spec.run encode [Spec.Insert "d" "report" ["a"]] in
  let after := fst (add_chunks encode before "d" "report" ["b"]) in
  _doc_map before !! "d" = Some [0%nat]
  /\ _doc_map after !! "d" = Some [1%nat]
  /\ _doc_map after !! "d" <> Some ([0%nat] ++ [1%nat]).
Proof.
  cbn zeta.
  assert (H0 : _doc_map (Spec.run encode [Spec.Insert "d" "report" ["a"]]) !! "d"
               = Some [0%nat]) by apply lookup_insert_eq.
  assert (H1 : _doc_map (fst (add_chunks encode
                 (Spec.run encode [Spec.Insert "d" "report" ["a"]])
                 "d" "report" ["b"])) !! "d" = Some [1%nat])
    by apply lookup_insert_eq.
  split; [exact H0 |]. split; [exact H1 |].
  rewrite H1. discriminate.
Qed.

(** C2, evaluated. After two inserts under one id the record at position
    0 is not deleted and no document owns position 0. *)
Theorem reinsert_breaks_ownership_invariant :
  Spec.live twice 0 /\ (forall d', ~ Spec.owns twice d' 0)
  /\ ~ Spec.ownership_invariant twice.
Proof.
  assert (Hlive : Spec.live twice 0).
  { exists (mkMeta "d" "report" 0 "a" false). split; reflexivity. }
  assert (Hfree : forall d', ~ Spec.owns twice d' 0).
  { intros d' (ps & Hps & Hin). rewrite twice_doc_map in Hps.
    destruct (decide (d' = "d")) as [-> | Hne].
    - rewrite lookup_insert_eq in Hps. injection Hps as <-.
      apply list_elem_of_singleton in Hin. discriminate.
    - rewrite !lookup_insert_ne in Hps by congruence.
      rewrite lookup_empty in Hps. discriminate. }
  split; [exact Hlive |]. split; [exact Hfree |].
  intros [Hunion _]. apply Hunion in Hlive as [d' Hd'].
  exact (Hfree d' Hd').
Qed.

Lemma surviving_permutation (meta : list (option Meta)) (l l' : list (Q * Z)) :
  Permutation l l' ->
  Permutation (Spec.surviving meta l) (Spec.surviving meta l').
Proof.
  intros H. unfold Spec.surviving.
  induction H as [| x l l' H IH | x y l | l l' l'' H1 IH1 H2 IH2].
  - constructor.
  - cbn. destruct (Spec.hit_of meta x); [constructor |]; exact IH.
  - cbn. destruct (Spec.hit_of meta y), (Spec.hit_of meta x);
      try reflexivity. constructor.
  - etransitivity; eassumption.
Qed.

(** C3, evaluated. The document inserted twice is deleted: a search still
    returns its first chunk, whatever the embedding, the query and [k]. *)
Theorem delete_doc_leaves_reinserted_chunk (query : string) (k : Z) :
  0 < k ->
  search encode (delete_doc twice "d") query k
  = [mkHit (mkMeta "d" "report" 0 "a" false)
       (Faiss.sqdist (encode query) (encode "a"))]
  /\ Exists (fun h => doc_id (hit_meta h) = "d")
       (search encode (delete_doc twice "d") query k).
Proof.
  intros Hk.
  set (hit := mkHit (mkMeta "d" "report" 0 "a" false)
                (Faiss.sqdist (encode query) (encode "a"))).
  assert (Heq : search encode (delete_doc twice "d") query k = [hit]).
  { rewrite search_unfold by exact Hk.
    change (_index (delete_doc twice "d")) with [encode "a"; encode "b"].
    change (_meta (delete_doc twice "d"))
      with [Some (mkMeta "d" "report" 0 "a" false);
            Some (mkMeta "d" "report" 0 "b" true)].
    change (total_vectors (delete_doc twice "d")) with 2.
    rewrite Z.min_r by lia.
    unfold Faiss.search.
    rewrite (firstn_all2 (Faiss.DistSort.sort _)).
    2:{ rewrite <- (Permutation_length (Faiss.DistSort.Permuted_sort _)).
        cbn. lia. }
    pose proof (surviving_permutation
                  [Some (mkMeta "d" "report" 0 "a" false);
                   Some (mkMeta "d" "report" 0 "b" true)]
                  _ _ (sort_permutation
                         (Faiss.scored [encode "a"; encode "b"] (encode query))))
      as Hperm.
    change (Spec.surviving _ (Faiss.scored _ _)) with [hit] in Hperm.
    symmetry in Hperm. apply Permutation_length_1_inv in Hperm.
    rewrite Hperm.
    destruct (Z.to_nat k) eqn:Hn; [lia |].
    cbn. rewrite firstn_nil. reflexivity. }
  split; [exact Heq |].
  rewrite Heq. constructor. reflexivity.
Qed.

(** Loading what [_save] wrote gives the state back. *)
Lemma load_save (self : t) : __init__ (_save self) = self.
Proof. destruct self; reflexivity. Qed.

(** A missing file, or an index file that cannot be read, leaves the
    state of a new store. *)
Lemma load_without_index (disk : Disk) :
  INDEX_FILE disk = Missing \/ INDEX_FILE disk = Corrupt
  \/ META_FILE disk = Missing ->
  __init__ disk = fresh.
Proof.
  unfold __init__, _load.
  intros [H | [H | H]]; rewrite H; [reflexivity | |].
  - destruct (exists_ (META_FILE disk)); reflexivity.
  - rewrite andb_false_r. reflexivity.
Qed.

(** An index file that reads well next to a metadata file that does not
    unpickle: the vectors stay loaded, without records. *)
Lemma load_corrupt_meta (index : Faiss.IndexFlatL2) :
  __init__ {| INDEX_FILE := Valid index; META_FILE := Corrupt |}
  = {| _index := index; _meta := []; _doc_map := ∅; _del_count := 0 |}.
Proof. reflexivity. Qed.

(** C7, evaluated. The store is built over a readable index file with one
    vector and a metadata file that fails to unpickle: no exception, and
    the index is not empty. *)
Theorem load_corrupt_meta_keeps_vectors :
  let disk := {| INDEX_FILE := Valid [[1%Q; 0%Q]]; META_FILE := Corrupt |} in
  __init__ disk
  = {| _index := [[1%Q; 0%Q]]; _meta := []; _doc_map := ∅; _del_count := 0 |}
  /\ __init__ disk <> fresh
  /\ total_vectors (__init__ disk) = 1.
Proof.
  cbn zeta. rewrite load_corrupt_meta.
  split; [reflexivity |]. split; [discriminate | reflexivity].
Qed.

End StoreFacts.

(** ** The ownership mapping when ids are not reused *)

Section OwnershipFacts.

Import VectorStore.

Variable encode : string -> Faiss.vec.

Lemma owns_positions_of (self : t) (d : string) (p : nat) :
  Spec.owns self d p <-> p ∈ Spec.positions_of self d.
Proof.
  unfold Spec.owns, Spec.positions_of. split.
  - intros (ps & -> & Hin). exact Hin.
  - destruct (_doc_map self !! d) as [ps |]; cbn; intros Hin.
    + eauto.
    + apply elem_of_nil in Hin. destruct Hin.
Qed.

Lemma consistent_ownership_invariant (self : t) :
  Spec.consistent self -> Spec.ownership_invariant self.
Proof.
  intros (_ & Hown & Hlive). split.
  - intros p. split.
    + intros (d & Hd). apply owns_positions_of in Hd.
      destruct (Hown d p Hd) as (m & Hm & Halive & _). exists m. auto.
    + intros (m & Hm & Halive). exists (doc_id m).
      apply owns_positions_of. eapply Hlive; eassumption.
  - intros p d1 d2 H1 H2.
    apply owns_positions_of in H1. apply owns_positions_of in H2.
    destruct (Hown d1 p H1) as (m1 & Hm1 & _ & <-).
    destruct (Hown d2 p H2) as (m2 & Hm2 & _ & <-).
    congruence.
Qed.

Lemma fill_meta_length (d n : string) (items : list (string * nat)) :
  forall (i : Z) (meta : list (option Meta)),
    length (fill_meta d n i items meta) = length meta.
Proof.
  induction items as [| [chunk pos] rest IH]; intros i meta; cbn; [reflexivity |].
  rewrite IH. apply length_insert.
Qed.

Lemma fill_meta_other (d n : string) (items : list (string * nat)) (p : nat) :
  forall (i : Z) (meta : list (option Meta)),
    Forall (fun item => snd item <> p) items ->
    fill_meta d n i items meta !! p = meta !! p.
Proof.
  induction items as [| [chunk pos] rest IH]; intros i meta Hall; cbn; [reflexivity |].
  inversion Hall as [| ? ? Hhead Htail]; subst. cbn in Hhead.
  rewrite IH by exact Htail. apply list_lookup_insert_ne. exact Hhead.
Qed.

Lemma fill_meta_new (d n : string) (chunks : list string) :
  forall (i : Z) (s : nat) (meta : list (option Meta)) (j : nat) (c : string),
    (s + length chunks <= length meta)%nat ->
    chunks !! j = Some c ->
    fill_meta d n i (combine chunks (seq s (length chunks))) meta !! (s + j)%nat
    = Some (Some (mkMeta d n (i + Z.of_nat j) c false)).
Proof.
  induction chunks as [| c0 chunks IH]; intros i s meta j c Hlen Hj; [discriminate |].
  cbn [length seq combine fill_meta]. cbn in Hlen.
  destruct j as [| j].
  - injection Hj as ->.
    rewrite fill_meta_other.
    + rewrite Nat.add_0_r, Z.add_0_r. apply list_lookup_insert_eq. lia.
    + apply Forall_forall. intros [c' p'] Hin. cbn.
      apply list_elem_of_In, in_combine_r, in_seq in Hin. lia.
  - cbn in Hj.
    replace (s + S j)%nat with (S s + j)%nat by lia.
    rewrite (IH (i + 1) (S s) _ j c); [| rewrite length_insert; lia | exact Hj].
    do 3 f_equal. lia.
Qed.

Lemma add_chunks_meta (self : t) (d n : string) (chunks : list string) :
  length (_meta self) = length (_index self) ->
  chunks <> [] ->
  let self' := fst (add_chunks encode self d n chunks) in
  length (_meta self') = (length (_index self) + length chunks)%nat
  /\ (forall p, (p < length (_index self))%nat ->
        _meta self' !! p = _meta self !! p)
  /\ (forall j c, chunks !! j = Some c ->
        _meta self' !! (length (_index self) + j)%nat
        = Some (Some (mkMeta d n (Z.of_nat j) c false))).
Proof.
  intros Hlen Hne. destruct chunks as [| c0 cs]; [congruence |].
  cbn zeta. unfold add_chunks. cbn [fst _meta].
  set (chunks := c0 :: cs) in *.
  set (start := length (_index self)).
  set (padded := _meta self ++ replicate (start + length chunks - length (_meta self)) None).
  assert (Hpad : length padded = (start + length chunks)%nat).
  { unfold padded. rewrite length_app, length_replicate. lia. }
  split; [| split].
  - rewrite fill_meta_length. exact Hpad.
  - intros p Hp. rewrite fill_meta_other.
    + unfold padded. apply lookup_app_l. lia.
    + apply Forall_forall. intros [c' p'] Hin. cbn.
      apply list_elem_of_In, in_combine_r, in_seq in Hin. lia.
  - intros j c Hj.
    rewrite (fill_meta_new d n chunks 0 start padded j c); [| lia | exact Hj].
    reflexivity.
Qed.

Lemma add_chunks_consistent (self : t) (d n : string) (chunks : list string) :
  Spec.consistent self ->
  _doc_map self !! d = None ->
  Spec.consistent (fst (add_chunks encode self d n chunks)).
Proof.
  intros Hc Hfree.
  destruct (decide (chunks = [])) as [-> | Hne]; [exact Hc |].
  destruct Hc as (Hlen & Hown & Hlive).
  destruct (add_chunks_meta self d n chunks Hlen Hne) as (Hlen' & Hold & Hnew).
  assert (Hpos : forall d',
             Spec.positions_of (fst (add_chunks encode self d n chunks)) d'
             = if decide (d = d') then seq (length (_index self)) (length chunks)
               else Spec.positions_of self d').
  { intros d'. unfold Spec.positions_of.
    rewrite add_chunks_doc_map by exact Hne.
    rewrite lookup_insert. destruct (decide (d = d')); reflexivity. }
  split; [| split].
  - rewrite Hlen', add_chunks_index, length_app, length_map. reflexivity.
  - intros d' p Hin. rewrite Hpos in Hin. destruct (decide (d = d')) as [<- | Hd].
    + apply list_elem_of_In, in_seq in Hin.
      destruct (lookup_lt_is_Some_2 chunks (p - length (_index self))) as [c Hc];
        [lia |].
      exists (mkMeta d n (Z.of_nat (p - length (_index self))) c false).
      split; [| split; reflexivity].
      rewrite <- (Hnew _ c Hc). f_equal. lia.
    + destruct (Hown d' p Hin) as (m & Hm & Ha & Hd').
      exists m. split; [| auto].
      rewrite Hold; [exact Hm |].
      apply lookup_lt_Some in Hm. lia.
  - intros p m Hm Ha. rewrite Hpos.
    destruct (decide (p < length (_index self))%nat) as [Hp | Hp].
    + rewrite Hold in Hm by exact Hp.
      pose proof (Hlive p m Hm Ha) as Hin.
      destruct (decide (d = doc_id m)) as [Hd | Hd]; [| exact Hin].
      unfold Spec.positions_of in Hin. rewrite <- Hd, Hfree in Hin.
      apply elem_of_nil in Hin. destruct Hin.
    + pose proof (lookup_lt_Some _ _ _ Hm) as Hlt. rewrite Hlen' in Hlt.
      destruct (lookup_lt_is_Some_2 chunks (p - length (_index self))) as [c Hc];
        [lia |].
      pose proof (Hnew _ c Hc) as Hnew'.
      replace (length (_index self) + (p - length (_index self)))%nat with p
        in Hnew' by lia.
      rewrite Hm in Hnew'. injection Hnew' as ->. cbn.
      rewrite decide_True by reflexivity.
      apply list_elem_of_In, in_seq. lia.
Qed.

Lemma mark_deleted_twice (m : Meta) :
  mark_deleted (mark_deleted m) = mark_deleted m.
Proof. reflexivity. Qed.

(** What the loop of [delete_doc] leaves at a position. *)
Lemma delete_pos_lookup (positions : list nat) :
  forall (meta : list (option Meta)) (count : Z) (p : nat),
    fst (foldl delete_pos (meta, count) positions) !! p
    = if decide (p ∈ positions)
      then fmap (fmap mark_deleted) (meta !! p)
      else meta !! p.
Proof.
  induction positions as [| a positions IH]; intros meta count p.
  - cbn. rewrite decide_False by apply not_elem_of_nil. reflexivity.
  - cbn [foldl].
    assert (Hstep : exists meta1 count1,
               delete_pos (meta, count) a = (meta1, count1)
               /\ forall q, meta1 !! q
                            = if decide (q = a)
                              then fmap (fmap mark_deleted) (meta !! q)
                              else meta !! q).
    { unfold delete_pos. destruct (meta !! a) as [[m |] |] eqn:Ha.
      - eexists _, _. split; [reflexivity |]. intros q.
        destruct (decide (q = a)) as [-> | Hq].
        + rewrite list_lookup_insert_eq by (eapply lookup_lt_Some; exact Ha).
          rewrite Ha. reflexivity.
        + apply list_lookup_insert_ne. congruence.
      - eexists _, _. split; [reflexivity |]. intros q.
        destruct (decide (q = a)) as [-> | Hq]; [rewrite Ha |]; reflexivity.
      - eexists _, _. split; [reflexivity |]. intros q.
        destruct (decide (q = a)) as [-> | Hq]; [rewrite Ha |]; reflexivity. }
    destruct Hstep as (meta1 & count1 & -> & Hmeta1).
    rewrite IH, Hmeta1.
    destruct (decide (p = a)) as [-> | Hpa].
    + rewrite (decide_True (P := a ∈ a :: positions)) by left.
      destruct (decide (a ∈ positions)); [| reflexivity].
      destruct (meta !! a) as [[m |] |]; reflexivity.
    + destruct (decide (p ∈ positions)) as [Hin | Hin].
      * rewrite (decide_True (P := p ∈ a :: positions)) by (right; exact Hin).
        reflexivity.
      * rewrite (decide_False (P := p ∈ a :: positions)); [reflexivity |].
        intros H. apply elem_of_cons in H as [H | H]; contradiction.
Qed.

Lemma delete_doc_meta (self : t) (d : string) (p : nat) :
  _meta (delete_doc self d) !! p
  = if decide (p ∈ Spec.positions_of self d)
    then fmap (fmap mark_deleted) (_meta self !! p)
    else _meta self !! p.
Proof.
  unfold delete_doc, Spec.positions_of.
  rewrite <- delete_pos_lookup with (count := _del_count self).
  destruct (foldl delete_pos _ _) as [meta count]. reflexivity.
Qed.

Lemma delete_doc_doc_map (self : t) (d : string) :
  _doc_map (delete_doc self d) = delete d (_doc_map self).
Proof.
  unfold delete_doc. destruct (foldl delete_pos _ _) as [meta count]. reflexivity.
Qed.

Lemma delete_doc_index (self : t) (d : string) :
  _index (delete_doc self d) = _index self.
Proof.
  unfold delete_doc. destruct (foldl delete_pos _ _) as [meta count]. reflexivity.
Qed.

Lemma delete_doc_meta_length (self : t) (d : string) :
  length (_meta (delete_doc self d)) = length (_meta self).
Proof.
  assert (H : forall p, is_Some (_meta (delete_doc self d) !! p)
                        <-> is_Some (_meta self !! p)).
  { intros p. rewrite delete_doc_meta.
    destruct (decide _); [| reflexivity].
    rewrite !fmap_is_Some. reflexivity. }
  destruct (Nat.lt_trichotomy (length (_meta (delete_doc self d)))
              (length (_meta self))) as [Hlt | [Heq | Hgt]]; [| exact Heq |].
  - apply lookup_lt_is_Some_2, H, lookup_lt_is_Some_1 in Hlt. lia.
  - apply lookup_lt_is_Some_2, H, lookup_lt_is_Some_1 in Hgt. lia.
Qed.

Lemma delete_doc_positions (self : t) (d d' : string) :
  Spec.positions_of (delete_doc self d) d'
  = if decide (d = d') then [] else Spec.positions_of self d'.
Proof.
  unfold Spec.positions_of. rewrite delete_doc_doc_map, lookup_delete.
  destruct (decide (d = d')); reflexivity.
Qed.

Lemma delete_doc_consistent (self : t) (d : string) :
  Spec.consistent self -> Spec.consistent (delete_doc self d).
Proof.
  intros (Hlen & Hown & Hlive). split; [| split].
  - rewrite delete_doc_meta_length, delete_doc_index. exact Hlen.
  - intros d' p Hin. rewrite delete_doc_positions in Hin.
    destruct (decide (d = d')) as [_ | Hd]; [apply elem_of_nil in Hin; destruct Hin |].
    destruct (Hown d' p Hin) as (m & Hm & Ha & Hd').
    exists m. split; [| auto]. rewrite delete_doc_meta.
    destruct (decide (p ∈ Spec.positions_of self d)) as [Hp | _]; [| exact Hm].
    destruct (Hown d p Hp) as (m' & Hm' & _ & Hdm'). congruence.
  - intros p m Hm Ha. rewrite delete_doc_meta in Hm.
    destruct (decide (p ∈ Spec.positions_of self d)) as [Hp | Hp].
    + destruct (_meta self !! p) as [[m' |] |]; cbn in Hm; try discriminate.
      injection Hm as <-. discriminate.
    + rewrite delete_doc_positions.
      pose proof (Hlive p m Hm Ha) as Hin.
      destruct (decide (d = doc_id m)) as [-> | _]; [contradiction | exact Hin].
Qed.

(** After [delete_doc] no live record carries the document's id. *)
Lemma delete_doc_no_live_record (self : t) (d : string) (p : nat) (m : Meta) :
  Spec.consistent self ->
  _meta (delete_doc self d) !! p = Some (Some m) ->
  deleted m = false ->
  doc_id m <> d.
Proof.
  intros Hc Hm Ha Hd.
  destruct (delete_doc_consistent self d Hc) as (_ & _ & Hlive).
  pose proof (Hlive p m Hm Ha) as Hin.
  rewrite delete_doc_positions, Hd in Hin.
  rewrite decide_True in Hin by reflexivity.
  apply elem_of_nil in Hin. exact Hin.
Qed.

Lemma alive_records_lookup (meta : list (option Meta)) (m : Meta) :
  m ∈ alive_records meta -> deleted m = false.
Proof.
  unfold alive_records. intros H.
  apply list_elem_of_omap in H as ([m' |] & _ & Hm); [| discriminate].
  destruct (deleted m') eqn:Hd; [discriminate |].
  injection Hm as <-. exact Hd.
Qed.

(** The positions that the loop of [rebuild_index] adds to a mapping. *)
Lemma setdefault_append_positions (records : list Meta) :
  forall (s : nat) (doc_map : gmap string (list nat)) (d : string) (p : nat),
    p ∈ default [] (foldl setdefault_append doc_map
                      (imap (fun i m => ((s + i)%nat, m)) records) !! d)
    <-> p ∈ default [] (doc_map !! d)
        \/ exists j m, records !! j = Some m /\ p = (s + j)%nat /\ doc_id m = d.
Proof.
  induction records as [| r records IH]; intros s doc_map d p.
  - cbn. split; [auto |]. intros [H | (j & m & Hj & _)]; [exact H | discriminate].
  - cbn [imap foldl].
    rewrite (imap_ext _ (fun i m => ((S s + i)%nat, m)))
      by (intros i m _; cbn; f_equal; lia).
    rewrite IH. unfold setdefault_append at 1. cbn [fst snd].
    rewrite lookup_insert.
    split.
    + intros [H | (j & m & Hj & -> & Hd)].
      * destruct (decide (doc_id r = d)) as [Hrd | Hrd]; [| left; exact H].
        cbn in H. apply elem_of_app in H as [H | H].
        -- left. rewrite <- Hrd. exact H.
        -- apply list_elem_of_singleton in H. right.
           exists 0%nat, r. repeat split; [lia | exact Hrd].
      * right. exists (S j), m. repeat split; [exact Hj | lia | exact Hd].
    + intros [H | (j & m & Hj & -> & Hd)].
      * left. destruct (decide (doc_id r = d)) as [<- | Hrd]; [| exact H].
        cbn. apply elem_of_app. left. exact H.
      * destruct j as [| j].
        -- injection Hj as ->. left. rewrite decide_True by exact Hd.
           cbn. apply elem_of_app. right. apply list_elem_of_singleton. lia.
        -- right. exists j, m. repeat split; [exact Hj | lia | exact Hd].
Qed.

Lemma rebuild_index_positions (records : list Meta) (d : string) (p : nat) :
  p ∈ default [] (foldl setdefault_append ∅ (enumerate records) !! d)
  <-> exists m, records !! p = Some m /\ doc_id m = d.
Proof.
  unfold enumerate.
  rewrite (setdefault_append_positions records 0 ∅ d p).
  rewrite lookup_empty. cbn. split.
  - intros [H | (j & m & Hj & -> & Hd)]; [apply elem_of_nil in H; destruct H |].
    eauto.
  - intros (m & Hm & Hd). right. exists p, m. auto.
Qed.

Lemma fresh_consistent : Spec.consistent fresh.
Proof.
  split; [reflexivity |]. split.
  - intros d p H. unfold Spec.positions_of in H. cbn in H.
    rewrite lookup_empty in H. apply elem_of_nil in H. destruct H.
  - intros p m H. discriminate.
Qed.

(** [rebuild_index] makes the mapping and the records agree, whatever the
    state before. *)
Lemma rebuild_index_consistent (self : t) :
  Spec.consistent (fst (rebuild_index encode self)).
Proof.
  unfold rebuild_index.
  destruct (alive_records (_meta self)) as [| r records] eqn:Halive;
    [apply fresh_consistent |].
  cbn [fst]. rewrite <- Halive.
  assert (Hdel : forall m, m ∈ alive_records (_meta self) -> deleted m = false)
    by apply alive_records_lookup.
  set (alive := alive_records (_meta self)) in *. clearbody alive.
  split; [| split].
  - cbn. unfold Faiss.add. cbn. rewrite !length_map. reflexivity.
  - intros d p Hin. unfold Spec.positions_of in Hin. cbn [_doc_map] in Hin.
    apply rebuild_index_positions in Hin as (m & Hm & Hd).
    exists m. cbn [_meta]. rewrite list_lookup_fmap, Hm.
    split; [reflexivity |]. split; [| exact Hd].
    apply Hdel. eapply list_elem_of_lookup_2. exact Hm.
  - intros p m Hm _. cbn [_meta] in Hm. rewrite list_lookup_fmap in Hm.
    unfold Spec.positions_of. cbn [_doc_map].
    apply rebuild_index_positions. exists m. split; [| reflexivity].
    destruct (alive !! p); cbn in Hm; congruence.
Qed.

(** As long as no document is inserted under an id that still owns
    positions, the mapping and the records agree. *)
Lemma disciplined_consistent (self : t) :
  Spec.disciplined encode self -> Spec.consistent self.
Proof.
  induction 1 as [| self d n chunks _ IH Hfree | self d _ IH | self _ _].
  - apply fresh_consistent.
  - apply add_chunks_consistent; assumption.
  - apply delete_doc_consistent; assumption.
  - apply rebuild_index_consistent.
Qed.

Lemma disciplined_ownership_invariant (self : t) :
  Spec.disciplined encode self -> Spec.ownership_invariant self.
Proof.
  intros H. apply consistent_ownership_invariant, disciplined_consistent, H.
Qed.

(** A result of the search loop is a result already found or the live
    record of some position. *)
Lemma search_loop_hits (meta : list (option Meta)) (k : Z)
    (pairs : list (Q * Z)) :
  forall (results : list Hit) (h : Hit),
    h ∈ search_loop meta k pairs results ->
    h ∈ results
    \/ exists p, meta !! p = Some (Some (hit_meta h))
                 /\ deleted (hit_meta h) = false.
Proof.
  induction pairs as [| [dist idx] rest IH]; intros results h Hin; cbn in Hin.
  - left. exact Hin.
  - destruct ((idx <? 0) || (Z.of_nat (length meta) <=? idx)); [eauto |].
    destruct (meta !! Z.to_nat idx) as [[m |] |] eqn:Hm; [| eauto | eauto].
    destruct (deleted m) eqn:Hd; [eauto |].
    assert (Hnew : forall h', h' ∈ results ++ [mkHit m dist] ->
                     h' ∈ results
                     \/ exists p, meta !! p = Some (Some (hit_meta h'))
                                  /\ deleted (hit_meta h') = false).
    { intros h' H. apply elem_of_app in H as [H | H]; [left; exact H |].
      apply list_elem_of_singleton in H. subst h'. right.
      exists (Z.to_nat idx). split; assumption. }
    destruct (Z.of_nat (length (results ++ [mkHit m dist])) >=? k).
    + apply Hnew. exact Hin.
    + apply IH in Hin as [Hin | Hin]; [apply Hnew; exact Hin | right; exact Hin].
Qed.

(** Delete visibility, where the mapping and the records agree: no search
    after [delete_doc] returns a record of the deleted document. *)
Lemma delete_doc_hides_document (self : t) (d query : string) (k : Z) :
  Spec.consistent self ->
  Forall (fun h => doc_id (hit_meta h) <> d)
    (search encode (delete_doc self d) query k).
Proof.
  intros Hc. apply Forall_forall. intros h Hin.
  unfold search in Hin.
  destruct (Faiss.ntotal (_index (delete_doc self d)) =? 0);
    [apply elem_of_nil in Hin; destruct Hin |].
  apply search_loop_hits in Hin as [Hin | (p & Hp & Ha)];
    [apply elem_of_nil in Hin; destruct Hin |].
  eapply delete_doc_no_live_record; eassumption.
Qed.

End OwnershipFacts.

(** * Properties of the retrieval control loop *)

Section GradeFacts.

Import VectorStore RagPipeline.

Variable llm : nat -> Q -> list Message -> Completion.
Variable settings : Settings.

Lemma int_digits_nonneg (s : string) (acc z : Z) :
  0 <= acc -> PyStr.int_digits acc s = Some z -> 0 <= z.
Proof.
  revert acc. induction s as [| c s IH]; intros acc Hacc H; cbn in H.
  - injection H as <-. exact Hacc.
  - destruct (PyStr.is_ascii_digit c); [| discriminate].
    apply IH in H; [exact H | lia].
Qed.

Lemma int_nonneg (s : string) (z : Z) : PyStr.int s = Some z -> 0 <= z.
Proof.
  destruct s; [discriminate |]. unfold PyStr.int.
  apply int_digits_nonneg. lia.
Qed.

(** The comprehension of [node_grade], over the stripped tokens. *)
Lemma parse_indices_tokens (raw : string) :
  parse_indices raw = mapM PyStr.int (Spec.digit_tokens raw).
Proof.
  unfold parse_indices, Spec.digit_tokens.
  induction (PyStr.split_comma raw) as [| x l IH]; [reflexivity |].
  cbn [List.filter map]. destruct (PyStr.isdigit (PyStr.strip x)).
  - cbn. rewrite IH. reflexivity.
  - exact IH.
Qed.

Lemma parse_indices_nonneg (raw : string) (idxs : list Z) :
  parse_indices raw = Some idxs -> Forall (fun i => 0 <= i) idxs.
Proof.
  rewrite parse_indices_tokens. intros H. apply mapM_Some in H.
  induction H as [| x y l k Hxy _ IH]; constructor; [| exact IH].
  eapply int_nonneg; exact Hxy.
Qed.

(** For indices that are not negative the selection cannot fail: an index
    out of range is left out. *)
Lemma select_chunks_nonneg (chunks : list Hit) (idxs : list Z) :
  Forall (fun i => 0 <= i) idxs ->
  select_chunks chunks idxs
  = Some (omap (fun i => chunks !! Z.to_nat i) idxs).
Proof.
  unfold select_chunks. induction 1 as [| i idxs Hi _ IH]; [reflexivity |].
  cbn [List.filter omap list_omap].
  destruct (i <? Z.of_nat (length chunks)) eqn:Hlt.
  - apply Z.ltb_lt in Hlt.
    assert (Hget : getitem chunks i = chunks !! Z.to_nat i).
    { unfold getitem. destruct (0 <=? i) eqn:H0; [reflexivity |].
      apply Z.leb_gt in H0. lia. }
    destruct (lookup_lt_is_Some_2 chunks (Z.to_nat i)) as [c Hc]; [lia |].
    cbn. rewrite Hget, Hc. cbn. rewrite IH. reflexivity.
  - apply Z.ltb_ge in Hlt.
    rewrite (lookup_ge_None_2 chunks (Z.to_nat i)) by lia. exact IH.
Qed.

Lemma omap_lookup_elem (chunks : list Hit) (idxs : list Z) (c : Hit) :
  c ∈ omap (fun i => chunks !! Z.to_nat i) idxs -> c ∈ chunks.
Proof.
  intros H. apply list_elem_of_omap in H as (i & _ & Hi).
  eapply list_elem_of_lookup_2. exact Hi.
Qed.

(** The outcomes of the [try] block of [node_grade]. *)
Lemma grade_try_cases (resp : Completion) (chunks : list Hit) :
  match resp with
  | Raises _ => grade_try resp chunks = None
  | Content content =>
      let raw := PyStr.lower (PyStr.strip content) in
      if String.eqb raw "none" then grade_try resp chunks = Some []
      else
        match mapM PyStr.int (Spec.digit_tokens raw) with
        | Some idxs =>
            grade_try resp chunks
            = Some (omap (fun i => chunks !! Z.to_nat i) idxs)
        | None => grade_try resp chunks = None
        end
  end.
Proof.
  destruct resp as [content | e]; [| reflexivity].
  cbn zeta. unfold grade_try.
  destruct (String.eqb (PyStr.lower (PyStr.strip content)) "none");
    [reflexivity |].
  rewrite <- parse_indices_tokens.
  destruct (parse_indices (PyStr.lower (PyStr.strip content))) as [idxs |] eqn:Hp;
    [| reflexivity].
  apply select_chunks_nonneg. eapply parse_indices_nonneg. exact Hp.
Qed.

Lemma node_grade_relevant (s : RAGState) (n : nat) :
  retrieved_chunks s <> [] ->
  relevant_chunks (fst (node_grade llm settings s n))
  = default (retrieved_chunks s)
      (grade_try
         (llm n 0%Q
            [HumanMessage
               (grade_prompt (PyStr.or_else (rewritten_query s) (query s))
                  (retrieved_chunks s))])
         (retrieved_chunks s)).
Proof.
  intros Hne. unfold node_grade.
  destruct (retrieved_chunks s) as [| c l]; [congruence | reflexivity].
Qed.

Lemma node_grade_empty (s : RAGState) (n : nat) :
  retrieved_chunks s = [] ->
  node_grade llm settings s n
  = ({| query := query s; rewritten_query := rewritten_query s;
        retrieved_chunks := []; relevant_chunks := [];
        answer := answer s; sources := sources s;
        rewrite_count := rewrite_count s;
        needs_rewrite := rewrite_count s <? max_rewrite_attempts settings |},
     n).
Proof. intros He. unfold node_grade. rewrite He. reflexivity. Qed.

(** C10. Whatever the chat model answers to the grading prompt, every
    relevant candidate is one of the retrieved candidates, and grading
    returns a state: no answer makes it raise. When the answer is read
    without an exception, the relevant candidates are the retrieved
    candidates at the numbers named by the digit tokens, in the order
    named; a token that is not a digit string is not among them and a
    number that is out of range selects nothing. *)
Theorem grade_selects_among_retrieved (s : RAGState) (n : nat) :
  let chunks := retrieved_chunks s in
  let resp :=
    llm n 0%Q
      [HumanMessage
         (grade_prompt (PyStr.or_else (rewritten_query s) (query s)) chunks)] in
  let relevant := relevant_chunks (fst (node_grade llm settings s n)) in
  Forall (fun c => c ∈ chunks) relevant
  /\ (chunks <> [] ->
      forall content idxs,
        resp = Content content ->
        PyStr.lower (PyStr.strip content) <> "none" ->
        mapM PyStr.int (Spec.digit_tokens (PyStr.lower (PyStr.strip content)))
        = Some idxs ->
        relevant = omap (fun i => chunks !! Z.to_nat i) idxs).
Proof.
  cbn zeta. split.
  - destruct (retrieved_chunks s) as [| c0 l] eqn:Hchunks.
    { rewrite node_grade_empty by exact Hchunks. constructor. }
    rewrite node_grade_relevant by (rewrite Hchunks; discriminate).
    rewrite Hchunks.
    pose proof (grade_try_cases
                  (llm n 0%Q
                     [HumanMessage
                        (grade_prompt
                           (PyStr.or_else (rewritten_query s) (query s))
                           (c0 :: l))]) (c0 :: l)) as Hcases.
    destruct (llm n 0%Q _) as [content | e].
    + cbn zeta in Hcases.
      destruct (String.eqb (PyStr.lower (PyStr.strip content)) "none").
      { rewrite Hcases. constructor. }
      destruct (mapM PyStr.int _) as [idxs |].
      * rewrite Hcases. cbn [default]. apply Forall_forall.
        intros c Hc. eapply omap_lookup_elem. exact Hc.
      * rewrite Hcases. cbn [default]. apply Forall_forall. auto.
    + rewrite Hcases. cbn [default]. apply Forall_forall. auto.
  - intros Hne content idxs Hresp Hraw Hidxs.
    rewrite node_grade_relevant by exact Hne.
    pose proof (grade_try_cases (Content content) (retrieved_chunks s)) as Hcases.
    cbn beta iota zeta in Hcases.
    apply String.eqb_neq in Hraw. rewrite Hraw in Hcases.
    rewrite Hidxs in Hcases. rewrite Hresp, Hcases. reflexivity.
Qed.

(** The branches of the grading parse. With candidates retrieved: when the
    call to the chat model raises, or a token of the answer passes the digit
    test and is refused by the integer conversion, all retrieved candidates
    are kept. Any other answer than "none" is read token by token: the
    candidates named by its digit tokens are kept, in that order, so an
    answer without such a token keeps none. *)
Theorem grade_fallback_on_exception (s : RAGState) (n : nat) :
  retrieved_chunks s <> [] ->
  let chunks := retrieved_chunks s in
  let resp :=
    llm n 0%Q
      [HumanMessage
         (grade_prompt (PyStr.or_else (rewritten_query s) (query s)) chunks)] in
  let relevant := relevant_chunks (fst (node_grade llm settings s n)) in
  (forall e, resp = Raises e -> relevant = chunks)
  /\ (forall content,
        resp = Content content ->
        let raw := PyStr.lower (PyStr.strip content) in
        raw <> "none" ->
        (mapM PyStr.int (Spec.digit_tokens raw) = None -> relevant = chunks)
        /\ (forall idxs,
              mapM PyStr.int (Spec.digit_tokens raw) = Some idxs ->
              relevant = omap (fun i => chunks !! Z.to_nat i) idxs)
        /\ (Spec.digit_tokens raw = [] -> relevant = [])).
Proof.
  intros Hne. cbn zeta.
  rewrite node_grade_relevant by exact Hne.
  split.
  - intros e Hresp. rewrite Hresp. reflexivity.
  - intros content Hresp Hraw. rewrite Hresp.
    pose proof (grade_try_cases (Content content) (retrieved_chunks s)) as Hcases.
    cbn beta iota zeta in Hcases.
    apply String.eqb_neq in Hraw. rewrite Hraw in Hcases.
    split; [| split].
    + intros Hnone. rewrite Hnone in Hcases. rewrite Hcases. reflexivity.
    + intros idxs Hidxs. rewrite Hidxs in Hcases. rewrite Hcases. reflexivity.
    + intros Hno. rewrite Hno in Hcases.
      change (mapM PyStr.int []) with (Some (@nil Z)) in Hcases.
      cbn beta iota in Hcases. rewrite Hcases. reflexivity.
Qed.

(** A string that fails [isdigit] is refused by [int]. *)
Lemma int_digits_refuses (s : string) :
  PyStr.all_chars PyStr.isdigit_char s = false ->
  forall acc, PyStr.int_digits acc s = None.
Proof.
  induction s as [| c s IH]; intros Hall acc; [discriminate |].
  cbn [PyStr.all_chars PyStr.int_digits] in *.
  destruct (PyStr.is_ascii_digit c) eqn:Hc; [| reflexivity].
  apply IH. unfold PyStr.isdigit_char in Hall. rewrite Hc in Hall. exact Hall.
Qed.

Lemma int_refuses (s : string) :
  PyStr.isdigit s = false -> PyStr.int s = None.
Proof.
  destruct s as [| c s]; [reflexivity |].
  unfold PyStr.isdigit, PyStr.int. intros H. apply int_digits_refuses. exact H.
Qed.

Lemma split_comma_nonempty (s : string) : PyStr.split_comma s <> [].
Proof.
  destruct s as [| c s]; [discriminate |].
  cbn [PyStr.split_comma]. destruct (PyStr.split_comma s); [discriminate |].
  destruct (Ascii.eqb c ","); discriminate.
Qed.

(** An answer without a digit token is no list of indices. *)
Lemma no_digit_token_ill_formed (raw : string) (len : nat) :
  Spec.digit_tokens raw = [] -> Spec.well_formed_indices raw len = false.
Proof.
  unfold Spec.digit_tokens, Spec.well_formed_indices. intros Hno.
  destruct (PyStr.split_comma raw) as [| token tokens] eqn:Htokens;
    [apply split_comma_nonempty in Htokens; contradiction |].
  cbn [map List.filter forallb] in *.
  destruct (PyStr.isdigit (PyStr.strip token)) eqn:Hd; [discriminate |].
  rewrite (int_refuses _ Hd). reflexivity.
Qed.

(** C6. The fallback that the docstring of [node_grade] promises for a
    parse error is not reached by a malformed answer. With candidates
    retrieved, an answer that is not "none" and has no token passing the
    digit test ("maybe", "[0, 1]") is malformed, raises nothing on the way,
    and keeps no candidate: the relevant list is empty, not the retrieved
    list. *)
Theorem malformed_answer_drops_candidates
    (s : RAGState) (n : nat) (content : string) :
  retrieved_chunks s <> [] ->
  llm n 0%Q
    [HumanMessage
       (grade_prompt (PyStr.or_else (rewritten_query s) (query s))
          (retrieved_chunks s))]
  = Content content ->
  PyStr.lower (PyStr.strip content) <> "none" ->
  Spec.digit_tokens (PyStr.lower (PyStr.strip content)) = [] ->
  Spec.malformed content (length (retrieved_chunks s)) = true
  /\ relevant_chunks (fst (node_grade llm settings s n)) = []
  /\ relevant_chunks (fst (node_grade llm settings s n))
     <> retrieved_chunks s.
Proof.
  intros Hne Hresp Hraw Hno.
  assert (Hrel : relevant_chunks (fst (node_grade llm settings s n)) = []).
  { rewrite node_grade_relevant by exact Hne. rewrite Hresp.
    pose proof (grade_try_cases (Content content) (retrieved_chunks s))
      as Hcases.
    cbn beta iota zeta in Hcases.
    pose proof Hraw as Hneq. apply String.eqb_neq in Hneq.
    rewrite Hneq, Hno in Hcases.
    change (mapM PyStr.int []) with (Some (@nil Z)) in Hcases.
    cbn beta iota in Hcases. rewrite Hcases. reflexivity. }
  split; [| split; [exact Hrel | rewrite Hrel; congruence]].
  unfold Spec.malformed. cbn zeta.
  apply String.eqb_neq in Hraw. rewrite Hraw.
  rewrite no_digit_token_ill_formed by exact Hno. reflexivity.
Qed.

End GradeFacts.

Section GraphFacts.

Import VectorStore RagPipeline.

Variable encode : string -> Faiss.vec.
Variable llm : nat -> Q -> list Message -> Completion.
Variable vector_store : VectorStore.t.
Variable settings : Settings.

Local Abbreviation steps := (RagPipeline.steps encode llm vector_store settings).
Local Abbreviation invoke_from :=
  (RagPipeline.invoke_from encode llm vector_store settings).
Local Abbreviation run_node :=
  (RagPipeline.run_node encode llm vector_store settings).
Local Abbreviation graph_invoke :=
  (RagPipeline.graph_invoke encode llm vector_store settings).
Local Abbreviation run_rag :=
  (RagPipeline.run_rag encode llm vector_store settings).
Local Abbreviation node_grade := (RagPipeline.node_grade llm settings).
Local Abbreviation node_retrieve :=
  (RagPipeline.node_retrieve encode vector_store).
Local Abbreviation max_rewrites := (max_rewrite_attempts settings).

(** The run after a retrieval pass: [retrieve] then [grade_chunks]. *)
Local Abbreviation graded x :=
  {| state :=
       fst (node_grade (node_retrieve (state x) (top_k_chunks settings))
              (llm_calls x));
     llm_calls :=
       snd (node_grade (node_retrieve (state x) (top_k_chunks settings))
              (llm_calls x));
     trace := (trace x ++ [retrieve]) ++ [grade_chunks] |}.

(** The run after a rewrite. *)
Local Abbreviation rewritten x :=
  {| state := fst (node_rewrite llm (state x) (llm_calls x));
     llm_calls := S (llm_calls x);
     trace := trace x ++ [rewrite_query] |}.

Lemma steps_add (k k' : nat) (n n' : Node) (x x' : Exec) :
  steps k n x = Some (n', x') ->
  steps (k + k') n x = steps k' n' x'.
Proof.
  revert n x. induction k as [| k IH]; intros n x H; cbn in H.
  - injection H as -> ->. reflexivity.
  - cbn [Nat.add RagPipeline.steps].
    destruct n; try discriminate;
      (destruct (run_node _ x) as [x1 [e |]]; [discriminate |];
       apply IH; exact H).
Qed.

Lemma steps_invoke (k fuel : nat) (n n' : Node) (x x' : Exec) :
  steps k n x = Some (n', x') ->
  invoke_from (k + fuel) n x = invoke_from fuel n' x'.
Proof.
  revert n x. induction k as [| k IH]; intros n x H; cbn in H.
  - injection H as -> ->. reflexivity.
  - cbn [Nat.add RagPipeline.invoke_from].
    destruct n; try discriminate;
      (destruct (run_node _ x) as [x1 [e |]]; [discriminate |];
       apply IH; exact H).
Qed.

Lemma steps_pass (x : Exec) :
  steps 2 retrieve x = Some (_route (state (graded x)), graded x).
Proof.
  cbn. destruct (node_grade _ _) as [s c]. reflexivity.
Qed.

Lemma steps_rewrite (x : Exec) :
  steps 1 rewrite_query x = Some (retrieve, rewritten x).
Proof. reflexivity. Qed.

Lemma node_grade_rewrite_count (s : RAGState) (n : nat) :
  rewrite_count (fst (node_grade s n)) = rewrite_count s.
Proof. unfold RagPipeline.node_grade. destruct (retrieved_chunks s); reflexivity. Qed.

(** [grade_chunks] asks for a rewrite only below the bound. *)
Lemma node_grade_needs_rewrite (s : RAGState) (n : nat) :
  needs_rewrite (fst (node_grade s n)) = true ->
  rewrite_count s < max_rewrites.
Proof.
  unfold RagPipeline.node_grade. destruct (retrieved_chunks s); cbn.
  - apply Z.ltb_lt.
  - intros H. apply andb_true_iff in H as [_ H]. apply Z.ltb_lt. exact H.
Qed.

Lemma graded_rewrite_count (x : Exec) :
  rewrite_count (state (graded x)) = rewrite_count (state x).
Proof. cbn. rewrite node_grade_rewrite_count. reflexivity. Qed.

Lemma rewritten_rewrite_count (x : Exec) :
  rewrite_count (state (rewritten x)) = rewrite_count (state x) + 1.
Proof. reflexivity. Qed.

Lemma count_node_app (n : Node) (l l' : list Node) :
  Spec.count_node n (l ++ l')
  = (Spec.count_node n l + Spec.count_node n l')%nat.
Proof. unfold Spec.count_node. rewrite List.filter_app, length_app. reflexivity. Qed.

(** From [retrieve], with [b] rewrites left at most, the graph comes to
    [generate]; every rewrite on the way adds one to [rewrite_count] and
    is followed by one more retrieval pass. *)
Lemma loop_reaches_generate (b : nat) (x : Exec) :
  max_rewrites - rewrite_count (state x) <= Z.of_nat b ->
  exists (k : nat) (x' : Exec) (t : list Node),
    steps k retrieve x = Some (generate, x')
    /\ trace x' = trace x ++ t
    /\ k = length t
    /\ (Spec.count_node rewrite_query t <= b)%nat
    /\ Spec.count_node retrieve t = S (Spec.count_node rewrite_query t)
    /\ rewrite_count (state x')
       = rewrite_count (state x) + Z.of_nat (Spec.count_node rewrite_query t).
Proof.
  revert x. induction b as [| b IH]; intros x Hb.
  - exists 2%nat, (graded x), [retrieve; grade_chunks].
    assert (Hroute : _route (state (graded x)) = generate).
    { unfold _route.
      destruct (needs_rewrite (state (graded x))) eqn:Hn; [| reflexivity].
      apply node_grade_needs_rewrite in Hn. cbn in Hn. lia. }
    rewrite steps_pass, Hroute.
    repeat split; try reflexivity.
    + cbn [trace]. rewrite <- app_assoc. reflexivity.
    + rewrite graded_rewrite_count. cbn. lia.
  - destruct (needs_rewrite (state (graded x))) eqn:Hn.
    + destruct (IH (rewritten (graded x))) as (k & x' & t & Hk & Ht & Hlen & Hrw & Hre & Hrc).
      { rewrite rewritten_rewrite_count, graded_rewrite_count. lia. }
      exists (2 + (1 + k))%nat, x', ([retrieve; grade_chunks] ++ [rewrite_query] ++ t).
      split.
      { rewrite (steps_add 2 (1 + k) retrieve (_route (state (graded x))) x (graded x))
          by apply steps_pass.
        unfold _route at 1. rewrite Hn.
        rewrite (steps_add 1 k rewrite_query retrieve (graded x) (rewritten (graded x)))
          by apply steps_rewrite.
        exact Hk. }
      split.
      { rewrite Ht. cbn [trace]. rewrite <- !app_assoc. reflexivity. }
      split; [cbn; lia |].
      rewrite !count_node_app.
      change (Spec.count_node rewrite_query [retrieve; grade_chunks]) with 0%nat.
      change (Spec.count_node rewrite_query [rewrite_query]) with 1%nat.
      change (Spec.count_node retrieve [retrieve; grade_chunks]) with 1%nat.
      change (Spec.count_node retrieve [rewrite_query]) with 0%nat.
      split; [lia |]. split; [lia |].
      rewrite Hrc, rewritten_rewrite_count, graded_rewrite_count. lia.
    + exists 2%nat, (graded x), [retrieve; grade_chunks].
      rewrite steps_pass. unfold _route. rewrite Hn.
      repeat split; try reflexivity.
      * cbn [trace]. rewrite <- app_assoc. reflexivity.
      * cbn. lia.
      * rewrite graded_rewrite_count. cbn. lia.
Qed.

Lemma invoke_generate (fuel : nat) (x : Exec) :
  is_Some (invoke_from (S fuel) generate x).
Proof.
  cbn [RagPipeline.invoke_from].
  destruct (run_node generate x) as [x' [e |]]; [eexists; reflexivity |].
  cbn [next_node]. destruct fuel; eexists; reflexivity.
Qed.

(** When every grading prompt is answered with "none", a rewrite is asked
    for exactly while the bound is not reached. *)
Lemma graded_always_none (x : Exec) :
  Spec.always_none llm ->
  needs_rewrite (state (graded x))
  = (rewrite_count (state x) <? max_rewrites).
Proof.
  intros Hnone. cbn [state].
  set (s := node_retrieve (state x) (top_k_chunks settings)).
  assert (Hrc : rewrite_count s = rewrite_count (state x)) by reflexivity.
  rewrite <- Hrc. clearbody s. clear Hrc.
  unfold RagPipeline.node_grade.
  destruct (retrieved_chunks s) as [| c l]; [reflexivity |].
  cbn [fst needs_rewrite].
  destruct (Hnone (llm_calls x) 0%Q
              (PyStr.or_else (rewritten_query s) (RagPipeline.query s)) (c :: l))
    as (content & Hresp & Hraw).
  rewrite Hresp. unfold grade_try. rewrite Hraw. reflexivity.
Qed.

(** C4. Whatever the chat model and the index do, when retrieval asks for
    at least one chunk ([0 < top_k_chunks], the domain of the search) the
    graph comes to [generate] after at most [max_rewrite_attempts + 1]
    retrieval passes, and the run then ends within one more node: each
    rewrite adds one to [rewrite_count], which never exceeds the bound, and
    each rewrite is followed by one more pass. With a bound of 2 and every
    grading answered "none", the run is retrieve, grade, rewrite, retrieve,
    grade, rewrite, retrieve, grade and then [generate]: 3 passes, 2
    rewrites. *)
Theorem retrieval_loop_terminates (q : string) :
  0 < top_k_chunks settings ->
  0 <= max_rewrites ->
  (exists (k : nat) (x : Exec),
      steps k retrieve (start q) = Some (generate, x)
      /\ Z.of_nat (Spec.passes x) <= max_rewrites + 1
      /\ Spec.passes x = S (Spec.rewrites x)
      /\ rewrite_count (state x) = Z.of_nat (Spec.rewrites x)
      /\ rewrite_count (state x) <= max_rewrites
      /\ forall fuel, (k < fuel)%nat -> is_Some (graph_invoke fuel q))
  /\ (max_rewrites = 2 -> Spec.always_none llm ->
      exists x : Exec,
        steps 8 retrieve (start q) = Some (generate, x)
        /\ trace x = [retrieve; grade_chunks; rewrite_query;
                      retrieve; grade_chunks; rewrite_query;
                      retrieve; grade_chunks]
        /\ Spec.passes x = 3%nat
        /\ Spec.rewrites x = 2%nat
        /\ rewrite_count (state x) = 2).
Proof.
  intros _ Hmax. split.
  - destruct (loop_reaches_generate (Z.to_nat max_rewrites) (start q))
      as (k & x & t & Hk & Ht & Hlen & Hrw & Hre & Hrc).
    { cbn. lia. }
    cbn [start trace state initial rewrite_count app] in Ht, Hrc.
    exists k, x. unfold Spec.passes, Spec.rewrites. rewrite Ht.
    split; [exact Hk |]. split; [lia |]. split; [exact Hre |].
    split; [lia |]. split; [lia |].
    intros fuel Hfuel. unfold RagPipeline.graph_invoke.
    replace fuel with (k + S (fuel - k - 1))%nat by lia.
    rewrite (steps_invoke k _ retrieve generate (start q) x Hk).
    apply invoke_generate.
  - intros Htwo Hnone.
    set (x1 := rewritten (graded (start q))).
    set (x2 := rewritten (graded x1)).
    exists (graded x2).
    assert (H0 : needs_rewrite (state (graded (start q))) = true).
    { rewrite graded_always_none by exact Hnone. rewrite Htwo. reflexivity. }
    assert (H1 : needs_rewrite (state (graded x1)) = true).
    { rewrite graded_always_none by exact Hnone. rewrite Htwo.
      unfold x1. rewrite rewritten_rewrite_count, graded_rewrite_count.
      reflexivity. }
    assert (H2 : needs_rewrite (state (graded x2)) = false).
    { rewrite graded_always_none by exact Hnone. rewrite Htwo.
      unfold x2. rewrite rewritten_rewrite_count, graded_rewrite_count.
      unfold x1. rewrite rewritten_rewrite_count, graded_rewrite_count.
      reflexivity. }
    split.
    { change 8%nat with (2 + (1 + (2 + (1 + 2))))%nat.
      rewrite (steps_add 2 _ retrieve _ (start q) _ (steps_pass (start q))).
      unfold _route at 1. rewrite H0.
      rewrite (steps_add 1 _ rewrite_query _ _ _ (steps_rewrite (graded (start q)))).
      fold x1.
      rewrite (steps_add 2 _ retrieve _ x1 _ (steps_pass x1)).
      unfold _route at 1. rewrite H1.
      rewrite (steps_add 1 _ rewrite_query _ _ _ (steps_rewrite (graded x1))).
      fold x2.
      rewrite steps_pass. unfold _route. rewrite H2. reflexivity. }
    split; [reflexivity |]. split; [reflexivity |]. split; [reflexivity |].
    rewrite graded_rewrite_count.
    unfold x2. rewrite rewritten_rewrite_count, graded_rewrite_count.
    unfold x1. rewrite rewritten_rewrite_count, graded_rewrite_count.
    reflexivity.
Qed.

(** C9. The graph has come to [generate] with a candidate to answer
    from, and the call to the chat model raises: the run raises, the
    caller of [run_rag] gets the error and no answer. *)
Theorem generation_failure_fails_run
    (q : string) (k fuel : nat) (x : Exec) (e : string) :
  steps k retrieve (start q) = Some (generate, x) ->
  generate_chunks (state x) <> [] ->
  llm (llm_calls x) (groq_temperature settings)
    [SystemMessage generate_system;
     HumanMessage
       (generate_human
          (PyStr.or_else (rewritten_query (state x)) (query (state x)))
          (generate_chunks (state x)))]
  = Raises e ->
  (k < fuel)%nat ->
  exists x' : Exec,
    run_rag fuel q = Some (x', Raise ("LLM generation failed: " +:+ e))
    /\ state x' = state x.
Proof.
  intros Hk Hchunks Hraise Hfuel.
  exists {| state := state x; llm_calls := S (llm_calls x);
            trace := trace x ++ [generate] |}.
  split; [| reflexivity].
  unfold RagPipeline.run_rag, RagPipeline.graph_invoke.
  replace fuel with (k + S (fuel - k - 1))%nat by lia.
  rewrite (steps_invoke k _ retrieve generate (start q) x Hk).
  cbn [RagPipeline.invoke_from RagPipeline.run_node].
  unfold node_generate.
  destruct (generate_chunks (state x)) as [| c l] eqn:Hc; [congruence |].
  rewrite Hraise. reflexivity.
Qed.

Lemma search_empty_index (q : string) (k : Z) :
  _index vector_store = [] -> search encode vector_store q k = [].
Proof. intros H. unfold search. rewrite H. reflexivity. Qed.

(** A retrieval pass over an index without vectors: nothing retrieved,
    nothing relevant, the chat model not called. *)
Lemma graded_empty_index (x : Exec) :
  _index vector_store = [] ->
  graded x
  = {| state :=
         {| query := query (state x);
            rewritten_query := rewritten_query (state x);
            retrieved_chunks := []; relevant_chunks := [];
            answer := answer (state x); sources := sources (state x);
            rewrite_count := rewrite_count (state x);
            needs_rewrite := rewrite_count (state x) <? max_rewrites |};
       llm_calls := llm_calls x;
       trace := (trace x ++ [retrieve]) ++ [grade_chunks] |}.
Proof.
  intros H. unfold RagPipeline.node_retrieve.
  rewrite search_empty_index by exact H. reflexivity.
Qed.

Lemma graded_empty_index_calls (x : Exec) :
  _index vector_store = [] -> llm_calls (graded x) = llm_calls x.
Proof. intros H. rewrite graded_empty_index by exact H. reflexivity. Qed.

Lemma rewritten_llm_calls (x : Exec) :
  llm_calls (rewritten x) = S (llm_calls x).
Proof. reflexivity. Qed.

Lemma invoke_END (fuel : nat) (x : Exec) :
  invoke_from fuel END x = Some (x, None).
Proof. destruct fuel; reflexivity. Qed.

(** [generate] without a candidate: the fixed answer, no call. *)
Lemma invoke_generate_no_chunks (fuel : nat) (x : Exec) :
  generate_chunks (state x) = [] ->
  exists x' : Exec,
    invoke_from (S fuel) generate x = Some (x', None)
    /\ answer (state x') = not_found_answer
    /\ sources (state x') = []
    /\ relevant_chunks (state x') = relevant_chunks (state x)
    /\ retrieved_chunks (state x') = retrieved_chunks (state x)
    /\ llm_calls x' = llm_calls x
    /\ trace x' = trace x ++ [generate].
Proof.
  intros Hc. cbn [RagPipeline.invoke_from RagPipeline.run_node].
  unfold node_generate. rewrite Hc. cbn [next_node state].
  rewrite invoke_END. eexists. split; [reflexivity |].
  repeat split; reflexivity.
Qed.

Lemma empty_index_loop (b : nat) (x : Exec) (fuel : nat) :
  _index vector_store = [] ->
  Z.to_nat (max_rewrites - rewrite_count (state x)) = b ->
  (3 * b + 3 <= fuel)%nat ->
  exists x' : Exec,
    invoke_from fuel retrieve x = Some (x', None)
    /\ answer (state x') = not_found_answer
    /\ sources (state x') = []
    /\ relevant_chunks (state x') = []
    /\ retrieved_chunks (state x') = []
    /\ llm_calls x' = (llm_calls x + b)%nat
    /\ Spec.rewrites x' = (Spec.rewrites x + b)%nat.
Proof.
  intros Hidx. revert x fuel. induction b as [| b IH]; intros x fuel Hb Hfuel.
  - replace fuel with (2 + S (fuel - 3))%nat by lia.
    rewrite (steps_invoke 2 _ retrieve _ x _ (steps_pass x)).
    rewrite graded_empty_index by exact Hidx.
    unfold _route. cbn [state needs_rewrite].
    replace (rewrite_count (state x) <? max_rewrites) with false
      by (symmetry; apply Z.ltb_ge; lia).
    match goal with
    | |- context [invoke_from _ generate ?y] =>
        destruct (invoke_generate_no_chunks (fuel - 3) y)
          as (x' & Hrun & Ha & Hs & Hrel & Hret & Hcalls & Htr);
          [reflexivity |]
    end.
    exists x'. split; [exact Hrun |].
    split; [exact Ha |]. split; [exact Hs |].
    split; [rewrite Hrel; reflexivity |].
    split; [rewrite Hret; reflexivity |].
    split; [rewrite Hcalls; cbn; lia |].
    unfold Spec.rewrites. rewrite Htr. cbn [trace].
    rewrite !count_node_app. cbn. lia.
  - replace fuel with (2 + (1 + (fuel - 3)))%nat by lia.
    rewrite (steps_invoke 2 _ retrieve _ x _ (steps_pass x)).
    unfold _route.
    assert (Hn : needs_rewrite (state (graded x)) = true).
    { rewrite graded_empty_index by exact Hidx. cbn. apply Z.ltb_lt. lia. }
    rewrite Hn.
    rewrite (steps_invoke 1 _ rewrite_query _ _ _ (steps_rewrite (graded x))).
    destruct (IH (rewritten (graded x)) (fuel - 3)%nat)
      as (x' & Hrun & Ha & Hs & Hrel & Hret & Hcalls & Hrw).
    { rewrite rewritten_rewrite_count, graded_rewrite_count. lia. }
    { lia. }
    exists x'. split; [exact Hrun |].
    repeat split; try assumption.
    + rewrite Hcalls, rewritten_llm_calls.
      rewrite graded_empty_index_calls by exact Hidx. lia.
    + rewrite Hrw. unfold Spec.rewrites. cbn [trace].
      rewrite !count_node_app. cbn. lia.
Qed.

(** C5, as the code has it. Over an index without vectors the run ends
    with the fixed not-found answer and no sources. Grading and
    generation do not call the chat model, every rewrite does: it is
    invoked [max_rewrite_attempts] times, not at all only when that bound
    is zero or less. *)
Theorem empty_index_not_found (q : string) (fuel : nat) :
  _index vector_store = [] ->
  (3 * Z.to_nat max_rewrites + 3 <= fuel)%nat ->
  exists x : Exec,
    run_rag fuel q
    = Some (x, Ok {| out_answer := not_found_answer;
                     out_sources := [];
                     out_rewritten_query := rewritten_query (state x);
                     out_chunk_count := 0 |})
    /\ llm_calls x = Z.to_nat max_rewrites
    /\ Spec.rewrites x = Z.to_nat max_rewrites.
Proof.
  intros Hidx Hfuel.
  destruct (empty_index_loop (Z.to_nat max_rewrites) (start q) fuel)
    as (x & Hrun & Ha & Hs & Hrel & Hret & Hcalls & Hrw);
    [exact Hidx | cbn; f_equal; lia | exact Hfuel |].
  exists x. split; [| split; [exact Hcalls | exact Hrw]].
  unfold RagPipeline.run_rag, RagPipeline.graph_invoke.
  rewrite Hrun, Ha, Hs, Hrel, Hret. reflexivity.
Qed.

End GraphFacts.

(** * The theorems at concrete inputs *)

Section Instances.

Import VectorStore RagPipeline.

Local Abbreviation question_state :=
  (Spec.with_retrieved (initial "q") [Spec.alpha_hit]).

(** A search with [k = 5] over the index of one document. *)
Lemma search_nearest_filtered_truncated_witness :
  0 < 5
  /\ search Spec.unit_encoder Spec.one_document "alpha" 5
     = firstn 5
         (Spec.surviving (_meta Spec.one_document)
            (Faiss.search (_index Spec.one_document)
               (Spec.unit_encoder "alpha")
               (Z.min (5 * 4) (total_vectors Spec.one_document))))
  /\ Z.of_nat (length (search Spec.unit_encoder Spec.one_document "alpha" 5)) <= 5.
Proof.
  assert (Hk : 0 < 5) by lia.
  destruct (search_nearest_filtered_truncated
              Spec.unit_encoder Spec.one_document "alpha" 5 Hk)
    as (_ & _ & Heq & Hlen & _).
  split; [exact Hk |]. split; [exact Heq | exact Hlen].
Defined.

(** The deleted document is found with [k = 5]. *)
Lemma delete_doc_leaves_reinserted_chunk_witness :
  0 < 5
  /\ Exists (fun h => doc_id (hit_meta h) = "d")
       (search Spec.unit_encoder
          (delete_doc (Spec.twice Spec.unit_encoder) "d") "q" 5).
Proof.
  assert (Hk : 0 < 5) by lia.
  split; [exact Hk |].
  exact (proj2 (delete_doc_leaves_reinserted_chunk Spec.unit_encoder "q" 5 Hk)).
Defined.

(** The default bound of 2 and a chat model that says "none". *)
Lemma retrieval_loop_terminates_witness :
  0 < top_k_chunks default_settings
  /\ 0 <= max_rewrite_attempts default_settings
  /\ max_rewrite_attempts default_settings = 2
  /\ Spec.always_none (Spec.says "none")
  /\ exists x : Exec,
       steps Spec.unit_encoder (Spec.says "none") Spec.one_document
         default_settings 8 retrieve (start "anything")
       = Some (generate, x)
       /\ Spec.passes x = 3%nat /\ Spec.rewrites x = 2%nat.
Proof.
  assert (Hk : 0 < top_k_chunks default_settings) by (cbn; lia).
  assert (Hmax : 0 <= max_rewrite_attempts default_settings) by (cbn; lia).
  assert (Htwo : max_rewrite_attempts default_settings = 2) by reflexivity.
  assert (Hnone : Spec.always_none (Spec.says "none")).
  { intros n temperature q chunks. exists "none". split; reflexivity. }
  split; [exact Hk |].
  split; [exact Hmax |]. split; [exact Htwo |]. split; [exact Hnone |].
  destruct (proj2 (retrieval_loop_terminates
                     Spec.unit_encoder (Spec.says "none") Spec.one_document
                     default_settings "anything" Hk Hmax) Htwo Hnone)
    as (x & Hsteps & _ & Hpasses & Hrewrites & _).
  exists x. split; [exact Hsteps |]. split; [exact Hpasses | exact Hrewrites].
Defined.

(** The chat model cannot be reached: grading keeps the one candidate and
    generation fails the run. *)
Lemma generation_failure_fails_run_witness :
  exists x : Exec,
    steps Spec.unit_encoder Spec.unreachable Spec.one_document
      default_settings 2 retrieve (start "alpha")
    = Some (generate, x)
    /\ generate_chunks (state x) <> []
    /\ (2 < 3)%nat
    /\ exists x' : Exec,
         run_rag Spec.unit_encoder Spec.unreachable Spec.one_document
           default_settings 3 "alpha"
         = Some (x', Raise "LLM generation failed: connection refused").
Proof.
  eexists. split; [lazy; reflexivity |].
  assert (Hchunks :
            generate_chunks
              (state
                 {| state :=
                      {| query := "alpha"; rewritten_query := "";
                         retrieved_chunks := [Spec.alpha_hit];
                         relevant_chunks := [Spec.alpha_hit];
                         answer := ""; sources := [];
                         rewrite_count := 0; needs_rewrite := false |};
                    llm_calls := 1;
                    trace := [retrieve; grade_chunks] |}) <> [])
    by discriminate.
  split; [exact Hchunks |].
  assert (Hfuel : (2 < 3)%nat) by lia.
  split; [exact Hfuel |].
  destruct (generation_failure_fails_run
              Spec.unit_encoder Spec.unreachable Spec.one_document
              default_settings "alpha" 2 3 _ "connection refused"
              eq_refl Hchunks eq_refl Hfuel) as (x' & Hrun & _).
  exists x'. exact Hrun.
Defined.

(** The empty index with the default bound of 2. *)
Lemma empty_index_not_found_witness :
  _index fresh = []
  /\ (3 * Z.to_nat (max_rewrite_attempts default_settings) + 3 <= 9)%nat
  /\ exists x : Exec,
       run_rag Spec.unit_encoder (Spec.says "none") fresh default_settings
         9 "anything"
       = Some (x, Ok {| out_answer := not_found_answer;
                        out_sources := [];
                        out_rewritten_query := rewritten_query (state x);
                        out_chunk_count := 0 |})
       /\ llm_calls x = 2%nat.
Proof.
  assert (Hidx : _index fresh = []) by reflexivity.
  assert (Hfuel : (3 * Z.to_nat (max_rewrite_attempts default_settings) + 3 <= 9)%nat)
    by (cbn; lia).
  split; [exact Hidx |]. split; [exact Hfuel |].
  destruct (empty_index_not_found
              Spec.unit_encoder (Spec.says "none") fresh default_settings
              "anything" 9 Hidx Hfuel) as (x & Hrun & Hcalls & _).
  exists x. split; [exact Hrun | exact Hcalls].
Defined.

(** C5, refuted as stated. The pipeline runs over the empty index with the
    default settings: it returns the not-found answer without sources, and
    the chat model has been invoked twice, once per rewrite. *)
Lemma empty_index_invokes_chat_model :
  exists (x : Exec) (a : Answer),
    run_rag Spec.unit_encoder (Spec.says "none") fresh default_settings
      9 "anything"
    = Some (x, Ok a)
    /\ out_answer a = not_found_answer
    /\ out_sources a = []
    /\ llm_calls x = 2%nat
    /\ llm_calls x <> 0%nat
    /\ trace x = [retrieve; grade_chunks; rewrite_query;
                  retrieve; grade_chunks; rewrite_query;
                  retrieve; grade_chunks; generate].
Proof.
  eexists. eexists. split; [lazy; reflexivity |].
  cbn. repeat split; try reflexivity. discriminate.
Qed.

(** The chat model cannot be reached while grading. *)
Lemma grade_fallback_on_exception_witness :
  retrieved_chunks question_state <> []
  /\ relevant_chunks
       (fst (node_grade Spec.unreachable default_settings question_state 0))
     = retrieved_chunks question_state.
Proof.
  assert (Hne : retrieved_chunks question_state <> []) by discriminate.
  split; [exact Hne |].
  exact (proj1 (grade_fallback_on_exception
                  Spec.unreachable default_settings question_state 0 Hne)
           "connection refused" eq_refl).
Defined.

(** One candidate is retrieved and the chat model answers "maybe", which
    is neither "none" nor a list of indices: no candidate is kept. *)
Lemma malformed_answer_drops_candidates_witness :
  retrieved_chunks question_state <> []
  /\ Spec.says "maybe" 0%nat 0%Q
       [HumanMessage
          (grade_prompt
             (PyStr.or_else (rewritten_query question_state)
                (query question_state))
             (retrieved_chunks question_state))]
     = Content "maybe"
  /\ PyStr.lower (PyStr.strip "maybe") <> "none"
  /\ Spec.digit_tokens (PyStr.lower (PyStr.strip "maybe")) = []
  /\ Spec.malformed "maybe" (length (retrieved_chunks question_state)) = true
  /\ relevant_chunks
       (fst (node_grade (Spec.says "maybe") default_settings question_state 0))
     = []
  /\ relevant_chunks
       (fst (node_grade (Spec.says "maybe") default_settings question_state 0))
     <> retrieved_chunks question_state.
Proof.
  assert (Hne : retrieved_chunks question_state <> []) by discriminate.
  assert (Hraw : PyStr.lower (PyStr.strip "maybe") <> "none")
    by (vm_compute; discriminate).
  assert (Hno : Spec.digit_tokens (PyStr.lower (PyStr.strip "maybe")) = [])
    by reflexivity.
  split; [exact Hne |]. split; [reflexivity |].
  split; [exact Hraw |]. split; [exact Hno |].
  exact (malformed_answer_drops_candidates
           (Spec.says "maybe") default_settings question_state 0 "maybe"
           Hne eq_refl Hraw Hno).
Defined.

(** The answer "0, 7, x" over one candidate: index 0 selects it, 7 is out
    of range and "x" is not a number. *)
Lemma grade_selects_among_retrieved_witness :
  retrieved_chunks question_state <> []
  /\ PyStr.lower (PyStr.strip "0, 7, x") <> "none"
  /\ mapM PyStr.int (Spec.digit_tokens (PyStr.lower (PyStr.strip "0, 7, x")))
     = Some [0; 7]
  /\ relevant_chunks
       (fst (node_grade (Spec.says "0, 7, x") default_settings question_state 0))
     = [Spec.alpha_hit].
Proof.
  assert (Hne : retrieved_chunks question_state <> []) by discriminate.
  assert (Hraw : PyStr.lower (PyStr.strip "0, 7, x") <> "none") by discriminate.
  assert (Hidx : mapM PyStr.int
                   (Spec.digit_tokens (PyStr.lower (PyStr.strip "0, 7, x")))
                 = Some [0; 7]) by reflexivity.
  split; [exact Hne |]. split; [exact Hraw |]. split; [exact Hidx |].
  exact (proj2 (grade_selects_among_retrieved
                  (Spec.says "0, 7, x") default_settings question_state 0)
           Hne "0, 7, x" [0; 7] eq_refl Hraw Hidx).
Defined.

End Instances.

(** * Further properties of the vector store *)

Section ReachableFacts.
Import VectorStore.
Variable encode : string -> Faiss.vec.

(** The records after [add_chunks]: the old ones followed by one per chunk. *)
Lemma add_chunks_records (self : t) (d n : string) (chunks : list string) :
  length (_meta self) = length (_index self) ->
  _meta (fst (add_chunks encode self d n chunks))
  = _meta self
    ++ imap (fun j c => Some (mkMeta d n (Z.of_nat j) c false)) chunks.
Proof.
  intros Hlen.
  destruct (decide (chunks = [])) as [-> | Hne].
  { cbn. rewrite app_nil_r. reflexivity. }
  destruct (add_chunks_meta encode self d n chunks Hlen Hne) as (Hlen' & Hold & Hnew).
  apply list_eq. intros p.
  destruct (decide (p < length (_index self))%nat) as [Hp | Hp].
  - rewrite Hold by exact Hp. rewrite lookup_app_l by lia. reflexivity.
  - rewrite lookup_app_r by lia. rewrite list_lookup_imap.
    destruct (chunks !! (p - length (_meta self))%nat) as [c |] eqn:Hc.
    + pose proof (Hnew _ c Hc) as H.
      replace (length (_index self) + (p - length (_meta self)))%nat with p in H by lia.
      rewrite H. reflexivity.
    + apply lookup_ge_None in Hc. apply lookup_ge_None. lia.
Qed.

Lemma filter_none {A} (P : A -> bool) (l : list A) :
  (forall x, x ∈ l -> P x = false) -> List.filter P l = [].
Proof.
  induction l as [| x l IH]; intros H; [reflexivity |].
  cbn. rewrite (H x) by left. apply IH. intros y Hy. apply H. right. exact Hy.
Qed.

Lemma add_chunks_sound (self : t) (d n : string) (chunks : list string) :
  Notions.sound self ->
  Notions.sound (fst (add_chunks encode self d n chunks)).
Proof.
  intros Hs.
  destruct (decide (chunks = [])) as [-> | Hne]; [exact Hs |].
  destruct Hs as (Hlen & Hsome & Hown & Hnd & Hcount).
  pose proof (add_chunks_records self d n chunks Hlen) as Hrec.
  assert (Hpos : forall d',
             Spec.positions_of (fst (add_chunks encode self d n chunks)) d'
             = if decide (d = d') then seq (length (_index self)) (length chunks)
               else Spec.positions_of self d').
  { intros d'. unfold Spec.positions_of.
    rewrite add_chunks_doc_map by exact Hne.
    rewrite lookup_insert. destruct (decide (d = d')); reflexivity. }
  split; [| split; [| split; [| split]]].
  - rewrite Hrec, add_chunks_index, !length_app, length_imap, length_map. lia.
  - rewrite Hrec. apply Forall_app. split; [exact Hsome |].
    apply Forall_forall. intros e He.
    apply elem_of_lookup_imap in He as (j & c & -> & _). discriminate.
  - intros d' p Hin. rewrite Hpos in Hin. rewrite Hrec.
    destruct (decide (d = d')) as [<- | Hd].
    + apply list_elem_of_In, in_seq in Hin.
      destruct (lookup_lt_is_Some_2 chunks (p - length (_index self))) as [c Hc];
        [lia |].
      exists (mkMeta d n (Z.of_nat (p - length (_index self))) c false).
      split; [| split; reflexivity].
      rewrite lookup_app_r by lia. rewrite list_lookup_imap.
      replace (p - length (_meta self))%nat with (p - length (_index self))%nat by lia.
      rewrite Hc. reflexivity.
    + destruct (Hown d' p Hin) as (m & Hm & Ha & Hd').
      exists m. split; [| auto].
      rewrite lookup_app_l; [exact Hm |]. eapply lookup_lt_Some. exact Hm.
  - intros d'. rewrite Hpos. destruct (decide (d = d')); [| apply Hnd].
    apply NoDup_seq.
  - cbn [_del_count]. unfold Notions.deleted_records.
    replace (_del_count (fst (add_chunks encode self d n chunks)))
      with (_del_count self) by (destruct chunks; reflexivity).
    rewrite Hrec, List.filter_app.
    rewrite (filter_none Notions.is_deleted (imap _ chunks)).
    + rewrite app_nil_r. exact Hcount.
    + intros e He. apply elem_of_lookup_imap in He as (j & c & -> & _).
      reflexivity.
Qed.

Lemma deleted_count_insert (meta : list (option Meta)) (a : nat) (m : Meta) :
  meta !! a = Some (Some m) ->
  deleted m = false ->
  length (List.filter Notions.is_deleted (<[a := Some (mark_deleted m)]> meta))
  = S (length (List.filter Notions.is_deleted meta)).
Proof.
  intros Ha Hm.
  rewrite insert_take_drop by (eapply lookup_lt_Some; exact Ha).
  rewrite <- (take_drop_middle meta a (Some m) Ha) at 3.
  rewrite !List.filter_app, !length_app. cbn. rewrite Hm. cbn. lia.
Qed.

(** The loop of [delete_doc] over distinct positions of live records: one
    more deleted record and one more on the counter per position. *)
Lemma delete_loop_count (positions : list nat) :
  forall (meta : list (option Meta)) (count : Z),
    NoDup positions ->
    (forall p, p ∈ positions ->
       exists m, meta !! p = Some (Some m) /\ deleted m = false) ->
    snd (foldl delete_pos (meta, count) positions)
    = count + Z.of_nat (length positions)
    /\ length (List.filter Notions.is_deleted
                 (fst (foldl delete_pos (meta, count) positions)))
       = (length (List.filter Notions.is_deleted meta) + length positions)%nat.
Proof.
  induction positions as [| a positions IH]; intros meta count Hnd Hlive.
  - cbn. split; lia.
  - apply NoDup_cons in Hnd as [Ha Hnd].
    destruct (Hlive a) as (m & Hm & Hd); [left |].
    cbn [foldl]. unfold delete_pos at 2 4. rewrite Hm.
    destruct (IH (<[a := Some (mark_deleted m)]> meta) (count + 1) Hnd) as [Hc Hl].
    { intros p Hp. destruct (Hlive p) as (m' & Hm' & Hd'); [right; exact Hp |].
      exists m'. split; [| exact Hd'].
      rewrite list_lookup_insert_ne; [exact Hm' |].
      intros ->. contradiction. }
    rewrite Hc, Hl. rewrite (deleted_count_insert meta a m Hm Hd).
    cbn [length]. split; lia.
Qed.

Lemma delete_doc_del_count (self : t) (d : string) :
  _del_count (delete_doc self d)
  = snd (foldl delete_pos (_meta self, _del_count self)
           (Spec.positions_of self d)).
Proof.
  unfold delete_doc, Spec.positions_of.
  destruct (foldl delete_pos _ _) as [meta count]. reflexivity.
Qed.

Lemma delete_doc_records (self : t) (d : string) :
  _meta (delete_doc self d)
  = fst (foldl delete_pos (_meta self, _del_count self)
           (Spec.positions_of self d)).
Proof.
  unfold delete_doc, Spec.positions_of.
  destruct (foldl delete_pos _ _) as [meta count]. reflexivity.
Qed.

Lemma delete_doc_sound (self : t) (d : string) :
  Notions.sound self -> Notions.sound (delete_doc self d).
Proof.
  intros (Hlen & Hsome & Hown & Hnd & Hcount).
  split; [| split; [| split; [| split]]].
  - rewrite delete_doc_meta_length, delete_doc_index. exact Hlen.
  - apply Forall_lookup. intros p e He. rewrite delete_doc_meta in He.
    pose proof (proj1 (Forall_lookup _ _) Hsome p) as Hp.
    destruct (decide _); [| eapply Hp; exact He].
    destruct (_meta self !! p) as [[m |] |] eqn:Hm; cbn in He;
      try discriminate; injection He as <-; [discriminate |].
    exfalso. eapply Hp; reflexivity.
  - intros d' p Hin. rewrite delete_doc_positions in Hin.
    destruct (decide (d = d')) as [_ | Hd]; [apply elem_of_nil in Hin; destruct Hin |].
    destruct (Hown d' p Hin) as (m & Hm & Ha & Hd').
    exists m. split; [| auto]. rewrite delete_doc_meta.
    destruct (decide (p ∈ Spec.positions_of self d)) as [Hp | _]; [| exact Hm].
    destruct (Hown d p Hp) as (m' & Hm' & _ & Hdm'). congruence.
  - intros d'. rewrite delete_doc_positions.
    destruct (decide (d = d')); [constructor | apply Hnd].
  - rewrite delete_doc_del_count. unfold Notions.deleted_records.
    rewrite delete_doc_records.
    destruct (delete_loop_count (Spec.positions_of self d) (_meta self)
                (_del_count self) (Hnd d)) as [Hc Hl].
    { intros p Hp. destruct (Hown d p Hp) as (m & Hm & Ha & _). eauto. }
    rewrite Hc, Hl, Hcount. unfold Notions.deleted_records. lia.
Qed.

(** The loop of [rebuild_index] gives every document distinct positions. *)
Lemma setdefault_append_nodup (records : list Meta) :
  forall (s : nat) (doc_map : gmap string (list nat)),
    (forall d, NoDup (default [] (doc_map !! d))
               /\ Forall (fun p => (p < s)%nat) (default [] (doc_map !! d))) ->
    forall d,
      NoDup (default [] (foldl setdefault_append doc_map
                           (imap (fun i m => ((s + i)%nat, m)) records) !! d)).
Proof.
  induction records as [| r records IH]; intros s doc_map Hinv d.
  - cbn. apply Hinv.
  - cbn [imap foldl].
    rewrite (imap_ext _ (fun i m => ((S s + i)%nat, m)))
      by (intros i m _; cbn; f_equal; lia).
    apply IH. intros d'. unfold setdefault_append. cbn [fst snd].
    rewrite lookup_insert. rewrite Nat.add_0_r.
    destruct (decide (doc_id r = d')) as [<- | Hd].
    + destruct (Hinv (doc_id r)) as [Hnd Hlt]. cbn. split.
      * apply NoDup_app. split; [exact Hnd |]. split; [| apply NoDup_singleton].
        intros p Hp Hs. apply list_elem_of_singleton in Hs. subst p.
        pose proof (proj1 (Forall_forall _ _) Hlt _ Hp) as Hbad.
        cbn in Hbad. lia.
      * apply Forall_app. split.
        -- eapply Forall_impl; [exact Hlt |]. intros p Hp. cbn in Hp. lia.
        -- constructor; [lia | constructor].
    + destruct (Hinv d') as [Hnd Hlt]. split; [exact Hnd |].
      eapply Forall_impl; [exact Hlt |]. intros p Hp. cbn in Hp. lia.
Qed.

Lemma fresh_sound : Notions.sound fresh.
Proof.
  split; [reflexivity |]. split; [constructor |]. split.
  - intros d p H. unfold Spec.positions_of in H. cbn in H.
    rewrite lookup_empty in H. apply elem_of_nil in H. destruct H.
  - split; [| reflexivity].
    intros d. unfold Spec.positions_of. cbn. rewrite lookup_empty. constructor.
Qed.

Lemma rebuild_index_sound (self : t) :
  Notions.sound (fst (rebuild_index encode self)).
Proof.
  unfold rebuild_index.
  destruct (alive_records (_meta self)) as [| r records] eqn:Halive;
    [apply fresh_sound |].
  cbn [fst]. rewrite <- Halive.
  assert (Hdel : forall m, m ∈ alive_records (_meta self) -> deleted m = false)
    by apply alive_records_lookup.
  set (alive := alive_records (_meta self)) in *. clearbody alive.
  split; [| split; [| split; [| split]]].
  - cbn. unfold Faiss.add. cbn. rewrite !length_map. reflexivity.
  - cbn [_meta]. apply Forall_forall. intros e He.
    apply list_elem_of_fmap in He as (m & -> & _). discriminate.
  - intros d p Hin. unfold Spec.positions_of in Hin. cbn [_doc_map] in Hin.
    apply rebuild_index_positions in Hin as (m & Hm & Hd).
    exists m. cbn [_meta]. rewrite list_lookup_fmap, Hm.
    split; [reflexivity |]. split; [| exact Hd].
    apply Hdel. eapply list_elem_of_lookup_2. exact Hm.
  - intros d. unfold Spec.positions_of. cbn [_doc_map]. unfold enumerate.
    apply (setdefault_append_nodup alive 0 ∅).
    intros d'. rewrite lookup_empty. cbn. split; constructor.
  - cbn [_del_count]. unfold Notions.deleted_records. cbn [_meta].
    rewrite filter_none; [reflexivity |].
    intros e He. apply list_elem_of_fmap in He as (m & -> & Hm).
    cbn. apply Hdel. exact Hm.
Qed.

(** Every state reached from the empty index is sound. *)
Lemma run_sound (ops : list Spec.op) : Notions.sound (Spec.run encode ops).
Proof.
  unfold Spec.run.
  assert (H : forall s, Notions.sound s ->
                        Notions.sound (foldl (Spec.apply encode) s ops)).
  { induction ops as [| o ops IH]; intros s Hs; [exact Hs |].
    cbn [foldl]. apply IH. destruct o as [d n chunks | d |]; cbn.
    - apply add_chunks_sound. exact Hs.
    - apply delete_doc_sound. exact Hs.
    - apply rebuild_index_sound. }
  apply H, fresh_sound.
Qed.

Lemma live_plus_deleted (meta : list (option Meta)) :
  Forall (fun entry => entry <> None) meta ->
  (length (List.filter alive meta)
   + length (List.filter Notions.is_deleted meta))%nat = length meta.
Proof.
  induction 1 as [| e meta He _ IH]; [reflexivity |].
  destruct e as [m |]; [| congruence].
  cbn. destruct (deleted m); cbn; lia.
Qed.

(** X1. In every state reached from the empty index by inserts, deletes
    and rebuilds, there are as many records as stored vectors and every
    slot holds a record. *)
Theorem reachable_records_match_vectors (ops : list Spec.op) :
  length (_meta (Spec.run encode ops)) = length (_index (Spec.run encode ops))
  /\ forall p, (p < length (_index (Spec.run encode ops)))%nat ->
       exists m, _meta (Spec.run encode ops) !! p = Some (Some m).
Proof.
  destruct (run_sound ops) as (Hlen & Hsome & _).
  split; [exact Hlen |]. intros p Hp.
  destruct (lookup_lt_is_Some_2 (_meta (Spec.run encode ops)) p) as [e He];
    [lia |].
  destruct e as [m |]; [eauto |].
  exfalso. eapply (proj1 (Forall_lookup _ _) Hsome); [exact He | reflexivity].
Qed.

(** X2. In every reachable state, a position listed for a document holds
    a record of that document that is not deleted; so no position is listed
    for two documents, and none twice for one. *)
Theorem reachable_owned_positions_live (ops : list Spec.op) :
  (forall d p, Spec.owns (Spec.run encode ops) d p ->
     exists m, _meta (Spec.run encode ops) !! p = Some (Some m)
               /\ deleted m = false /\ doc_id m = d)
  /\ (forall p d1 d2,
        Spec.owns (Spec.run encode ops) d1 p ->
        Spec.owns (Spec.run encode ops) d2 p -> d1 = d2)
  /\ (forall d ps, _doc_map (Spec.run encode ops) !! d = Some ps -> NoDup ps).
Proof.
  destruct (run_sound ops) as (_ & _ & Hown & Hnd & _).
  split; [| split].
  - intros d p H. apply Hown, owns_positions_of, H.
  - intros p d1 d2 H1 H2.
    apply owns_positions_of in H1. apply owns_positions_of in H2.
    destruct (Hown d1 p H1) as (m1 & Hm1 & _ & <-).
    destruct (Hown d2 p H2) as (m2 & Hm2 & _ & <-).
    congruence.
  - intros d ps Hps. specialize (Hnd d).
    unfold Spec.positions_of in Hnd. rewrite Hps in Hnd. exact Hnd.
Qed.

(** X3. In every reachable state the deleted counter is the number of
    records marked deleted, and [active_vectors] is the number of records
    that are not. *)
Theorem reachable_active_vectors (ops : list Spec.op) :
  _del_count (Spec.run encode ops)
  = Z.of_nat (Notions.deleted_records (Spec.run encode ops))
  /\ active_vectors (Spec.run encode ops)
     = Z.of_nat (Notions.live_records (Spec.run encode ops)).
Proof.
  destruct (run_sound ops) as (Hlen & Hsome & _ & _ & Hcount).
  split; [exact Hcount |].
  unfold active_vectors, Faiss.ntotal. rewrite Hcount, <- Hlen.
  pose proof (live_plus_deleted _ Hsome) as Hsum.
  unfold Notions.live_records, Notions.deleted_records. lia.
Qed.

Lemma delete_doc_unknown (self : t) (d : string) :
  _doc_map self !! d = None -> delete_doc self d = self.
Proof.
  intros H. unfold delete_doc. rewrite H. cbn.
  rewrite delete_id by exact H. destruct self; reflexivity.
Qed.

(** X4. Deleting a document a second time changes nothing, whatever the
    state: the first call has removed it from the mapping. *)
Theorem delete_doc_idempotent (self : t) (d : string) :
  delete_doc (delete_doc self d) d = delete_doc self d.
Proof.
  apply delete_doc_unknown. rewrite delete_doc_doc_map. apply lookup_delete_eq.
Qed.

(** X5. [delete_doc] is a soft delete: it keeps every vector and every
    slot, marks the records at the positions listed for the document and
    leaves all other records as they are, and takes the document out of the
    mapping without touching the other documents. *)
Theorem delete_doc_marks_owned_only (self : t) (d : string) :
  _index (delete_doc self d) = _index self
  /\ length (_meta (delete_doc self d)) = length (_meta self)
  /\ (forall p,
        _meta (delete_doc self d) !! p
        = if decide (p ∈ Spec.positions_of self d)
          then fmap (fmap mark_deleted) (_meta self !! p)
          else _meta self !! p)
  /\ _doc_map (delete_doc self d) !! d = None
  /\ (forall d', d' <> d ->
        _doc_map (delete_doc self d) !! d' = _doc_map self !! d').
Proof.
  split; [apply delete_doc_index |].
  split; [apply delete_doc_meta_length |].
  split; [apply delete_doc_meta |].
  rewrite delete_doc_doc_map.
  split; [apply lookup_delete_eq |].
  intros d' Hd'. apply lookup_delete_ne. congruence.
Qed.

(** X6. Inserting into a reachable state appends: the vectors of the
    chunks follow the stored ones, one record per chunk follows the stored
    records, with the chunk's index in the sequence and not deleted; the
    call returns the number of chunks and the deleted counter stays. *)
Theorem add_chunks_appends (ops : list Spec.op) (d n : string)
    (chunks : list string) :
  let self := Spec.run encode ops in
  let self' := fst (add_chunks encode self d n chunks) in
  _index self' = _index self ++ map encode chunks
  /\ _meta self'
     = _meta self
       ++ imap (fun j c => Some (mkMeta d n (Z.of_nat j) c false)) chunks
  /\ snd (add_chunks encode self d n chunks) = Z.of_nat (length chunks)
  /\ total_vectors self' = total_vectors self + Z.of_nat (length chunks)
  /\ _del_count self' = _del_count self.
Proof.
  cbn zeta. destruct (run_sound ops) as (Hlen & _).
  split; [apply add_chunks_index |].
  split; [apply add_chunks_records; exact Hlen |].
  split; [destruct chunks; reflexivity |].
  split.
  - unfold total_vectors, Faiss.ntotal.
    rewrite add_chunks_index, length_app, length_map. lia.
  - destruct chunks; reflexivity.
Qed.
End ReachableFacts.

(** * Compaction, persistence and search over reachable states *)

Section CompactionFacts.
Import VectorStore.
Variable encode : string -> Faiss.vec.

Lemma lookup_map {A B} (f : A -> B) (l : list A) (p : nat) :
  map f l !! p = f <$> (l !! p).
Proof.
  revert p. induction l as [| x l IH]; intros [| p]; cbn; auto.
Qed.

Lemma alive_records_all_live (records : list Meta) :
  Forall (fun m => deleted m = false) records ->
  alive_records (map Some records) = records.
Proof.
  induction 1 as [| m records Hm _ IH]; [reflexivity |].
  cbn. rewrite Hm. cbn. f_equal. exact IH.
Qed.

Lemma alive_records_undeleted (meta : list (option Meta)) :
  Forall (fun m => deleted m = false) (alive_records meta).
Proof. apply Forall_forall. intros m Hm. eapply alive_records_lookup. exact Hm. Qed.

(** Both branches of [rebuild_index] build the same state. *)
Lemma rebuild_index_state (self : t) :
  fst (rebuild_index encode self)
  = {| _index := map encode (map text (alive_records (_meta self)));
       _meta := map Some (alive_records (_meta self));
       _doc_map := foldl setdefault_append ∅
                     (enumerate (alive_records (_meta self)));
       _del_count := 0 |}.
Proof.
  unfold rebuild_index.
  destruct (alive_records (_meta self)) as [| r records]; reflexivity.
Qed.

Lemma alive_records_length (meta : list (option Meta)) :
  length (alive_records meta) = length (List.filter alive meta).
Proof.
  induction meta as [| [m |] meta IH]; cbn; [reflexivity | | exact IH].
  destruct (deleted m); cbn; [exact IH | f_equal; exact IH].
Qed.

Lemma rebuild_index_aligned (self : t) :
  Notions.aligned encode (fst (rebuild_index encode self)).
Proof.
  rewrite rebuild_index_state. intros p m Hm. cbn [_meta _index] in *.
  rewrite lookup_map in Hm.
  destruct (alive_records (_meta self) !! p) as [m' |] eqn:Hp; [| discriminate].
  cbn in Hm. injection Hm as ->.
  rewrite !lookup_map, Hp. reflexivity.
Qed.

(** X7. [rebuild_index] makes the mapping and the records agree, whatever
    the state before: afterwards the positions listed for the documents are
    exactly the positions of records that are not deleted, and no position
    belongs to two documents. *)
Theorem rebuild_index_restores_ownership (self : t) :
  Spec.ownership_invariant (fst (rebuild_index encode self)).
Proof.
  apply consistent_ownership_invariant, rebuild_index_consistent.
Qed.

(** X8. [rebuild_index] keeps the records that are not deleted, in their
    order, and nothing else: it returns their number, which is then the
    number of stored vectors; no record is marked deleted, the deleted
    counter is zero, and row [p] of the new index is the embedding of the
    text of record [p]. *)
Theorem rebuild_index_keeps_live_records (self : t) :
  let self' := fst (rebuild_index encode self) in
  _meta self' = map Some (alive_records (_meta self))
  /\ snd (rebuild_index encode self) = Z.of_nat (Notions.live_records self)
  /\ total_vectors self' = Z.of_nat (Notions.live_records self)
  /\ active_vectors self' = total_vectors self'
  /\ Notions.deleted_records self' = 0%nat
  /\ Notions.aligned encode self'.
Proof.
  cbn zeta. pose proof (rebuild_index_aligned self) as Hal.
  rewrite rebuild_index_state in *.
  assert (Hret : snd (rebuild_index encode self)
                 = Z.of_nat (length (alive_records (_meta self)))).
  { unfold rebuild_index.
    destruct (alive_records (_meta self)) as [| r records]; [reflexivity |].
    cbn [snd]. unfold Faiss.ntotal, Faiss.add. cbn [app].
    rewrite !length_map. reflexivity. }
  unfold Notions.live_records. rewrite <- alive_records_length.
  split; [reflexivity |]. split; [exact Hret |].
  split; [unfold total_vectors, Faiss.ntotal; cbn; rewrite !length_map; reflexivity |].
  split; [unfold active_vectors, total_vectors; cbn [_del_count]; apply Z.sub_0_r |].
  split.
  - unfold Notions.deleted_records. cbn [_meta].
    rewrite filter_none; [reflexivity |].
    intros e He. apply list_elem_of_fmap in He as (m & -> & Hm).
    cbn. eapply alive_records_lookup. exact Hm.
  - exact Hal.
Qed.

(** X9. Rebuilding twice is rebuilding once. *)
Theorem rebuild_index_idempotent (self : t) :
  fst (rebuild_index encode (fst (rebuild_index encode self)))
  = fst (rebuild_index encode self).
Proof.
  rewrite (rebuild_index_state (fst (rebuild_index encode self))).
  rewrite (rebuild_index_state self). cbn [_meta].
  rewrite alive_records_all_live by apply alive_records_undeleted.
  reflexivity.
Qed.


Lemma hit_of_Some (meta : list (option Meta)) (pair : Q * Z) (h : Hit) :
  Spec.hit_of meta pair = Some h ->
  exists p : nat,
    snd pair = Z.of_nat p
    /\ meta !! p = Some (Some (hit_meta h))
    /\ deleted (hit_meta h) = false
    /\ score h = fst pair.
Proof.
  destruct pair as [dist idx]. unfold Spec.hit_of.
  destruct ((idx <? 0) || (Z.of_nat (length meta) <=? idx)) eqn:Hr; [discriminate |].
  apply orb_false_iff in Hr as [Hneg _]. apply Z.ltb_ge in Hneg.
  destruct (meta !! Z.to_nat idx) as [[m |] |] eqn:Hm; try discriminate.
  destruct (deleted m) eqn:Hd; [discriminate |].
  intros H. injection H as <-. exists (Z.to_nat idx). cbn.
  repeat split; [lia | exact Hm | exact Hd].
Qed.

Lemma surviving_ascending (meta : list (option Meta)) (pairs : list (Q * Z)) :
  StronglySorted Spec.nearer pairs ->
  StronglySorted Notions.better (Spec.surviving meta pairs).
Proof.
  unfold Spec.surviving.
  induction 1 as [| pair pairs _ IH Hall]; [constructor |].
  cbn. destruct (Spec.hit_of meta pair) as [h |] eqn:Hh; [| exact IH].
  constructor; [exact IH |].
  apply Forall_forall. intros h' Hin.
  apply list_elem_of_omap in Hin as (pair' & Hin & Hh').
  pose proof (proj1 (Forall_forall _ _) Hall pair' Hin) as Hle.
  apply hit_of_Some in Hh as (_ & _ & _ & _ & Hs).
  apply hit_of_Some in Hh' as (_ & _ & _ & _ & Hs').
  unfold Notions.better, Spec.nearer in *. rewrite Hs, Hs'. exact Hle.
Qed.

Lemma sorted_firstn {A} (R : A -> A -> Prop) (l : list A) (n : nat) :
  StronglySorted R l -> StronglySorted R (firstn n l).
Proof.
  intros H. revert n. induction H as [| x l _ IH Hall]; intros [| n]; cbn;
    try constructor.
  - apply IH.
  - apply Forall_forall. intros y Hy.
    apply (proj1 (Forall_forall _ _) Hall).
    apply elem_of_take in Hy as (i & Hi & _).
    eapply list_elem_of_lookup_2. exact Hi.
Qed.

(** Every result of [search] is a stored record that is not deleted, scored
    by the distance to the vector at its position. *)
Lemma search_hits_stored (self : t) (query : string) (k : Z) :
  0 < k ->
  Forall (fun h =>
       exists (p : nat) (v : Faiss.vec),
         (_index self : list Faiss.vec) !! p = Some v
         /\ _meta self !! p = Some (Some (hit_meta h))
         /\ deleted (hit_meta h) = false
         /\ score h = Faiss.sqdist (encode query) v)
       (search encode self query k).
Proof.
  intros Hk. rewrite search_unfold by exact Hk.
  apply Forall_forall. intros h Hin.
  apply elem_of_take in Hin as (i & Hi & _).
  apply list_elem_of_lookup_2 in Hi.
  unfold Spec.surviving in Hi.
  apply list_elem_of_omap in Hi as (pair & Hpair & Hh).
  apply hit_of_Some in Hh as (p & Hp & Hm & Hd & Hs).
  apply search_positions in Hpair as (p' & v & Hv & ->).
  cbn in Hp, Hs. apply Nat2Z.inj in Hp. subst p'.
  exists p, v. auto.
Qed.

(** X11. For a positive [k] the results of [search] come in ascending
    score, and each result is the record at some position of the store, not
    deleted, with the squared distance between the query's embedding and
    the vector stored at that position as its score. *)
Theorem search_results_ascending (self : t) (query : string) (k : Z) :
  0 < k ->
  StronglySorted Notions.better (search encode self query k)
  /\ Forall (fun h =>
       exists (p : nat) (v : Faiss.vec),
         (_index self : list Faiss.vec) !! p = Some v
         /\ _meta self !! p = Some (Some (hit_meta h))
         /\ deleted (hit_meta h) = false
         /\ score h = Faiss.sqdist (encode query) v)
       (search encode self query k).
Proof.
  intros Hk. split; [| apply search_hits_stored; exact Hk].
  rewrite search_unfold by exact Hk.
  set (nearest := Faiss.search (_index self) (encode query)
                    (Z.min (k * 4) (total_vectors self))).
  destruct (search_nearest (_index self) (encode query)
              (Z.min (k * 4) (total_vectors self))) as (farther & _ & Hs).
  fold nearest in Hs.
  apply (sorted_firstn _ _ (length nearest)) in Hs.
  rewrite firstn_app, firstn_all, Nat.sub_diag, firstn_O, app_nil_r in Hs.
  apply sorted_firstn, surviving_ascending. exact Hs.
Qed.

(** The neighbours that survive, out of all stored vectors, are as many as
    the records that are not deleted. *)
Lemma surviving_count (meta : list (option Meta)) (q : Faiss.vec) :
  forall (index' : list Faiss.vec) (meta' : list (option Meta)) (s : nat),
    length index' = length meta' ->
    (forall i, meta !! (s + i)%nat = meta' !! i) ->
    (s + length meta')%nat = length meta ->
    length (Spec.surviving meta
              (imap (fun i v => (Faiss.sqdist q v, Z.of_nat (s + i))) index'))
    = length (List.filter alive meta').
Proof.
  unfold Spec.surviving.
  induction index' as [| v index' IH]; intros meta' s Hlen Hlook Hs;
    destruct meta' as [| e meta']; try discriminate; [reflexivity |].
  cbn [imap omap list_omap List.filter].
  rewrite (imap_ext _ (fun i v => (Faiss.sqdist q v, Z.of_nat (S s + i))))
    by (intros i x _; cbn; do 2 f_equal; lia).
  specialize (IH meta' (S s)).
  rewrite Nat.add_0_r.
  assert (Hhead : Spec.hit_of meta (Faiss.sqdist q v, Z.of_nat s)
                  = if alive e then Some (mkHit (default (mkMeta "" "" 0 "" false) e)
                                            (Faiss.sqdist q v))
                    else None).
  { unfold Spec.hit_of. cbn in Hs.
    replace ((Z.of_nat s <? 0) || (Z.of_nat (length meta) <=? Z.of_nat s)) with false
      by (symmetry; apply orb_false_iff; split; [apply Z.ltb_ge | apply Z.leb_gt]; lia).
    rewrite Nat2Z.id. pose proof (Hlook 0%nat) as H0.
    rewrite Nat.add_0_r in H0. rewrite H0. cbn.
    destruct e as [m |]; cbn; [| reflexivity].
    destruct (deleted m); reflexivity. }
  rewrite Hhead.
  assert (Hrest : length (omap (Spec.hit_of meta)
                     (imap (fun i v => (Faiss.sqdist q v, Z.of_nat (S s + i))) index'))
                  = length (List.filter alive meta')).
  { apply IH.
    - cbn in Hlen. lia.
    - intros i. pose proof (Hlook (S i)) as Hi. cbn in Hi.
      etransitivity; [| exact Hi]. f_equal. lia.
    - cbn in Hs. lia. }
  destruct (alive e); cbn [length]; rewrite Hrest; reflexivity.
Qed.

(** X12. A search of a reachable store that asks for at least as many
    results as there are stored vectors finds every record that is not
    deleted: the results are as many as [active_vectors], and are the
    surviving ones of all stored vectors in some order. *)
Theorem search_finds_all_active (ops : list Spec.op) (query : string) (k : Z) :
  0 < k ->
  total_vectors (Spec.run encode ops) <= k ->
  Z.of_nat (length (search encode (Spec.run encode ops) query k))
  = active_vectors (Spec.run encode ops)
  /\ Permutation (search encode (Spec.run encode ops) query k)
       (Spec.surviving (_meta (Spec.run encode ops))
          (Faiss.scored (_index (Spec.run encode ops)) (encode query))).
Proof.
  intros Hk Htotal.
  set (self := Spec.run encode ops) in *.
  destruct (run_sound encode ops) as (Hlen & Hsome & _ & _ & Hcount).
  fold self in Hlen, Hsome, Hcount.
  assert (Hall : Faiss.search (_index self) (encode query)
                   (Z.min (k * 4) (total_vectors self))
                 = Faiss.DistSort.sort (Faiss.scored (_index self) (encode query))).
  { unfold Faiss.search. apply firstn_all2.
    rewrite <- (Permutation_length (Faiss.DistSort.Permuted_sort _)).
    unfold Faiss.scored. rewrite length_imap.
    unfold total_vectors, Faiss.ntotal in *. lia. }
  assert (Hperm : Permutation
                    (Spec.surviving (_meta self)
                       (Faiss.DistSort.sort (Faiss.scored (_index self) (encode query))))
                    (Spec.surviving (_meta self)
                       (Faiss.scored (_index self) (encode query))))
    by (apply surviving_permutation, sort_permutation).
  assert (Hsize : length (Spec.surviving (_meta self)
                            (Faiss.scored (_index self) (encode query)))
                  = length (List.filter alive (_meta self))).
  { unfold Faiss.scored.
    apply (surviving_count (_meta self) (encode query) (_index self) (_meta self) 0).
    - symmetry. exact Hlen.
    - intros i. reflexivity.
    - reflexivity. }
  assert (Hactive : active_vectors self
                    = Z.of_nat (length (List.filter alive (_meta self)))).
  { unfold active_vectors, Faiss.ntotal. rewrite Hcount, <- Hlen.
    pose proof (live_plus_deleted _ Hsome) as Hsum.
    unfold Notions.deleted_records. lia. }
  assert (Hfull : search encode self query k
                  = Spec.surviving (_meta self)
                      (Faiss.DistSort.sort
                         (Faiss.scored (_index self) (encode query)))).
  { rewrite search_unfold by exact Hk. rewrite Hall. apply firstn_all2.
    rewrite (Permutation_length Hperm), Hsize.
    pose proof (live_plus_deleted _ Hsome) as Hsum.
    unfold total_vectors, Faiss.ntotal in Htotal. lia. }
  split.
  - rewrite Hfull, (Permutation_length Hperm), Hsize, Hactive. reflexivity.
  - rewrite Hfull. exact Hperm.
Qed.


Lemma add_chunks_aligned (self : t) (d n : string) (chunks : list string) :
  length (_meta self) = length (_index self) ->
  Notions.aligned encode self ->
  Notions.aligned encode (fst (add_chunks encode self d n chunks)).
Proof.
  intros Hlen Hal p m.
  rewrite add_chunks_records by exact Hlen. rewrite add_chunks_index.
  intros Hm.
  destruct (decide (p < length (_meta self))%nat) as [Hp | Hp].
  - rewrite lookup_app_l in Hm by exact Hp.
    rewrite lookup_app_l by (rewrite <- Hlen; exact Hp).
    apply Hal. exact Hm.
  - rewrite lookup_app_r in Hm by lia. rewrite list_lookup_imap in Hm.
    rewrite lookup_app_r by (rewrite <- Hlen; lia). rewrite <- Hlen.
    rewrite lookup_map.
    destruct (chunks !! (p - length (_meta self))%nat) as [c |]; [| discriminate].
    cbn in Hm. injection Hm as <-. reflexivity.
Qed.

Lemma delete_doc_aligned (self : t) (d : string) :
  Notions.aligned encode self ->
  Notions.aligned encode (delete_doc self d).
Proof.
  intros Hal p m. rewrite delete_doc_index, delete_doc_meta.
  destruct (decide (p ∈ Spec.positions_of self d)); [| apply Hal].
  destruct (_meta self !! p) as [[m' |] |] eqn:Hm; try discriminate.
  cbn. intros H. injection H as <-.
  change (text (mark_deleted m')) with (text m'). apply Hal. exact Hm.
Qed.

Lemma run_aligned (ops : list Spec.op) :
  Notions.aligned encode (Spec.run encode ops).
Proof.
  unfold Spec.run.
  assert (H : forall s, Notions.sound s -> Notions.aligned encode s ->
                Notions.aligned encode (foldl (Spec.apply encode) s ops)).
  { induction ops as [| o ops IH]; intros s Hs Hal; [exact Hal |].
    cbn [foldl]. destruct o as [d n chunks | d |]; cbn [Spec.apply]; apply IH.
    - apply add_chunks_sound. exact Hs.
    - apply add_chunks_aligned; [apply Hs | exact Hal].
    - apply delete_doc_sound. exact Hs.
    - apply delete_doc_aligned. exact Hal.
    - apply rebuild_index_sound.
    - apply rebuild_index_aligned. }
  apply H; [apply fresh_sound |].
  intros p m Hm. destruct p; discriminate.
Qed.

(** X13. In every reachable state row [p] of the index is the embedding of
    the text of record [p], deleted or not. *)
Theorem reachable_rows_embed_texts (ops : list Spec.op) :
  Notions.aligned encode (Spec.run encode ops).
Proof. apply run_aligned. Qed.

(** X14. A search of a reachable store scores every result by the squared
    distance between the embedding of the query and the embedding of the
    result's own text, and no result is marked deleted. *)
Theorem reachable_search_scores_own_text (ops : list Spec.op)
    (query : string) (k : Z) :
  0 < k ->
  Forall (fun h =>
       score h = Faiss.sqdist (encode query) (encode (text (hit_meta h)))
       /\ deleted (hit_meta h) = false)
    (search encode (Spec.run encode ops) query k).
Proof.
  intros Hk.
  eapply Forall_impl; [apply search_hits_stored; exact Hk |].
  intros h (p & v & Hv & Hm & Hd & Hs).
  pose proof (run_aligned ops p (hit_meta h) Hm) as Hrow.
  rewrite Hv in Hrow. injection Hrow as ->. auto.
Qed.

End CompactionFacts.

(** ** The search theorems at concrete inputs *)

Section CompactionInstances.
Import VectorStore.

Lemma search_results_ascending_witness :
  0 < 5
  /\ StronglySorted Notions.better
       (search Spec.unit_encoder Spec.one_document "alpha" 5).
Proof.
  assert (Hk : 0 < 5) by lia.
  split; [exact Hk |].
  exact (proj1 (search_results_ascending
                  Spec.unit_encoder Spec.one_document "alpha" 5 Hk)).
Defined.

Lemma search_finds_all_active_witness :
  0 < 5
  /\ total_vectors
       (Spec.run Spec.unit_encoder [Spec.Insert "d" "report" ["alpha"]]) <= 5
  /\ Z.of_nat
       (length (search Spec.unit_encoder
                  (Spec.run Spec.unit_encoder
                     [Spec.Insert "d" "report" ["alpha"]]) "alpha" 5))
     = active_vectors
         (Spec.run Spec.unit_encoder [Spec.Insert "d" "report" ["alpha"]]).
Proof.
  assert (Hk : 0 < 5) by lia.
  assert (Ht : total_vectors
                 (Spec.run Spec.unit_encoder
                    [Spec.Insert "d" "report" ["alpha"]]) <= 5)
    by (vm_compute; discriminate).
  split; [exact Hk |]. split; [exact Ht |].
  exact (proj1 (search_finds_all_active Spec.unit_encoder
                  [Spec.Insert "d" "report" ["alpha"]] "alpha" 5 Hk Ht)).
Defined.

Lemma reachable_search_scores_own_text_witness :
  0 < 5
  /\ Forall (fun h =>
        score h = Faiss.sqdist (Spec.unit_encoder "alpha")
                    (Spec.unit_encoder (text (hit_meta h)))
        /\ deleted (hit_meta h) = false)
       (search Spec.unit_encoder
          (Spec.run Spec.unit_encoder [Spec.Insert "d" "report" ["alpha"]])
          "alpha" 5).
Proof.
  assert (Hk : 0 < 5) by lia.
  split; [exact Hk |].
  exact (reachable_search_scores_own_text Spec.unit_encoder
           [Spec.Insert "d" "report" ["alpha"]] "alpha" 5 Hk).
Defined.

End CompactionInstances.

(** * Further properties of the retrieval control loop *)

Section PipelineFacts.

Import VectorStore RagPipeline.

Variable encode : string -> Faiss.vec.
Variable llm : nat -> Q -> list Message -> Completion.
Variable vector_store : VectorStore.t.
Variable settings : Settings.

Local Abbreviation steps := (RagPipeline.steps encode llm vector_store settings).
Local Abbreviation invoke_from :=
  (RagPipeline.invoke_from encode llm vector_store settings).
Local Abbreviation run_node :=
  (RagPipeline.run_node encode llm vector_store settings).
Local Abbreviation graph_invoke :=
  (RagPipeline.graph_invoke encode llm vector_store settings).
Local Abbreviation run_rag :=
  (RagPipeline.run_rag encode llm vector_store settings).
Local Abbreviation node_grade := (RagPipeline.node_grade llm settings).
Local Abbreviation node_generate := (RagPipeline.node_generate llm settings).
Local Abbreviation node_retrieve :=
  (RagPipeline.node_retrieve encode vector_store).
Local Abbreviation max_rewrites := (max_rewrite_attempts settings).
Local Abbreviation top_k := (top_k_chunks settings).

Local Abbreviation graded x :=
  {| state :=
       fst (node_grade (node_retrieve (state x) (top_k_chunks settings))
              (llm_calls x));
     llm_calls :=
       snd (node_grade (node_retrieve (state x) (top_k_chunks settings))
              (llm_calls x));
     trace := (trace x ++ [retrieve]) ++ [grade_chunks] |}.

Local Abbreviation rewritten x :=
  {| state := fst (node_rewrite llm (state x) (llm_calls x));
     llm_calls := S (llm_calls x);
     trace := trace x ++ [rewrite_query] |}.

(** The query that a retrieval in state [s] searches with. *)
Local Abbreviation search_query s :=
  (PyStr.or_else (rewritten_query s) (query s)).

Lemma node_grade_subset (s : RAGState) (n : nat) :
  Forall (fun c => c ∈ retrieved_chunks s)
    (relevant_chunks (fst (node_grade s n))).
Proof.
  unfold RagPipeline.node_grade.
  destruct (retrieved_chunks s) as [| c0 l] eqn:Hchunks; [constructor |].
  cbn [fst relevant_chunks].
  pose proof (grade_try_cases
                (llm n 0%Q
                   [HumanMessage
                      (grade_prompt
                         (PyStr.or_else (rewritten_query s) (query s))
                         (c0 :: l))]) (c0 :: l)) as Hcases.
  destruct (llm n 0%Q _) as [content | e].
  - cbn zeta in Hcases.
    destruct (String.eqb (PyStr.lower (PyStr.strip content)) "none").
    { rewrite Hcases. constructor. }
    destruct (mapM PyStr.int _) as [idxs |].
    + rewrite Hcases. cbn [default]. apply Forall_forall.
      intros c Hc. eapply omap_lookup_elem. exact Hc.
    + rewrite Hcases. cbn [default]. apply Forall_forall. auto.
  - rewrite Hcases. cbn [default]. apply Forall_forall. auto.
Qed.

(** What [node_grade] leaves as it is, and how often it calls. *)
Lemma node_grade_frame (s : RAGState) (n : nat) :
  query (fst (node_grade s n)) = query s
  /\ rewritten_query (fst (node_grade s n)) = rewritten_query s
  /\ retrieved_chunks (fst (node_grade s n)) = retrieved_chunks s
  /\ (n <= snd (node_grade s n) <= S n)%nat.
Proof.
  unfold RagPipeline.node_grade.
  destruct (retrieved_chunks s) as [| c l] eqn:Hc; cbn; rewrite ?Hc;
    repeat split; lia.
Qed.

(** [node_grade] asks for a rewrite exactly when nothing is relevant and
    the bound is not reached. *)
Lemma node_grade_decision (s : RAGState) (n : nat) :
  needs_rewrite (fst (node_grade s n))
  = bool_decide (relevant_chunks (fst (node_grade s n)) = [])
    && (rewrite_count s <? max_rewrites).
Proof.
  unfold RagPipeline.node_grade.
  destruct (retrieved_chunks s) as [| c l]; [reflexivity |].
  cbn [fst needs_rewrite relevant_chunks]. f_equal.
  destruct (default (c :: l) _) as [| h t]; reflexivity.
Qed.

Lemma or_list_nil {A} (l : list A) : or_list l [] = l.
Proof. destruct l; reflexivity. Qed.

Lemma generate_chunks_or (s : RAGState) :
  generate_chunks s = or_list (relevant_chunks s) (retrieved_chunks s).
Proof. unfold generate_chunks. rewrite or_list_nil. reflexivity. Qed.

(** From [retrieve] the graph comes to [generate] after [r] rewrites. *)
Lemma loop_shape (b : nat) (x : Exec) :
  max_rewrites - rewrite_count (state x) <= Z.of_nat b ->
  exists (r : nat) (x' : Exec),
    (r <= b)%nat
    /\ steps (3 * r + 2) retrieve x = Some (generate, x')
    /\ trace x'
       = trace x
         ++ concat (replicate r [retrieve; grade_chunks; rewrite_query])
         ++ [retrieve; grade_chunks]
    /\ rewrite_count (state x') = rewrite_count (state x) + Z.of_nat r
    /\ (llm_calls x <= llm_calls x' <= llm_calls x + 2 * r + 1)%nat
    /\ query (state x') = query (state x)
    /\ retrieved_chunks (state x')
       = search encode vector_store (search_query (state x')) top_k
    /\ Forall (fun c => c ∈ retrieved_chunks (state x'))
         (relevant_chunks (state x'))
    /\ (relevant_chunks (state x') = [] ->
        max_rewrites <= rewrite_count (state x'))
    /\ (r = 0%nat -> rewritten_query (state x') = rewritten_query (state x)).
Proof.
  revert x. induction b as [| b IH]; intros x Hb.
  - assert (Hstop : needs_rewrite (state (graded x)) = false).
    { destruct (needs_rewrite (state (graded x))) eqn:Hn; [| reflexivity].
      apply node_grade_needs_rewrite in Hn. cbn in Hn. lia. }
    exists 0%nat, (graded x).
    destruct (node_grade_frame (node_retrieve (state x) top_k) (llm_calls x))
      as (Hq & Hrq & Hret & Hcalls).
    split; [lia |]. split.
    { change (3 * 0 + 2)%nat with 2%nat. rewrite steps_pass.
      unfold _route. rewrite Hstop. reflexivity. }
    split; [cbn [trace replicate concat app]; rewrite <- app_assoc; reflexivity |].
    split; [rewrite graded_rewrite_count; lia |].
    split; [cbn [llm_calls]; lia |].
    split; [cbn [state]; rewrite Hq; reflexivity |].
    split; [cbn [state]; rewrite Hret, Hq, Hrq; reflexivity |].
    split; [cbn [state]; rewrite Hret; apply node_grade_subset |].
    split; [| intros _; cbn [state]; rewrite Hrq; reflexivity].
    intros Hrel. cbn [state] in Hrel, Hstop |- *.
    rewrite node_grade_decision, Hrel in Hstop.
    rewrite bool_decide_eq_true_2 in Hstop by reflexivity.
    cbn in Hstop. apply Z.ltb_ge in Hstop.
    rewrite node_grade_rewrite_count. exact Hstop.
  - destruct (node_grade_frame (node_retrieve (state x) top_k) (llm_calls x))
      as (Hq & Hrq & Hret & Hcalls).
    destruct (needs_rewrite (state (graded x))) eqn:Hn.
    + destruct (IH (rewritten (graded x)))
        as (r & x' & Hr & Hk & Ht & Hrc & Hc & Hqq & Hs & Hsub & Hgive & _).
      { rewrite rewritten_rewrite_count, graded_rewrite_count. lia. }
      exists (S r), x'. split; [lia |]. split.
      { replace (3 * S r + 2)%nat with (2 + (1 + (3 * r + 2)))%nat by lia.
        rewrite (steps_add encode llm vector_store settings
                   2 (1 + (3 * r + 2)) retrieve
                   (_route (state (graded x))) x (graded x))
          by apply steps_pass.
        unfold _route at 1. rewrite Hn.
        rewrite (steps_add encode llm vector_store settings
                   1 (3 * r + 2) rewrite_query retrieve
                   (graded x) (rewritten (graded x)))
          by apply steps_rewrite.
        exact Hk. }
      split.
      { rewrite Ht. cbn [trace replicate concat]. rewrite <- !app_assoc.
        reflexivity. }
      split.
      { rewrite Hrc, rewritten_rewrite_count, graded_rewrite_count. lia. }
      split; [cbn [llm_calls] in Hc; lia |].
      split; [rewrite Hqq; cbn [state]; exact Hq |].
      split; [exact Hs |]. split; [exact Hsub |].
      split; [exact Hgive | discriminate].
    + exists 0%nat, (graded x).
      split; [lia |]. split.
      { change (3 * 0 + 2)%nat with 2%nat. rewrite steps_pass.
        unfold _route. rewrite Hn. reflexivity. }
      split; [cbn [trace replicate concat app]; rewrite <- app_assoc; reflexivity |].
      split; [rewrite graded_rewrite_count; lia |].
      split; [cbn [llm_calls]; lia |].
      split; [cbn [state]; rewrite Hq; reflexivity |].
      split; [cbn [state]; rewrite Hret, Hq, Hrq; reflexivity |].
      split; [cbn [state]; rewrite Hret; apply node_grade_subset |].
      split; [| intros _; cbn [state]; rewrite Hrq; reflexivity].
      intros Hrel. cbn [state] in Hrel, Hn |- *.
      rewrite node_grade_decision, Hrel in Hn.
      rewrite bool_decide_eq_true_2 in Hn by reflexivity.
      cbn in Hn. apply Z.ltb_ge in Hn.
      rewrite node_grade_rewrite_count. exact Hn.
Qed.

(** What the [generate] node does to a run. *)
Lemma run_generate_cases (xg x : Exec) (e : option string) :
  run_node generate xg = (x, e) ->
  trace x = trace xg ++ [generate]
  /\ query (state x) = query (state xg)
  /\ rewritten_query (state x) = rewritten_query (state xg)
  /\ retrieved_chunks (state x) = retrieved_chunks (state xg)
  /\ relevant_chunks (state x) = relevant_chunks (state xg)
  /\ rewrite_count (state x) = rewrite_count (state xg)
  /\ (llm_calls xg <= llm_calls x <= S (llm_calls xg))%nat
  /\ (e = None ->
      NoDup (sources (state x))
      /\ (forall src, src ∈ sources (state x)
            <-> exists c, c ∈ generate_chunks (state xg)
                          /\ src = source_label c)
      /\ (generate_chunks (state xg) = [] ->
          answer (state x) = not_found_answer
          /\ llm_calls x = llm_calls xg)
      /\ (generate_chunks (state xg) <> [] ->
          llm_calls x = S (llm_calls xg))).
Proof.
  cbn [RagPipeline.run_node]. unfold RagPipeline.node_generate.
  destruct (generate_chunks (state xg)) as [| c l] eqn:Hc.
  - intros H. injection H as <- <-. cbn.
    repeat split; try lia; try congruence.
    + constructor.
    + intros Hin. apply elem_of_nil in Hin. contradiction.
    + intros (c & Hin & _). apply elem_of_nil in Hin. contradiction.
  - destruct (llm (llm_calls xg) (groq_temperature settings) _)
      as [content | err]; intros H; injection H as <- <-;
      cbn [state llm_calls trace query rewritten_query retrieved_chunks
           relevant_chunks rewrite_count sources answer].
    + pose proof (NoDup_remove_dups (map source_label (c :: l))) as Hnd.
      pose proof (fun src => elem_of_remove_dups (map source_label (c :: l)) src)
        as Hel.
      repeat split; try lia; try congruence.
      * exact Hnd.
      * intros Hin. apply (proj1 (Hel src)) in Hin.
        apply list_elem_of_fmap in Hin as (c' & -> & Hc').
        exists c'. split; [exact Hc' | reflexivity].
      * intros (c' & Hc' & ->). apply (proj2 (Hel _)).
        apply list_elem_of_fmap. exists c'. split; [reflexivity | exact Hc'].
    + repeat split; try lia; discriminate.
Qed.

(** A run with enough nodes allowed: the loop, then [generate]. *)
Lemma run_rag_outcome (q : string) (fuel : nat) :
  (3 * Z.to_nat max_rewrites + 3 <= fuel)%nat ->
  exists (r : nat) (xg x : Exec) (e : option string),
    (r <= Z.to_nat max_rewrites)%nat
    /\ trace xg
       = concat (replicate r [retrieve; grade_chunks; rewrite_query])
         ++ [retrieve; grade_chunks]
    /\ rewrite_count (state xg) = Z.of_nat r
    /\ (llm_calls xg <= 2 * r + 1)%nat
    /\ query (state xg) = q
    /\ retrieved_chunks (state xg)
       = search encode vector_store (search_query (state xg)) top_k
    /\ Forall (fun c => c ∈ retrieved_chunks (state xg))
         (relevant_chunks (state xg))
    /\ (relevant_chunks (state xg) = [] ->
        max_rewrites <= rewrite_count (state xg))
    /\ run_node generate xg = (x, e)
    /\ run_rag fuel q
       = Some (x, match e with
                  | Some err => Raise err
                  | None => Ok (Notions.answer_of x)
                  end).
Proof.
  intros Hfuel.
  destruct (loop_shape (Z.to_nat max_rewrites) (start q))
    as (r & xg & Hr & Hk & Ht & Hrc & Hc & Hq & Hs & Hsub & Hgive & _).
  { cbn. lia. }
  destruct (run_node generate xg) as [x e] eqn:Hgen.
  exists r, xg, x, e.
  split; [exact Hr |]. split; [exact Ht |].
  split; [rewrite Hrc; cbn; lia |].
  split; [cbn [start llm_calls] in Hc; lia |].
  split; [exact Hq |]. split; [exact Hs |]. split; [exact Hsub |].
  split; [exact Hgive |]. split; [exact Hgen |].
  unfold RagPipeline.run_rag, RagPipeline.graph_invoke.
  replace fuel with ((3 * r + 2) + S (fuel - (3 * r + 2) - 1))%nat by lia.
  rewrite (steps_invoke encode llm vector_store settings
             (3 * r + 2) _ retrieve generate (start q) xg Hk).
  cbn [RagPipeline.invoke_from]. rewrite Hgen.
  destruct e as [err |]; [reflexivity |].
  cbn [next_node]. rewrite invoke_END. reflexivity.
Qed.

(** X15. Whatever the chat model and the index do, when retrieval asks for
    at least one chunk ([0 < top_k_chunks], the domain of the search) a
    run of the pipeline is [r] rounds of retrieve, grade, rewrite followed
    by retrieve, grade, generate, with [r] at most the bound on rewrites;
    [rewrite_count] ends as [r], the user's query is never changed, the
    chat model is invoked at most [2 r + 2] times, and generation starts
    without a relevant chunk only when the bound on rewrites is reached. *)
Theorem run_rag_shape (q : string) (fuel : nat) :
  0 < top_k ->
  (3 * Z.to_nat max_rewrites + 3 <= fuel)%nat ->
  exists (x : Exec) (res : result Answer) (r : nat),
    run_rag fuel q = Some (x, res)
    /\ (r <= Z.to_nat max_rewrites)%nat
    /\ trace x = Notions.loop_trace r
    /\ rewrite_count (state x) = Z.of_nat r
    /\ query (state x) = q
    /\ (llm_calls x <= 2 * r + 2)%nat
    /\ (relevant_chunks (state x) = [] -> max_rewrites <= Z.of_nat r).
Proof.
  intros _ Hfuel.
  destruct (run_rag_outcome q fuel Hfuel)
    as (r & xg & x & e & Hr & Ht & Hrc & Hc & Hq & _ & _ & Hgive & Hgen & Hrun).
  destruct (run_generate_cases xg x e Hgen)
    as (Ht' & Hq' & _ & _ & Hrel & Hrc' & Hc' & _).
  eexists x, _, r. split; [exact Hrun |]. split; [exact Hr |].
  split.
  { rewrite Ht', Ht. unfold Notions.loop_trace. rewrite <- app_assoc.
    reflexivity. }
  split; [rewrite Hrc'; exact Hrc |].
  split; [rewrite Hq'; exact Hq |].
  split; [lia |].
  rewrite Hrel, <- Hrc. exact Hgive.
Qed.

(** X16. When [run_rag] returns an answer, the chunks it answered from
    (the relevant ones, or all retrieved ones when none is relevant) are
    results of the last search, made with the rewritten query or, when
    that is empty, with the user's query; [chunk_count] is their number;
    they are none exactly when that search found nothing, and then the
    answer is the fixed not-found text; the sources have no duplicates and
    are exactly the labels of these chunks. *)
Theorem run_rag_answers_from_retrieval (q : string) (fuel : nat) :
  (3 * Z.to_nat max_rewrites + 3 <= fuel)%nat ->
  exists (x : Exec) (res : result Answer),
    run_rag fuel q = Some (x, res)
    /\ forall a : Answer,
         res = Ok a ->
         let used := generate_chunks (state x) in
         let found :=
           search encode vector_store
             (PyStr.or_else (out_rewritten_query a) q) top_k in
         out_chunk_count a = Z.of_nat (length used)
         /\ Forall (fun c => c ∈ found) used
         /\ (used = [] <-> found = [])
         /\ (used = [] -> out_answer a = not_found_answer)
         /\ NoDup (out_sources a)
         /\ (forall src, src ∈ out_sources a
               <-> exists c, c ∈ used /\ src = source_label c).
Proof.
  intros Hfuel.
  destruct (run_rag_outcome q fuel Hfuel)
    as (r & xg & x & e & _ & _ & _ & _ & Hq & Hs & Hsub & _ & Hgen & Hrun).
  destruct (run_generate_cases xg x e Hgen)
    as (_ & Hq' & Hrq & Hret & Hrel & _ & _ & Hok).
  eexists x, _. split; [exact Hrun |].
  intros a Ha. destruct e as [err |]; [discriminate |].
  injection Ha as <-. cbn zeta.
  destruct (Hok eq_refl) as (Hnd & Hsrc & Hnone & _).
  assert (Hused : generate_chunks (state x) = generate_chunks (state xg)).
  { rewrite !generate_chunks_or, Hret, Hrel. reflexivity. }
  rewrite Hused.
  unfold Notions.answer_of.
  cbn [out_chunk_count out_rewritten_query out_answer out_sources].
  assert (Hfound : search encode vector_store
                     (PyStr.or_else (rewritten_query (state x)) q) top_k
                   = retrieved_chunks (state xg))
    by (rewrite Hrq, <- Hq; symmetry; exact Hs).
  rewrite Hfound, Hret, Hrel, generate_chunks_or.
  split; [reflexivity |].
  split.
  { destruct (relevant_chunks (state xg)) as [| c l] eqn:Hr; cbn [or_list].
    - apply Forall_forall. auto.
    - exact Hsub. }
  split.
  { destruct (relevant_chunks (state xg)) as [| c l] eqn:Hr; cbn [or_list].
    - reflexivity.
    - split; [discriminate |]. intros Hnil.
      apply Forall_inv in Hsub. rewrite Hnil in Hsub.
      apply elem_of_nil in Hsub. contradiction. }
  split.
  { intros Hnil. apply Hnone. rewrite generate_chunks_or. exact Hnil. }
  split; [exact Hnd |].
  intros src. rewrite Hsrc, generate_chunks_or. reflexivity.
Qed.

(** X17. When the first grading keeps a chunk, the run is retrieve,
    grade, generate: no rewrite is made, the rewritten query stays empty,
    the answer is made from the chunks kept, and the chat model is invoked
    twice, once to grade and once to generate. *)
Theorem relevant_chunk_answers_directly (q : string) (fuel : nat) :
  relevant_chunks
    (fst (node_grade (node_retrieve (initial q) top_k) 0)) <> [] ->
  (3 <= fuel)%nat ->
  exists (x : Exec) (res : result Answer),
    run_rag fuel q = Some (x, res)
    /\ trace x = [retrieve; grade_chunks; generate]
    /\ llm_calls x = 2%nat
    /\ rewrite_count (state x) = 0
    /\ rewritten_query (state x) = ""
    /\ generate_chunks (state x)
       = relevant_chunks
           (fst (node_grade (node_retrieve (initial q) top_k) 0)).
Proof.
  intros Hrel Hfuel.
  set (s1 := node_retrieve (initial q) top_k) in *.
  destruct (node_grade_frame s1 0) as (Hq & Hrq & Hret & Hcalls).
  assert (Hstop : needs_rewrite (fst (node_grade s1 0)) = false).
  { rewrite node_grade_decision.
    rewrite bool_decide_eq_false_2 by exact Hrel. reflexivity. }
  assert (Hone : snd (node_grade s1 0) = 1%nat).
  { unfold RagPipeline.node_grade in *.
    destruct (retrieved_chunks s1); [cbn in Hrel; congruence | reflexivity]. }
  pose proof (steps_pass encode llm vector_store settings (start q)) as Hpass.
  cbn [start state llm_calls trace app] in Hpass. fold s1 in Hpass.
  unfold _route in Hpass. rewrite Hstop, Hone in Hpass.
  destruct (run_node generate
              {| state := fst (node_grade s1 0); llm_calls := 1;
                 trace := [retrieve; grade_chunks] |}) as [x e] eqn:Hgen.
  destruct (run_generate_cases _ x e Hgen)
    as (Ht & _ & Hrq' & Hret' & Hrel' & Hrc & Hc & Hok).
  cbn [state llm_calls trace] in *.
  assert (Hused : generate_chunks (fst (node_grade s1 0))
                  = relevant_chunks (fst (node_grade s1 0))).
  { rewrite generate_chunks_or.
    destruct (relevant_chunks (fst (node_grade s1 0))); [congruence | reflexivity]. }
  assert (Hcalls2 : llm_calls x = 2%nat).
  { revert Hgen. cbn [RagPipeline.run_node state llm_calls].
    unfold RagPipeline.node_generate. rewrite Hused.
    destruct (relevant_chunks (fst (node_grade s1 0))); [congruence |].
    destruct (llm 1%nat _ _); intros H; injection H as <- _; reflexivity. }
  exists x, (match e with
             | Some err => Raise err
             | None => Ok (Notions.answer_of x)
             end).
  split.
  { unfold RagPipeline.run_rag, RagPipeline.graph_invoke.
    replace fuel with (2 + S (fuel - 3))%nat by lia.
    rewrite (steps_invoke encode llm vector_store settings
               2 _ retrieve generate (start q) _ Hpass).
    cbn [RagPipeline.invoke_from]. rewrite Hgen.
    destruct e as [err |]; [reflexivity |].
    cbn [next_node]. rewrite invoke_END. reflexivity. }
  split; [exact Ht |]. split; [exact Hcalls2 |].
  split; [rewrite Hrc, node_grade_rewrite_count; reflexivity |].
  split; [rewrite Hrq', Hrq; reflexivity |].
  rewrite generate_chunks_or, Hret', Hrel', <- generate_chunks_or.
  exact Hused.
Qed.

End PipelineFacts.

(** ** The pipeline theorems at concrete inputs *)

Section PipelineInstances.

Import VectorStore RagPipeline.

(** Every grading answered "none", the default bound of 2. *)
Lemma run_rag_shape_witness :
  0 < top_k_chunks default_settings
  /\ (3 * Z.to_nat (max_rewrite_attempts default_settings) + 3 <= 9)%nat
  /\ exists (x : Exec) (res : result Answer) (r : nat),
       run_rag Spec.unit_encoder (Spec.says "none") Spec.one_document
         default_settings 9 "anything"
       = Some (x, res)
       /\ trace x = Notions.loop_trace r
       /\ (llm_calls x <= 2 * r + 2)%nat.
Proof.
  assert (Hk : 0 < top_k_chunks default_settings) by (cbn; lia).
  assert (Hfuel : (3 * Z.to_nat (max_rewrite_attempts default_settings) + 3
                   <= 9)%nat) by (cbn; lia).
  split; [exact Hk |]. split; [exact Hfuel |].
  destruct (run_rag_shape Spec.unit_encoder (Spec.says "none")
              Spec.one_document default_settings "anything" 9 Hk Hfuel)
    as (x & res & r & Hrun & _ & Ht & _ & _ & Hc & _).
  exists x, res, r. split; [exact Hrun |]. split; [exact Ht | exact Hc].
Defined.

(** The chat model names chunk 0 and then answers. *)
Lemma run_rag_answers_from_retrieval_witness :
  (3 * Z.to_nat (max_rewrite_attempts default_settings) + 3 <= 9)%nat
  /\ exists (x : Exec) (res : result Answer),
       run_rag Spec.unit_encoder (Spec.says "0") Spec.one_document
         default_settings 9 "alpha"
       = Some (x, res)
       /\ forall a : Answer,
            res = Ok a ->
            out_chunk_count a
            = Z.of_nat (length (generate_chunks (state x)))
            /\ NoDup (out_sources a).
Proof.
  assert (Hfuel : (3 * Z.to_nat (max_rewrite_attempts default_settings) + 3
                   <= 9)%nat) by (cbn; lia).
  split; [exact Hfuel |].
  destruct (run_rag_answers_from_retrieval Spec.unit_encoder (Spec.says "0")
              Spec.one_document default_settings "alpha" 9 Hfuel)
    as (x & res & Hrun & Hall).
  exists x, res. split; [exact Hrun |].
  intros a Ha. destruct (Hall a Ha) as (Hcount & _ & _ & _ & Hnd & _).
  split; [exact Hcount | exact Hnd].
Defined.

Lemma relevant_chunk_answers_directly_witness :
  relevant_chunks
    (fst (node_grade (Spec.says "0") default_settings
            (node_retrieve Spec.unit_encoder Spec.one_document
               (initial "alpha") (top_k_chunks default_settings)) 0)) <> []
  /\ (3 <= 3)%nat
  /\ exists (x : Exec) (res : result Answer),
       run_rag Spec.unit_encoder (Spec.says "0") Spec.one_document
         default_settings 3 "alpha"
       = Some (x, res)
       /\ trace x = [retrieve; grade_chunks; generate]
       /\ llm_calls x = 2%nat.
Proof.
  assert (Hrel : relevant_chunks
                   (fst (node_grade (Spec.says "0") default_settings
                           (node_retrieve Spec.unit_encoder Spec.one_document
                              (initial "alpha")
                              (top_k_chunks default_settings)) 0)) <> [])
    by (vm_compute; discriminate).
  assert (Hfuel : (3 <= 3)%nat) by lia.
  split; [exact Hrel |]. split; [exact Hfuel |].
  destruct (relevant_chunk_answers_directly Spec.unit_encoder (Spec.says "0")
              Spec.one_document default_settings "alpha" 3 Hrel Hfuel)
    as (x & res & Hrun & Ht & Hc & _).
  exists x, res. split; [exact Hrun |]. split; [exact Ht | exact Hc].
Defined.

End PipelineInstances.

(** * Properties of chunking and ingestion *)

Section StringFacts.
Import DocumentLoader.

Local Abbreviation nonspace := (fun c : ascii => negb (PyStr.isspace c)).

Lemma append_cons (c : ascii) (s u : string) :
  String c s +:+ u = String c (s +:+ u).
Proof. reflexivity. Qed.

Lemma append_empty_r (s : string) : s +:+ EmptyString = s.
Proof.
  induction s as [| c s IH]; [reflexivity |].
  rewrite append_cons, IH. reflexivity.
Qed.

Lemma snoc_append (s : string) (c : ascii) (u : string) :
  snoc s c +:+ u = s +:+ String c u.
Proof.
  unfold snoc. induction s as [| d s IH]; [reflexivity |].
  rewrite !append_cons, IH. reflexivity.
Qed.

Lemma snoc_nonempty (s : string) (c : ascii) : snoc s c <> EmptyString.
Proof. destruct s; discriminate. Qed.

Lemma all_chars_snoc (p : ascii -> bool) (s : string) (c : ascii) :
  PyStr.all_chars p (snoc s c) = PyStr.all_chars p s && p c.
Proof.
  unfold snoc. induction s as [| d s IH].
  - cbn. apply andb_true_r.
  - rewrite append_cons. cbn [PyStr.all_chars]. rewrite IH. apply andb_assoc.
Qed.

Lemma is_word_snoc (w : string) (c : ascii) :
  w = EmptyString \/ Notions.is_word w ->
  PyStr.isspace c = false ->
  Notions.is_word (snoc w c).
Proof.
  intros Hw Hc. split; [apply snoc_nonempty |].
  rewrite all_chars_snoc, Hc. cbn. rewrite andb_true_r.
  destruct Hw as [-> | [_ Hw]]; [reflexivity | exact Hw].
Qed.

(** [split] returns words. *)
Lemma split_from_words (s : string) :
  forall word,
    word = EmptyString \/ Notions.is_word word ->
    Forall Notions.is_word (split_from word s).
Proof.
  induction s as [| c s IH]; intros word Hw; cbn.
  - destruct word; [constructor |].
    destruct Hw as [Hw | Hw]; [discriminate |].
    constructor; [exact Hw | constructor].
  - destruct (PyStr.isspace c) eqn:Hc.
    + destruct word as [| d word].
      * apply IH. left. reflexivity.
      * destruct Hw as [Hw | Hw]; [discriminate |].
        constructor; [exact Hw |]. apply IH. left. reflexivity.
    + apply IH. right. apply is_word_snoc; assumption.
Qed.

Lemma split_words (s : string) : Forall Notions.is_word (split s).
Proof. apply split_from_words. left. reflexivity. Qed.

Lemma split_from_append (u : string) :
  PyStr.all_chars nonspace u = true ->
  forall word rest,
    split_from word (u +:+ rest) = split_from (word +:+ u) rest.
Proof.
  induction u as [| c u IH]; intros Hu word rest.
  - rewrite append_empty_r. reflexivity.
  - cbn in Hu. apply andb_true_iff in Hu as [Hc Hu].
    apply negb_true_iff in Hc.
    rewrite append_cons. cbn [split_from]. rewrite Hc.
    rewrite IH by exact Hu. rewrite snoc_append. reflexivity.
Qed.

Lemma concat_cons (sep x y : string) (l : list string) :
  String.concat sep (x :: y :: l) = x +:+ sep +:+ String.concat sep (y :: l).
Proof. reflexivity. Qed.

(** Splitting the words joined by single spaces gives the words back. *)
Lemma split_join (ws : list string) :
  Forall Notions.is_word ws -> split (PyStr.join " " ws) = ws.
Proof.
  unfold split, PyStr.join.
  induction 1 as [| w ws [Hne Hw] Hws IH]; [reflexivity |].
  destruct ws as [| w' ws].
  - change (String.concat " " [w]) with w.
    rewrite <- (append_empty_r w) at 1.
    rewrite split_from_append by exact Hw. cbn [split_from].
    change (EmptyString +:+ w) with w.
    destruct w; [congruence | reflexivity].
  - rewrite concat_cons.
    rewrite split_from_append by exact Hw.
    change (" " +:+ String.concat " " (w' :: ws))
      with (String " " (String.concat " " (w' :: ws))).
    cbn [split_from].
    change (PyStr.isspace " ") with true. cbn iota.
    change (EmptyString +:+ w) with w.
    rewrite IH. destruct w; [congruence | reflexivity].
Qed.

End StringFacts.

Section BlankFacts.
Import DocumentLoader.

Lemma lstrip_empty (s : string) :
  PyStr.lstrip s = EmptyString -> PyStr.all_chars PyStr.isspace s = true.
Proof.
  induction s as [| c s IH]; [reflexivity |].
  cbn. destruct (PyStr.isspace c); [exact IH | discriminate].
Qed.

Lemma lstrip_head (s : string) (c : ascii) (s' : string) :
  PyStr.lstrip s = String c s' -> PyStr.isspace c = false.
Proof.
  induction s as [| d s IH]; [discriminate |].
  cbn. destruct (PyStr.isspace d) eqn:Hd; [exact IH |].
  intros H. injection H as <- _. exact Hd.
Qed.

Lemma strip_empty (s : string) :
  PyStr.strip s = EmptyString -> PyStr.all_chars PyStr.isspace s = true.
Proof.
  unfold PyStr.strip. intros H.
  destruct (PyStr.lstrip s) as [| c s'] eqn:Hl; [apply lstrip_empty; exact Hl |].
  apply lstrip_head in Hl. cbn in H. rewrite Hl in H.
  destruct (PyStr.rstrip s'); discriminate.
Qed.

Lemma strip_all_space (s : string) :
  PyStr.all_chars PyStr.isspace s = true -> PyStr.strip s = EmptyString.
Proof.
  unfold PyStr.strip. intros H.
  assert (Hl : PyStr.lstrip s = EmptyString).
  { induction s as [| c s IH]; [reflexivity |].
    cbn in H |- *. apply andb_true_iff in H as [Hc Hs].
    rewrite Hc. apply IH. exact Hs. }
  rewrite Hl. reflexivity.
Qed.

Lemma re_split_blank (s : string) :
  PyStr.all_chars PyStr.isspace s = true ->
  forall piece at_,
    PyStr.all_chars PyStr.isspace piece = true ->
    Forall (fun p => PyStr.all_chars PyStr.isspace p = true)
      (re_split_from piece at_ s).
Proof.
  induction s as [| c s IH]; intros Hs piece at_ Hp.
  - cbn. constructor; [exact Hp | constructor].
  - cbn in Hs. apply andb_true_iff in Hs as [Hc Hs].
    assert (Hsnoc : PyStr.all_chars PyStr.isspace (snoc piece c) = true)
      by (rewrite all_chars_snoc, Hp, Hc; reflexivity).
    cbn [re_split_from]. destruct at_ as [[|] |]; rewrite ?Hc.
    + constructor; [exact Hp |]. apply IH; [exact Hs | reflexivity].
    + apply IH; assumption.
    + apply IH; assumption.
Qed.

(** A text of whitespace has no sentence. *)
Lemma sentences_blank (text : string) :
  PyStr.strip text = EmptyString -> sentences text = [].
Proof.
  intros H. apply strip_empty in H. unfold sentences, re_split.
  rewrite filter_none; [reflexivity |].
  intros p Hp.
  pose proof (re_split_blank text H EmptyString (Piece false) eq_refl) as Hall.
  rewrite Forall_forall in Hall. rewrite (strip_all_space p); [reflexivity |].
  apply Hall. exact Hp.
Qed.

End BlankFacts.

Section WindowFacts.
Import DocumentLoader.
Context {A : Type}.
Variable chunk_size overlap : Z.

Local Abbreviation step := (@Notions.window_step A chunk_size overlap).

Lemma last_items_drop (l : list A) :
  exists n : nat, last_items overlap l = drop n l.
Proof. unfold last_items. destruct (0 <? overlap); eexists; reflexivity. Qed.

Lemma run_of_grow (ws l more : list A) :
  Notions.run_of ws l -> Notions.run_of ws (l ++ more).
Proof.
  intros (b & a & ->). exists b, (a ++ more). rewrite <- !app_assoc. reflexivity.
Qed.

(** Every window, flushed or current, is a run of the words read. *)
Lemma window_loop_runs (sents : list (list A)) :
  forall (out : list (list A)) (current seen : list A),
    (exists before, seen = before ++ current) ->
    Forall (fun ws => Notions.run_of ws seen /\ ws <> []) out ->
    (exists before,
        seen ++ concat sents
        = before ++ snd (foldl step (out, current) sents))
    /\ Forall (fun ws => Notions.run_of ws (seen ++ concat sents) /\ ws <> [])
         (fst (foldl step (out, current) sents)).
Proof.
  induction sents as [| words sents IH]; intros out current seen Hcur Hout.
  - cbn. rewrite app_nil_r. split; assumption.
  - cbn [foldl concat]. rewrite app_assoc.
    destruct Hcur as (before & Hseen).
    assert (Hgrow : Forall (fun ws => Notions.run_of ws (seen ++ words) /\ ws <> [])
                      out).
    { eapply Forall_impl; [exact Hout |].
      intros ws [Hrun Hne]. split; [apply run_of_grow; exact Hrun | exact Hne]. }
    unfold Notions.window_step at 2 4.
    destruct ((Z.of_nat (length current) + Z.of_nat (length words) >? chunk_size)
              && negb (is_nil current)) eqn:Hflush.
    + apply andb_true_iff in Hflush as [_ Hne].
      destruct (last_items_drop current) as (n & ->).
      apply IH.
      * exists (before ++ take n current).
        rewrite Hseen, <- !app_assoc. f_equal.
        rewrite (app_assoc (take n current)), take_drop. reflexivity.
      * apply Forall_app. split; [exact Hgrow |].
        constructor; [| constructor]. split.
        -- exists before, words. rewrite Hseen, <- app_assoc. reflexivity.
        -- destruct current; [discriminate | discriminate].
    + apply IH; [| exact Hgrow].
      exists before. rewrite Hseen, <- app_assoc. reflexivity.
Qed.

Lemma windows_runs (sents : list (list A)) :
  Forall (fun ws => Notions.run_of ws (concat sents) /\ ws <> [])
    (Notions.windows chunk_size overlap sents).
Proof.
  unfold Notions.windows, Notions.close_window.
  destruct (window_loop_runs sents [] [] [])
    as ((before & Hcur) & Hout); [exists []; reflexivity | constructor |].
  cbn [app] in Hcur, Hout.
  destruct (foldl step ([], []) sents) as [out current]. cbn [fst snd] in *.
  destruct current as [| w current]; cbn [is_nil]; [exact Hout |].
  apply Forall_app. split; [exact Hout |].
  constructor; [| constructor]. split; [| discriminate].
  exists before, []. rewrite app_nil_r. exact Hcur.
Qed.

(** A text that fits in one chunk is never flushed. *)
Lemma window_loop_fits (sents : list (list A)) :
  forall current : list A,
    Z.of_nat (length current) + Z.of_nat (length (concat sents)) <= chunk_size ->
    foldl step ([], current) sents = ([], current ++ concat sents).
Proof.
  induction sents as [| words sents IH]; intros current Hfit.
  - cbn. rewrite app_nil_r. reflexivity.
  - cbn [foldl concat] in *. rewrite length_app, Nat2Z.inj_add in Hfit.
    unfold Notions.window_step at 2.
    replace (Z.of_nat (length current) + Z.of_nat (length words) >? chunk_size)
      with false by (symmetry; rewrite Z.gtb_ltb; apply Z.ltb_ge; lia).
    cbn [andb]. rewrite IH by (rewrite length_app, Nat2Z.inj_add; lia).
    rewrite app_assoc. reflexivity.
Qed.

(** With an overlap of five or more, no word is lost: a word read is in
    the current window or in a flushed window of five words or more, and
    the current window has five words or holds all words read. *)
Lemma window_loop_cover (sents : list (list A)) :
  5 <= overlap ->
  forall (out : list (list A)) (current seen : list A),
    (forall w, w ∈ seen ->
       w ∈ current
       \/ exists ws, ws ∈ out /\ Notions.long_enough ws = true /\ w ∈ ws) ->
    (5 <= length current)%nat \/ current = seen ->
    let st := foldl step (out, current) sents in
    (forall w, w ∈ seen ++ concat sents ->
       w ∈ snd st
       \/ exists ws, ws ∈ fst st /\ Notions.long_enough ws = true /\ w ∈ ws)
    /\ ((5 <= length (snd st))%nat \/ snd st = seen ++ concat sents).
Proof.
  intros Hov. cbv zeta. induction sents as [| words sents IH];
    intros out current seen Hcov Hcur.
  - cbn. rewrite app_nil_r. split; assumption.
  - cbn [foldl concat]. rewrite app_assoc.
    destruct ((Z.of_nat (length current) + Z.of_nat (length words) >? chunk_size)
              && negb (is_nil current)) eqn:Hflush;
      [ assert (Hstep : step (out, current) words
                        = (out ++ [current], last_items overlap current ++ words))
          by (unfold Notions.window_step; rewrite Hflush; reflexivity)
      | assert (Hstep : step (out, current) words = (out, current ++ words))
          by (unfold Notions.window_step; rewrite Hflush; reflexivity) ];
      rewrite Hstep.
    + assert (Hlast : last_items overlap current
                      = drop (length current - Z.to_nat overlap) current).
      { unfold last_items.
        replace (0 <? overlap) with true by (symmetry; apply Z.ltb_lt; lia).
        reflexivity. }
      apply IH.
      * intros w Hw. apply elem_of_app in Hw as [Hw | Hw];
          [| left; apply elem_of_app; right; exact Hw].
        destruct (Hcov w Hw) as [Hin | (ws & Hws & Hlong & Hin)].
        -- destruct Hcur as [Hfive | Hall].
           ++ right. exists current. split; [apply elem_of_app; right; left |].
              split; [| exact Hin].
              unfold Notions.long_enough. rewrite Z.geb_leb.
              apply Z.leb_le. lia.
           ++ destruct (decide (5 <= length current)%nat) as [Hfive | Hshort].
              ** right. exists current.
                 split; [apply elem_of_app; right; left |].
                 split; [| exact Hin].
                 unfold Notions.long_enough. rewrite Z.geb_leb.
                 apply Z.leb_le. lia.
              ** left. apply elem_of_app. left. rewrite Hlast.
                 replace (length current - Z.to_nat overlap)%nat with 0%nat by lia.
                 exact Hin.
        -- right. exists ws. split; [apply elem_of_app; left; exact Hws |].
           split; assumption.
      * rewrite Hlast.
        destruct (decide (5 <= length current)%nat) as [Hfive | Hshort].
        -- left. rewrite length_app, length_drop. lia.
        -- destruct Hcur as [Hfive | Hall]; [lia |].
           right. replace (length current - Z.to_nat overlap)%nat with 0%nat by lia.
           cbn [drop]. rewrite Hall. reflexivity.
    + apply IH.
      * intros w Hw. apply elem_of_app in Hw as [Hw | Hw];
          [| left; apply elem_of_app; right; exact Hw].
        destruct (Hcov w Hw) as [Hin | Hout]; [| right; exact Hout].
        left. apply elem_of_app. left. exact Hin.
      * destruct Hcur as [Hfive | ->]; [| right; reflexivity].
        left. rewrite length_app. lia.
Qed.

(** With a positive overlap, a window exceeds the chunk size only by the
    overlap and one sentence. *)
Lemma window_loop_bound (limit : Z) (sents : list (list A)) :
  0 < overlap ->
  Forall (fun words => Z.of_nat (length words) <= limit) sents ->
  forall (out : list (list A)) (current : list A),
    Z.of_nat (length current) <= Z.max chunk_size (overlap + limit) ->
    Forall (fun ws => Z.of_nat (length ws) <= Z.max chunk_size (overlap + limit))
      out ->
    let st := foldl step (out, current) sents in
    Z.of_nat (length (snd st)) <= Z.max chunk_size (overlap + limit)
    /\ Forall (fun ws => Z.of_nat (length ws)
                         <= Z.max chunk_size (overlap + limit)) (fst st).
Proof.
  intros Hov Hsents. cbv zeta.
  induction Hsents as [| words sents Hwords _ IH];
    intros out current Hcur Hout.
  - cbn. split; assumption.
  - cbn [foldl]. unfold Notions.window_step at 2 4.
    destruct ((Z.of_nat (length current) + Z.of_nat (length words) >? chunk_size)
              && negb (is_nil current)) eqn:Hflush.
    + apply IH.
      * unfold last_items.
        replace (0 <? overlap) with true by (symmetry; apply Z.ltb_lt; lia).
        rewrite length_app, length_drop. lia.
      * apply Forall_app. split; [exact Hout |]. constructor; [exact Hcur | constructor].
    + apply IH; [| exact Hout].
      rewrite length_app. apply andb_false_iff in Hflush as [Hfit | Hnil].
      * rewrite Z.gtb_ltb in Hfit. apply Z.ltb_ge in Hfit. lia.
      * destruct current; [cbn; lia | discriminate].
Qed.

End WindowFacts.

Section ZeroOverlapFacts.
Import DocumentLoader.
Context {A : Type}.
Variable chunk_size : Z.

(** With an overlap of zero [current[-0:]] is the whole of [current]:
    the window is never shortened. *)
Lemma window_loop_zero (sents : list (list A)) :
  forall (out : list (list A)) (current : list A),
    Forall (fun ws => exists after, current = ws ++ after) out ->
    let st := foldl (@Notions.window_step A chunk_size 0) (out, current) sents in
    snd st = current ++ concat sents
    /\ Forall (fun ws => exists after, current ++ concat sents = ws ++ after)
         (fst st).
Proof.
  cbv zeta. induction sents as [| words sents IH]; intros out current Hout.
  - cbn. rewrite app_nil_r. split; [reflexivity | exact Hout].
  - cbn [foldl concat]. rewrite app_assoc.
    assert (Hgrow : Forall (fun ws => exists after, current ++ words = ws ++ after)
                      out).
    { eapply Forall_impl; [exact Hout |]. intros ws (after & ->).
      exists (after ++ words). rewrite app_assoc. reflexivity. }
    unfold Notions.window_step at 2 4.
    destruct ((Z.of_nat (length current) + Z.of_nat (length words) >? chunk_size)
              && negb (is_nil current)).
    + change (last_items 0 current) with current. apply IH.
      apply Forall_app. split; [exact Hgrow |].
      constructor; [| constructor]. exists words. reflexivity.
    + apply IH. exact Hgrow.
Qed.

End ZeroOverlapFacts.

Section ChunkFacts.
Import DocumentLoader.

Lemma filter_map {A B} (f : B -> bool) (g : A -> B) (l : list A) :
  List.filter f (map g l) = map g (List.filter (fun x => f (g x)) l).
Proof.
  induction l as [| x l IH]; [reflexivity |].
  cbn. destruct (f (g x)); cbn; rewrite IH; reflexivity.
Qed.

Lemma filter_ext_in {A} (f g : A -> bool) (l : list A) :
  (forall x, x ∈ l -> f x = g x) -> List.filter f l = List.filter g l.
Proof.
  induction l as [| x l IH]; intros H; [reflexivity |].
  cbn. rewrite (H x) by left.
  rewrite IH by (intros y Hy; apply H; right; exact Hy). reflexivity.
Qed.

(** The loop of [chunk_text] joins the windows of the loop on words. *)
Lemma chunk_loop_windows (chunk_size overlap : Z) (sents : list string) :
  forall (out : list (list string)) (current : list string),
    foldl (chunk_step chunk_size overlap)
      (map (PyStr.join " ") out, current, Z.of_nat (length current)) sents
    = (map (PyStr.join " ")
         (fst (foldl (Notions.window_step chunk_size overlap) (out, current)
                 (map split sents))),
       snd (foldl (Notions.window_step chunk_size overlap) (out, current)
              (map split sents)),
       Z.of_nat
         (length
            (snd (foldl (Notions.window_step chunk_size overlap)
                    (out, current) (map split sents))))).
Proof.
  induction sents as [| sentence sents IH]; intros out current; [reflexivity |].
  cbn [foldl map]. unfold chunk_step at 2, Notions.window_step at 2 4 6.
  destruct ((Z.of_nat (length current) + Z.of_nat (length (split sentence))
             >? chunk_size) && negb (is_nil current)).
  - rewrite <- IH. rewrite map_app. reflexivity.
  - rewrite <- IH. rewrite length_app, Nat2Z.inj_add. reflexivity.
Qed.

Lemma raw_chunks_windows (text : string) (chunk_size overlap : Z) :
  raw_chunks text chunk_size overlap
  = map (PyStr.join " ")
      (Notions.windows chunk_size overlap (map split (sentences text))).
Proof.
  unfold raw_chunks, Notions.windows, Notions.close_window.
  pose proof (chunk_loop_windows chunk_size overlap (sentences text) [] [])
    as Hloop.
  change (map (PyStr.join " ") [], [], Z.of_nat (length (@nil string)))
    with (@nil string, @nil string, 0) in Hloop.
  rewrite Hloop.
  destruct (foldl (Notions.window_step chunk_size overlap) ([], [])
              (map split (sentences text))) as [out current].
  cbn [fst snd]. destruct current; cbn [is_nil]; [reflexivity |].
  rewrite map_app. reflexivity.
Qed.

Lemma all_words_words (text : string) :
  Forall Notions.is_word (Notions.all_words text).
Proof.
  unfold Notions.all_words. apply Forall_concat, Forall_forall.
  intros ws Hws. apply list_elem_of_fmap in Hws as (s & -> & _).
  apply split_words.
Qed.

Lemma run_of_Forall {A} (P : A -> Prop) (ws l : list A) :
  Notions.run_of ws l -> Forall P l -> Forall P ws.
Proof.
  intros (b & a & ->) H.
  apply Forall_app in H as [_ H]. apply Forall_app in H as [H _]. exact H.
Qed.

Lemma run_of_length {A} (ws l : list A) :
  Notions.run_of ws l -> (length ws <= length l)%nat.
Proof. intros (b & a & ->). rewrite !length_app. lia. Qed.

(** [chunk_text] joins the windows of at least five words. *)
Lemma chunk_text_windows (text : string) (chunk_size overlap : Z) :
  chunk_text text chunk_size overlap
  = map (PyStr.join " ")
      (List.filter Notions.long_enough
         (Notions.windows chunk_size overlap (map split (sentences text)))).
Proof.
  unfold chunk_text.
  destruct (negb (nonempty text) || negb (nonempty (PyStr.strip text))) eqn:Hb.
  - assert (Hblank : PyStr.strip text = EmptyString).
    { apply orb_true_iff in Hb as [Hb | Hb].
      - destruct text; [reflexivity | discriminate].
      - destruct (PyStr.strip text); [reflexivity | discriminate]. }
    rewrite (sentences_blank text Hblank). reflexivity.
  - rewrite raw_chunks_windows, filter_map. f_equal.
    apply filter_ext_in. intros ws Hws.
    pose proof (windows_runs chunk_size overlap (map split (sentences text)))
      as Hruns.
    rewrite Forall_forall in Hruns. destruct (Hruns ws Hws) as [Hrun _].
    rewrite split_join; [reflexivity |].
    eapply run_of_Forall; [exact Hrun | apply all_words_words].
Qed.

(** X18. Every chunk returned by [chunk_text] is a run of at least five
    consecutive words of the text, joined by single spaces: the chunker
    neither reorders nor invents nor splits words, whatever the chunk size
    and the overlap. *)
Theorem chunk_text_runs (text : string) (chunk_size overlap : Z) :
  Forall (fun c =>
            exists ws : list string,
              c = PyStr.join " " ws
              /\ split c = ws
              /\ Notions.run_of ws (Notions.all_words text)
              /\ (5 <= length ws)%nat)
    (chunk_text text chunk_size overlap).
Proof.
  rewrite chunk_text_windows. apply Forall_forall. intros c Hc.
  apply list_elem_of_fmap in Hc as (ws & -> & Hws).
  apply list_elem_of_In, filter_In in Hws as [Hws Hlong].
  apply list_elem_of_In in Hws.
  pose proof (windows_runs chunk_size overlap (map split (sentences text)))
    as Hruns.
  rewrite Forall_forall in Hruns. destruct (Hruns ws Hws) as [Hrun _].
  exists ws. split; [reflexivity |]. split.
  - apply split_join. eapply run_of_Forall; [exact Hrun | apply all_words_words].
  - split; [exact Hrun |].
    unfold Notions.long_enough in Hlong.
    rewrite Z.geb_leb in Hlong. apply Z.leb_le in Hlong. lia.
Qed.

Lemma windows_words (text : string) (chunk_size overlap : Z) (ws : list string) :
  ws ∈ Notions.windows chunk_size overlap (map split (sentences text)) ->
  Notions.run_of ws (Notions.all_words text)
  /\ Forall Notions.is_word ws.
Proof.
  intros Hws.
  pose proof (windows_runs chunk_size overlap (map split (sentences text)))
    as Hruns.
  rewrite Forall_forall in Hruns. destruct (Hruns ws Hws) as [Hrun _].
  split; [exact Hrun |].
  eapply run_of_Forall; [exact Hrun | apply all_words_words].
Qed.

(** A text of fewer than five words gives no chunk. *)
Lemma chunk_text_few_words (text : string) (chunk_size overlap : Z) :
  (length (Notions.all_words text) < 5)%nat ->
  chunk_text text chunk_size overlap = [].
Proof.
  intros Hfew. rewrite chunk_text_windows.
  rewrite filter_none; [reflexivity |].
  intros ws Hws. apply windows_words in Hws as [Hrun _].
  apply run_of_length in Hrun.
  unfold Notions.long_enough. rewrite Z.geb_leb. apply Z.leb_gt. lia.
Qed.

(** X19. A text of at least five words that has no more words than the
    chunk size gives one chunk: all its words, joined by single spaces. *)
Theorem chunk_text_single (text : string) (chunk_size overlap : Z) :
  (5 <= length (Notions.all_words text))%nat ->
  Z.of_nat (length (Notions.all_words text)) <= chunk_size ->
  chunk_text text chunk_size overlap
  = [PyStr.join " " (Notions.all_words text)].
Proof.
  intros Hfive Hfit. rewrite chunk_text_windows.
  unfold Notions.windows, Notions.close_window.
  rewrite window_loop_fits by exact Hfit.
  cbn [fst snd app]. fold (Notions.all_words text).
  destruct (Notions.all_words text) as [| w ws] eqn:Hall; [cbn in Hfive; lia |].
  cbn [is_nil app List.filter].
  replace (Notions.long_enough (w :: ws)) with true; [reflexivity |].
  symmetry. unfold Notions.long_enough. rewrite Z.geb_leb. apply Z.leb_le. lia.
Qed.

(** With an overlap of five or more, every word is in a window that is
    kept. *)
Lemma windows_cover (text : string) (chunk_size overlap : Z) (w : string) :
  5 <= overlap ->
  (5 <= length (Notions.all_words text))%nat ->
  w ∈ Notions.all_words text ->
  exists ws,
    ws ∈ List.filter Notions.long_enough
           (Notions.windows chunk_size overlap (map split (sentences text)))
    /\ w ∈ ws.
Proof.
  intros Hov Hfive Hw.
  destruct (window_loop_cover chunk_size overlap (map split (sentences text))
              Hov [] [] [])
    as [Hcov Hcur].
  { intros w' Hw'. apply elem_of_nil in Hw'. contradiction. }
  { right. reflexivity. }
  cbn [app] in Hcov, Hcur. fold (Notions.all_words text) in Hcov, Hcur.
  unfold Notions.windows, Notions.close_window.
  destruct (foldl (Notions.window_step chunk_size overlap) ([], [])
              (map split (sentences text))) as [out current].
  cbn [fst snd] in *.
  assert (Hlong : (5 <= length current)%nat) by (destruct Hcur as [H | ->]; lia).
  destruct current as [| w0 current]; [cbn in Hlong; lia |]. cbn [is_nil].
  destruct (Hcov w Hw) as [Hin | (ws & Hws & Hl & Hin)].
  - exists (w0 :: current). split; [| exact Hin].
    apply list_elem_of_In, filter_In. split.
    + apply list_elem_of_In, elem_of_app. right. left.
    + unfold Notions.long_enough. rewrite Z.geb_leb. apply Z.leb_le. lia.
  - exists ws. split; [| exact Hin].
    apply list_elem_of_In, filter_In. split; [| exact Hl].
    apply list_elem_of_In, elem_of_app. left. exact Hws.
Qed.

(** X20. With an overlap of five words or more, no word of a text of at
    least five words is lost: each occurs in a returned chunk. *)
Theorem chunk_text_covers (text : string) (chunk_size overlap : Z) (w : string) :
  5 <= overlap ->
  (5 <= length (Notions.all_words text))%nat ->
  w ∈ Notions.all_words text ->
  exists c, c ∈ chunk_text text chunk_size overlap /\ w ∈ split c.
Proof.
  intros Hov Hfive Hw.
  destruct (windows_cover text chunk_size overlap w Hov Hfive Hw)
    as (ws & Hws & Hin).
  exists (PyStr.join " " ws). split.
  - rewrite chunk_text_windows. apply list_elem_of_fmap.
    exists ws. split; [reflexivity | exact Hws].
  - apply list_elem_of_In, filter_In in Hws as [Hws _].
    apply list_elem_of_In, windows_words in Hws as [_ Hwords].
    rewrite split_join by exact Hwords. exact Hin.
Qed.

(** X21. With a positive overlap, when no sentence has more than [limit]
    words, no chunk has more words than the larger of the chunk size and
    the overlap plus [limit]. *)
Theorem chunk_text_size_bound (text : string) (chunk_size overlap limit : Z) :
  0 < overlap ->
  Forall (fun s => Z.of_nat (length (split s)) <= limit) (sentences text) ->
  Forall (fun c => Z.of_nat (length (split c))
                   <= Z.max chunk_size (overlap + limit))
    (chunk_text text chunk_size overlap).
Proof.
  intros Hov Hlimit. rewrite chunk_text_windows.
  destruct (sentences text) as [| s0 sents] eqn:Hsents; [constructor |].
  assert (Hlim : 0 <= limit) by (apply Forall_inv in Hlimit; lia).
  rewrite <- Hsents in *. clear Hsents s0 sents.
  destruct (window_loop_bound chunk_size overlap limit
              (map split (sentences text)) Hov
              ltac:(apply Forall_fmap; exact Hlimit) [] [])
    as [Hcur Hout]; [cbn; lia | constructor |].
  apply Forall_forall. intros c Hc.
  apply list_elem_of_fmap in Hc as (ws & -> & Hws).
  apply list_elem_of_In, filter_In in Hws as [Hws _].
  apply list_elem_of_In in Hws.
  rewrite split_join by (eapply windows_words; exact Hws).
  revert Hws. unfold Notions.windows, Notions.close_window.
  destruct (foldl (Notions.window_step chunk_size overlap) ([], [])
              (map split (sentences text))) as [out current].
  cbn [fst snd] in *. rewrite Forall_forall in Hout.
  destruct (is_nil current); [apply Hout |].
  intros Hws. apply elem_of_app in Hws as [Hws | Hws]; [apply Hout; exact Hws |].
  apply list_elem_of_singleton in Hws. subst ws. exact Hcur.
Qed.

(** X22. With an overlap of zero the window is never shortened
    ([current[-0:]] is all of [current]): every chunk returned begins at
    the first word of the text, and for a text of five words or more the
    last chunk holds all its words. *)
Theorem chunk_text_zero_overlap (text : string) (chunk_size : Z) :
  Forall (fun c =>
            exists ws after,
              Notions.all_words text = ws ++ after
              /\ c = PyStr.join " " ws)
    (chunk_text text chunk_size 0)
  /\ ((5 <= length (Notions.all_words text))%nat ->
      last (chunk_text text chunk_size 0)
      = Some (PyStr.join " " (Notions.all_words text))).
Proof.
  rewrite chunk_text_windows.
  destruct (window_loop_zero chunk_size (map split (sentences text)) [] [])
    as [Hcur Hout]; [constructor |].
  cbn [app] in Hcur, Hout. fold (Notions.all_words text) in Hcur, Hout.
  unfold Notions.windows, Notions.close_window.
  destruct (foldl (Notions.window_step chunk_size 0) ([], [])
              (map split (sentences text))) as [out current].
  cbn [fst snd] in *. subst current. split.
  - apply Forall_forall. intros c Hc.
    apply list_elem_of_fmap in Hc as (ws & -> & Hws).
    apply list_elem_of_In, filter_In in Hws as [Hws _].
    apply list_elem_of_In in Hws.
    rewrite Forall_forall in Hout.
    destruct (is_nil (Notions.all_words text)).
    + destruct (Hout ws Hws) as (after & Hafter). exists ws, after. auto.
    + apply elem_of_app in Hws as [Hws | Hws].
      * destruct (Hout ws Hws) as (after & Hafter). exists ws, after. auto.
      * apply list_elem_of_singleton in Hws. subst ws.
        exists (Notions.all_words text), []. rewrite app_nil_r. auto.
  - intros Hfive.
    destruct (Notions.all_words text) as [| w ws] eqn:Hall; [cbn in Hfive; lia |].
    cbn [is_nil]. rewrite List.filter_app, map_app. cbn [List.filter].
    replace (Notions.long_enough (w :: ws)) with true
      by (symmetry; unfold Notions.long_enough; rewrite Z.geb_leb;
          apply Z.leb_le; lia).
    cbn [map]. apply last_snoc.
Qed.

End ChunkFacts.

Section SentenceFacts.
Import DocumentLoader.

Lemma split_lstrip (s : string) : split (PyStr.lstrip s) = split s.
Proof.
  unfold split. induction s as [| c s IH]; [reflexivity |].
  cbn [PyStr.lstrip split_from].
  destruct (PyStr.isspace c) eqn:Hc; [exact IH |].
  cbn [split_from]. rewrite Hc. reflexivity.
Qed.

Lemma split_from_cons (word : string) (c : ascii) (s : string) :
  split_from word (String c s)
  = if PyStr.isspace c
    then match word with
         | EmptyString => split_from EmptyString s
         | _ => word :: split_from EmptyString s
         end
    else split_from (snoc word c) s.
Proof. reflexivity. Qed.

Lemma split_from_rstrip (s : string) :
  forall word, split_from word (PyStr.rstrip s) = split_from word s.
Proof.
  induction s as [| c s IH]; intros word; [reflexivity |].
  cbn [PyStr.rstrip]. destruct (PyStr.rstrip s) as [| d r] eqn:Hr.
  - rewrite (split_from_cons word c s).
    destruct (PyStr.isspace c) eqn:Hc.
    + rewrite <- IH. destruct word; reflexivity.
    + rewrite split_from_cons, Hc. rewrite <- IH. reflexivity.
  - rewrite (split_from_cons word c (String d r)), (split_from_cons word c s).
    rewrite !IH. reflexivity.
Qed.

Lemma split_strip (s : string) : split (PyStr.strip s) = split s.
Proof.
  unfold PyStr.strip, split. rewrite split_from_rstrip. apply split_lstrip.
Qed.

Lemma split_all_space (s : string) :
  PyStr.all_chars PyStr.isspace s = true -> split s = [].
Proof.
  unfold split. induction s as [| c s IH]; intros H; [reflexivity |].
  cbn in H. apply andb_true_iff in H as [Hc Hs].
  cbn [split_from]. rewrite Hc. apply IH. exact Hs.
Qed.

(** Whitespace between two strings separates their words. *)
Lemma split_from_space (u : string) (c : ascii) (v : string) :
  PyStr.isspace c = true ->
  forall word,
    split_from word (u +:+ String c v) = split_from word u ++ split v.
Proof.
  intros Hc. induction u as [| d u IH]; intros word.
  - change (EmptyString +:+ String c v) with (String c v).
    cbn [split_from]. rewrite Hc. destruct word; reflexivity.
  - rewrite append_cons. cbn [split_from].
    destruct (PyStr.isspace d); [| apply IH].
    destruct word; rewrite IH; reflexivity.
Qed.

(** The words of the pieces of [re.split] are the words of the text. *)
Lemma re_split_words (s : string) :
  forall piece at_,
    (at_ = Separator -> piece = EmptyString) ->
    concat (map split (re_split_from piece at_ s)) = split (piece +:+ s).
Proof.
  induction s as [| c s IH]; intros piece at_ Hsep.
  - rewrite append_empty_r. cbn. rewrite app_nil_r. reflexivity.
  - assert (Hgrow : concat (map split
                              (re_split_from (snoc piece c)
                                 (Piece (is_terminator c)) s))
                    = split (piece +:+ String c s)).
    { rewrite IH by discriminate. rewrite snoc_append. reflexivity. }
    cbn [re_split_from].
    destruct at_ as [[|] |].
    + destruct (PyStr.isspace c) eqn:Hc; [| exact Hgrow].
      cbn [map concat]. rewrite IH by reflexivity.
      unfold split at 3. rewrite split_from_space by exact Hc. reflexivity.
    + exact Hgrow.
    + rewrite (Hsep eq_refl) in *.
      destruct (PyStr.isspace c) eqn:Hc; [| exact Hgrow].
      rewrite IH by reflexivity.
      change (EmptyString +:+ String c s) with (String c s).
      change (EmptyString +:+ s) with s.
      unfold split. cbn [split_from]. rewrite Hc. reflexivity.
Qed.

(** X23. Cutting a text into sentences loses and adds no word: the words
    of its sentences, in order, are the words of the text. *)
Theorem sentence_words_are_text_words (text : string) :
  Notions.all_words text = split text.
Proof.
  unfold Notions.all_words, sentences.
  pose proof (re_split_words text EmptyString (Piece false)
                ltac:(discriminate)) as Hwords.
  change (EmptyString +:+ text) with text in Hwords.
  rewrite <- Hwords. fold (re_split text).
  induction (re_split text) as [| p l IH]; [reflexivity |].
  cbn [List.filter]. destruct (nonempty (PyStr.strip p)) eqn:Hp.
  - cbn [map concat]. rewrite IH, split_strip. reflexivity.
  - cbn [map concat]. rewrite IH.
    rewrite (split_all_space p); [reflexivity |].
    apply strip_empty. destruct (PyStr.strip p); [reflexivity | discriminate].
Qed.

End SentenceFacts.

Section IngestFacts.
Import VectorStore DocumentLoader BackgroundTasks.
Variable encode : string -> Faiss.vec.

Local Abbreviation failed :=
  {| status := "error"; chunk_count := 0 |}.

(** X24. A document is not indexed when loading it raised, when its text
    has fewer than ten characters between the outer whitespace, or when it
    has fewer than five words: the status written is "error" with a chunk
    count of 0 and the store is left as it was. *)
Theorem process_document_rejects (loaded : RagPipeline.result string)
    (doc_id filename : string) (vector_store : VectorStore.t)
    (chunk_size chunk_overlap : Z) :
  match loaded with
  | RagPipeline.Raise _ => True
  | RagPipeline.Ok text =>
      (String.length (PyStr.strip text) < 10)%nat
      \/ (length (Notions.all_words text) < 5)%nat
  end ->
  process_document encode loaded doc_id filename vector_store
    chunk_size chunk_overlap
  = (vector_store, failed).
Proof.
  destruct loaded as [text | e]; [| reflexivity].
  intros Hbad. unfold process_document.
  destruct (negb (nonempty text)
            || (Z.of_nat (String.length (PyStr.strip text)) <? 10)) eqn:Hshort;
    [reflexivity |].
  apply orb_false_iff in Hshort as [_ Hlen]. apply Z.ltb_ge in Hlen.
  destruct Hbad as [Hbad | Hfew]; [lia |].
  rewrite (chunk_text_few_words text chunk_size chunk_overlap Hfew).
  reflexivity.
Qed.

Lemma strip_nonempty (text : string) :
  (10 <= String.length (PyStr.strip text))%nat -> nonempty text = true.
Proof. destruct text; [cbn; lia | reflexivity]. Qed.

(** X25. A text of ten characters or more and five words or more, chunked
    with an overlap of five or more, is indexed into a reachable store: the
    status written is "indexed" with the number of chunks, which is at
    least one and is the growth of the index, and every word of the text
    occurs in the text of a record that is listed for the document, carries
    its id and file name and is not deleted. *)
Theorem process_document_indexes (ops : list Spec.op) (text : string)
    (doc_id filename : string) (chunk_size chunk_overlap : Z) :
  (10 <= String.length (PyStr.strip text))%nat ->
  5 <= chunk_overlap ->
  (5 <= length (Notions.all_words text))%nat ->
  let vector_store := Spec.run encode ops in
  let chunks := chunk_text text chunk_size chunk_overlap in
  let out :=
    process_document encode (RagPipeline.Ok text) doc_id filename
      vector_store chunk_size chunk_overlap in
  snd out = {| status := "indexed"; chunk_count := Z.of_nat (length chunks) |}
  /\ (1 <= length chunks)%nat
  /\ total_vectors (fst out)
     = total_vectors vector_store + Z.of_nat (length chunks)
  /\ forall w, w ∈ Notions.all_words text ->
       exists (p : nat) (m : Meta),
         p ∈ Spec.positions_of (fst out) doc_id
         /\ _meta (fst out) !! p = Some (Some m)
         /\ VectorStore.doc_id m = doc_id
         /\ doc_name m = filename
         /\ deleted m = false
         /\ w ∈ split (VectorStore.text m).
Proof.
  intros Hlen Hov Hfive. cbn zeta.
  set (vector_store := Spec.run encode ops).
  set (chunks := chunk_text text chunk_size chunk_overlap).
  assert (Hne : chunks <> []).
  { destruct (Notions.all_words text) as [| w ws] eqn:Hall; [cbn in Hfive; lia |].
    destruct (windows_cover text chunk_size chunk_overlap w Hov)
      as (ws' & Hws' & _); [rewrite Hall; exact Hfive | rewrite Hall; left |].
    unfold chunks. rewrite chunk_text_windows. intros Hnil.
    apply fmap_nil_inv in Hnil. rewrite Hnil in Hws'.
    apply elem_of_nil in Hws'. exact Hws'. }
  assert (Hout : process_document encode (RagPipeline.Ok text) doc_id filename
                   vector_store chunk_size chunk_overlap
                 = (fst (add_chunks encode vector_store doc_id filename chunks),
                    {| status := "indexed";
                       chunk_count := Z.of_nat (length chunks) |})).
  { unfold process_document. rewrite (strip_nonempty text Hlen).
    replace (Z.of_nat (String.length (PyStr.strip text)) <? 10) with false
      by (symmetry; apply Z.ltb_ge; lia).
    cbn [negb orb]. fold chunks.
    destruct chunks as [| c l] eqn:Hc; [congruence |]. reflexivity. }
  rewrite Hout. cbn [fst snd].
  destruct (run_sound encode ops) as (Hmeta & _). fold vector_store in Hmeta.
  split; [reflexivity |].
  split; [destruct chunks; [congruence | cbn; lia] |].
  split.
  { unfold total_vectors, Faiss.ntotal.
    rewrite add_chunks_index, length_app, length_map. lia. }
  intros w Hw.
  destruct (windows_cover text chunk_size chunk_overlap w Hov Hfive Hw)
    as (ws & Hws & Hin).
  assert (Hc : PyStr.join " " ws ∈ chunks).
  { unfold chunks. rewrite chunk_text_windows. apply list_elem_of_fmap.
    exists ws. split; [reflexivity | exact Hws]. }
  apply list_elem_of_lookup in Hc as (j & Hj).
  exists (length (_index vector_store) + j)%nat,
         (mkMeta doc_id filename (Z.of_nat j) (PyStr.join " " ws) false).
  split.
  { unfold Spec.positions_of. rewrite add_chunks_doc_map by exact Hne.
    rewrite lookup_insert_eq. cbn [default].
    apply list_elem_of_In, in_seq. apply lookup_lt_Some in Hj. lia. }
  split.
  { rewrite add_chunks_records by exact Hmeta.
    rewrite lookup_app_r by lia. rewrite list_lookup_imap.
    replace (length (_index vector_store) + j - length (_meta vector_store))%nat
      with j by lia.
    rewrite Hj. reflexivity. }
  repeat split.
  cbn [VectorStore.text].
  apply list_elem_of_In, filter_In in Hws as [Hws _].
  apply list_elem_of_In, windows_words in Hws as [_ Hwords].
  rewrite split_join by exact Hwords. exact Hin.
Qed.

End IngestFacts.

(** ** The ingestion theorems at concrete inputs *)

Section IngestInstances.
Import VectorStore DocumentLoader BackgroundTasks.

Local Abbreviation six_words := "one two three four five six.".

(** Six words, the default chunk size and overlap. *)
Lemma chunk_text_single_witness :
  (5 <= length (Notions.all_words six_words))%nat
  /\ Z.of_nat (length (Notions.all_words six_words)) <= 512
  /\ chunk_text six_words 512 64
     = [PyStr.join " " (Notions.all_words six_words)].
Proof.
  assert (Hfive : (5 <= length (Notions.all_words six_words))%nat)
    by (vm_compute; lia).
  assert (Hfit : Z.of_nat (length (Notions.all_words six_words)) <= 512)
    by (vm_compute; discriminate).
  split; [exact Hfive |]. split; [exact Hfit |].
  exact (chunk_text_single six_words 512 64 Hfive Hfit).
Defined.

Lemma chunk_text_covers_witness :
  5 <= 64
  /\ (5 <= length (Notions.all_words six_words))%nat
  /\ "one" ∈ Notions.all_words six_words
  /\ exists c, c ∈ chunk_text six_words 512 64 /\ "one" ∈ split c.
Proof.
  assert (Hov : 5 <= 64) by lia.
  assert (Hfive : (5 <= length (Notions.all_words six_words))%nat)
    by (vm_compute; lia).
  assert (Hw : "one" ∈ Notions.all_words six_words).
  { replace (Notions.all_words six_words)
      with ["one"; "two"; "three"; "four"; "five"; "six."]
      by (vm_compute; reflexivity).
    left. }
  split; [exact Hov |]. split; [exact Hfive |]. split; [exact Hw |].
  exact (chunk_text_covers six_words 512 64 "one" Hov Hfive Hw).
Defined.

Lemma chunk_text_size_bound_witness :
  0 < 64
  /\ Forall (fun s => Z.of_nat (length (split s)) <= 6) (sentences six_words)
  /\ Forall (fun c => Z.of_nat (length (split c)) <= Z.max 512 (64 + 6))
       (chunk_text six_words 512 64).
Proof.
  assert (Hov : 0 < 64) by lia.
  assert (Hlimit : Forall (fun s => Z.of_nat (length (split s)) <= 6)
                     (sentences six_words)).
  { replace (sentences six_words) with [six_words] by (vm_compute; reflexivity).
    constructor; [vm_compute; discriminate | constructor]. }
  split; [exact Hov |]. split; [exact Hlimit |].
  exact (chunk_text_size_bound six_words 512 64 6 Hov Hlimit).
Defined.

Lemma chunk_text_zero_overlap_witness :
  (5 <= length (Notions.all_words six_words))%nat
  /\ last (chunk_text six_words 512 0)
     = Some (PyStr.join " " (Notions.all_words six_words)).
Proof.
  assert (Hfive : (5 <= length (Notions.all_words six_words))%nat)
    by (vm_compute; lia).
  split; [exact Hfive |].
  exact (proj2 (chunk_text_zero_overlap six_words 512) Hfive).
Defined.

(** Four words of more than ten characters are not indexed. *)
Lemma process_document_rejects_witness :
  ((String.length (PyStr.strip "Hello world, everyone here") < 10)%nat
   \/ (length (Notions.all_words "Hello world, everyone here") < 5)%nat)
  /\ process_document Spec.unit_encoder
       (RagPipeline.Ok "Hello world, everyone here") "d" "note.txt"
       Spec.one_document 512 64
     = (Spec.one_document, {| status := "error"; chunk_count := 0 |}).
Proof.
  assert (Hbad : (String.length (PyStr.strip "Hello world, everyone here") < 10)%nat
                 \/ (length (Notions.all_words "Hello world, everyone here") < 5)%nat)
    by (right; vm_compute; lia).
  split; [exact Hbad |].
  exact (process_document_rejects Spec.unit_encoder
           (RagPipeline.Ok "Hello world, everyone here") "d" "note.txt"
           Spec.one_document 512 64 Hbad).
Defined.

Lemma process_document_indexes_witness :
  (10 <= String.length (PyStr.strip six_words))%nat
  /\ 5 <= 64
  /\ (5 <= length (Notions.all_words six_words))%nat
  /\ snd (process_document Spec.unit_encoder (RagPipeline.Ok six_words)
            "e" "six.txt"
            (Spec.run Spec.unit_encoder [Spec.Insert "d" "report" ["alpha"]])
            512 64)
     = {| status := "indexed";
          chunk_count := Z.of_nat (length (chunk_text six_words 512 64)) |}.
Proof.
  assert (Hlen : (10 <= String.length (PyStr.strip six_words))%nat)
    by (vm_compute; lia).
  assert (Hov : 5 <= 64) by lia.
  assert (Hfive : (5 <= length (Notions.all_words six_words))%nat)
    by (vm_compute; lia).
  split; [exact Hlen |]. split; [exact Hov |]. split; [exact Hfive |].
  exact (proj1 (process_document_indexes Spec.unit_encoder
                  [Spec.Insert "d" "report" ["alpha"]] six_words
                  "e" "six.txt" 512 64 Hlen Hov Hfive)).
Defined.

End IngestInstances.
